(** * The Flow controller's Loader: graph construction, declare ordering,
      incremental evaluation.

    A shallow embedding of [Loader] (its [Apply], [loadNewGraph],
    [SortDeclareBlocks], [findDeclareDependencies], [populateComponentNodes],
    [MergeSubgraph], [EvaluateDependencies] and [concurrentEvalFn]) together
    with the properties established for it. *)

From Stdlib Require Import ZArith String Ascii List Lia Sorting.Sorted.
From stdpp Require Import base option list relations sorting gmap strings pretty fin_maps.

Local Open Scope string_scope.
Local Open Scope list_scope.

(** ** River syntax trees (package [ast])

    Only what the Loader inspects: a statement is an attribute or a block;
    a block has a dotted name, an optional label (the empty string when
    absent), the position of its name and a body of statements.  The
    expression of an attribute is kept as the list of the dotted paths it
    mentions. *)
Module ast.

Inductive Stmt : Type :=
| AttributeStmt (name : string) (value : list (list string))
| BlockStmtS (b : BlockStmt)
with BlockStmt : Type :=
| MkBlockStmt (Name : list string) (Label : string) (NamePos : nat)
              (Body : list Stmt).

Definition Name (b : BlockStmt) : list string :=
  match b with MkBlockStmt n _ _ _ => n end.
Definition Label (b : BlockStmt) : string :=
  match b with MkBlockStmt _ l _ _ => l end.
Definition NamePos (b : BlockStmt) : nat :=
  match b with MkBlockStmt _ _ p _ => p end.
Definition Body (b : BlockStmt) : list Stmt :=
  match b with MkBlockStmt _ _ _ body => body end.

(** [strings.Join(elems, sep)]. *)
Fixpoint Join (elems : list string) (sep : string) : string :=
  match elems with
  | [] => ""
  | [x] => x
  | x :: rest => x +:+ sep +:+ Join rest sep
  end.

(** [b.GetBlockName()]: the dotted name of the block. *)
Definition GetBlockName (b : BlockStmt) : string := Join (Name b) ".".

(** The nil [*ast.BlockStmt]; reading a missing key of a
    [map[string]*ast.BlockStmt] yields it. *)
Definition nilBlock : BlockStmt := MkBlockStmt [] "" 0 [].

End ast.
Export ast.

(** ** Diagnostics (package [diag]) *)
Module diag.

Inductive Severity := SeverityLevelWarn | SeverityLevelError.

Record Diagnostic := MkDiagnostic {
  Severity_ : Severity;
  Message : string;
  StartPos : option nat;
  EndPos : option nat
}.

Definition Diagnostics := list Diagnostic.

Definition isError (d : Diagnostic) : bool :=
  match Severity_ d with SeverityLevelError => true | _ => false end.

(** [diags.HasErrors()]. *)
Definition HasErrors (ds : Diagnostics) : bool := existsb isError ds.

Definition errorMsg (msg : string) : Diagnostic :=
  MkDiagnostic SeverityLevelError msg None None.

End diag.
Export diag.

(** ** Iterating over a Go map

    [for k, v := range m] visits every entry once, in an order the language
    leaves unspecified.  The order is a parameter of the model: any
    enumeration that is a permutation of the map's entries. *)
Class MapRange := {
  range : forall {K : Type} `{Countable K} {V : Type}, gmap K V -> list (K * V);
  range_Permutation : forall {K : Type} `{Countable K} {V : Type} (m : gmap K V),
    range m ≡ₚ map_to_list m
}.

(** The enumeration in stdpp's canonical order... *)
#[export] Instance canonicalRange : MapRange :=
  {| range := fun K _ _ V m => map_to_list m;
     range_Permutation := fun K _ _ V m => reflexivity _ |}.

(** ... and in the opposite order. *)
Program Definition reverseRange : MapRange :=
  {| range := fun K _ _ V m => rev (map_to_list m) |}.
Next Obligation. intros K ? ? V m. symmetry. apply Permutation_rev. Qed.

(** ** Ordering declare blocks by their dependencies *)
Module declare.

(** Reading a Go map with the zero value for a missing key. *)
Definition getList (graph : gmap string (list string)) (k : string) : list string :=
  default [] (graph !! k).
Definition getInt (inDegree : gmap string Z) (k : string) : Z :=
  default 0%Z (inDegree !! k).
Definition getBlock (blockByLabel : gmap string BlockStmt) (k : string) : BlockStmt :=
  default nilBlock (blockByLabel !! k).

(** [findDeclareDependencies]: the labels of [blockByLabel] named by a
    block statement of the body, looking into nested declare blocks. *)
Fixpoint findDeclareDependencies (declareBlock : BlockStmt)
    (blockByLabel : gmap string BlockStmt) {struct declareBlock} : list string :=
  match declareBlock with
  | MkBlockStmt _ _ _ body =>
      (fix each (stmts : list Stmt) : list string :=
         match stmts with
         | [] => []
         | BlockStmtS blockStmt :: rest =>
             let fullName := Join (Name blockStmt) "." in
             (if decide (fullName = "declare") then
                findDeclareDependencies blockStmt blockByLabel
              else if decide (is_Some (blockByLabel !! fullName)) then
                [fullName]
              else [])
             ++ each rest
         | AttributeStmt _ _ :: rest => each rest
         end) body
  end.

(** First loop of [SortDeclareBlocks]: index the blocks by label (a later
    block overwrites an earlier one with the same label) and give every
    label an adjacency list. *)
Definition indexBlocks (declareBlocks : list BlockStmt)
  : gmap string (list string) * gmap string BlockStmt :=
  fold_left (fun '(graph, blockByLabel) block =>
               let label := Label block in
               (match graph !! label with
                | Some _ => graph
                | None => <[label := []]> graph
                end,
                <[label := block]> blockByLabel))
            declareBlocks (∅, ∅).

(** One dependency [dep] of the block labelled [label]:
    [graph[dep] = append(graph[dep], label); inDegree[label]++]. *)
Definition addDependency (label : string)
    (st : gmap string (list string) * gmap string Z) (dep : string)
  : gmap string (list string) * gmap string Z :=
  let '(graph, inDegree) := st in
  (<[dep := getList graph dep ++ [label]]> graph,
   <[label := (getInt inDegree label + 1)%Z]> inDegree).

(** Second loop of [SortDeclareBlocks]. *)
Definition countDependencies (declareBlocks : list BlockStmt)
    (blockByLabel : gmap string BlockStmt)
    (graph : gmap string (list string))
  : gmap string (list string) * gmap string Z :=
  fold_left (fun st block =>
               fold_left (addDependency (Label block))
                         (findDeclareDependencies block blockByLabel) st)
            declareBlocks (graph, ∅).

(** One dependant [dep] of the label just emitted:
    [inDegree[dep]--; if inDegree[dep] == 0 { queue = append(queue, dep) }]. *)
Definition release (st : gmap string Z * list string) (dep : string)
  : gmap string Z * list string :=
  let '(inDegree, queue) := st in
  let inDegree' := <[dep := (getInt inDegree dep - 1)%Z]> inDegree in
  if decide (getInt inDegree' dep = 0%Z) then (inDegree', queue ++ [dep])
  else (inDegree', queue).

(** The loop [for len(queue) > 0].  Every round emits one label; [fuel]
    bounds the number of rounds and [None] stands for a loop that has not
    finished within it. *)
Fixpoint drain (fuel : nat) (graph : gmap string (list string))
    (blockByLabel : gmap string BlockStmt)
    (inDegree : gmap string Z) (queue : list string)
    (sortedList : list BlockStmt)
  : option (gmap string Z * list BlockStmt) :=
  match queue with
  | [] => Some (inDegree, sortedList)
  | label :: queue =>
      match fuel with
      | O => None
      | S fuel =>
          let sortedList := sortedList ++ [getBlock blockByLabel label] in
          let '(inDegree, queue) :=
            fold_left release (getList graph label) (inDegree, queue) in
          drain fuel graph blockByLabel inDegree queue sortedList
      end
  end.

(** [sort.Strings]: ascending byte-wise lexicographic order. *)
Definition string_le (a b : string) : Prop := String.leb a b = true.
#[export] Instance string_le_dec a b : Decision (string_le a b).
Proof. unfold string_le. apply _. Defined.
Definition sortStrings (l : list string) : list string := merge_sort string_le l.

(** [fmt.Sprintf("%v", labels)] for a [[]string]. *)
Definition formatStrings (labels : list string) : string :=
  "[" +:+ Join labels " " +:+ "]".

Definition cycleDiagnostic (unresolvedLabels : list string) : Diagnostic :=
  MkDiagnostic SeverityLevelError
    ("Detected a cycle in declare dependencies; cannot sort: "
       +:+ formatStrings unresolvedLabels)
    None None.

Section Sort.
Context `{MapRange}.

(** The labels whose in-degree is zero, in the order the map yields them. *)
Definition initialQueue (blockByLabel : gmap string BlockStmt)
    (inDegree : gmap string Z) : list string :=
  fold_left (fun queue '(label, _) =>
               if decide (getInt inDegree label = 0%Z) then queue ++ [label]
               else queue)
            (range blockByLabel) [].

Definition unresolved (inDegree : gmap string Z) : list string :=
  sortStrings
    (fold_left (fun unresolvedLabels '(label, count) =>
                  if decide (0 < count)%Z then unresolvedLabels ++ [label]
                  else unresolvedLabels)
               (range inDegree) []).

(** [SortDeclareBlocks].  The queue loop gets as many rounds as there
    are blocks. *)
Definition SortDeclareBlocks (declareBlocks : list BlockStmt)
  : option (list BlockStmt * Diagnostics) :=
  let '(graph, blockByLabel) := indexBlocks declareBlocks in
  let '(graph, inDegree) := countDependencies declareBlocks blockByLabel graph in
  let queue := initialQueue blockByLabel inDegree in
  match drain (length declareBlocks) graph blockByLabel inDegree queue [] with
  | None => None
  | Some (inDegree, sortedList) =>
      if decide (length sortedList ≠ size blockByLabel) then
        Some ([], [cycleDiagnostic (unresolved inDegree)])
      else Some (sortedList, [])
  end.
End Sort.

End declare.

(** ** Vocabulary for the properties of the declare ordering *)
Module declare_spec.
Import declare.

(** The body walk of [findDeclareDependencies], one statement at a time. *)
Definition stmtDependencies (blockByLabel : gmap string BlockStmt) (s : Stmt)
  : list string :=
  match s with
  | AttributeStmt _ _ => []
  | BlockStmtS blockStmt =>
      if decide (GetBlockName blockStmt = "declare") then
        findDeclareDependencies blockStmt blockByLabel
      else if decide (is_Some (blockByLabel !! GetBlockName blockStmt)) then
        [GetBlockName blockStmt]
      else []
  end.

(** A body references a block name, in the words of the specification:
    some block statement of the body carries the name, or some declare
    block nested in the body references it in its own body.  A statement
    named [declare] is a nested declaration, not a reference. *)
Inductive references : list Stmt -> string -> Prop :=
| references_here body b :
    BlockStmtS b ∈ body ->
    GetBlockName b ≠ "declare" ->
    references body (GetBlockName b)
| references_nested body d name :
    BlockStmtS d ∈ body ->
    GetBlockName d = "declare" ->
    references (Body d) name ->
    references body name.

(** The label map [SortDeclareBlocks] builds for a list of blocks. *)
Definition blockByLabelOf (declareBlocks : list BlockStmt) : gmap string BlockStmt :=
  snd (indexBlocks declareBlocks).

(** The last block of the list that carries the label. *)
Definition lastWithLabel (declareBlocks : list BlockStmt) (label : string)
  : option BlockStmt :=
  last (filter (fun b => Label b = label) declareBlocks).

(** [dependsOn bs label dep]: a block of [bs] labelled [label] is reported
    to depend on the label [dep]. *)
Definition dependsOn (declareBlocks : list BlockStmt) (label dep : string) : Prop :=
  exists b, b ∈ declareBlocks /\ Label b = label /\
            dep ∈ findDeclareDependencies b (blockByLabelOf declareBlocks).

(** The label-dependency graph has no cycle. *)
Definition acyclic (declareBlocks : list BlockStmt) : Prop :=
  forall label, ~ tc (dependsOn declareBlocks) label label.

(** The dependencies as a list of edges [(dep, label)], in the order the
    second loop of [SortDeclareBlocks] meets them. *)
Definition edgesOf (declareBlocks : list BlockStmt)
    (blockByLabel : gmap string BlockStmt) : list (string * string) :=
  declareBlocks ≫= (fun b => (fun dep => (dep, Label b))
                               <$> findDeclareDependencies b blockByLabel).

Definition addEdge (st : gmap string (list string) * gmap string Z)
    (e : string * string) :=
  addDependency (snd e) st (fst e).

Definition targets (dep : string) (E : list (string * string)) : list string :=
  (filter (fun e => fst e = dep) E).*2.

Definition occurrences (x : string) (l : list string) : nat :=
  length (filter (fun y => y = x) l).

(** Edges into [x] whose source has not been emitted yet. *)
Definition pending (E : list (string * string)) (out : list string) (x : string)
  : list (string * string) :=
  filter (fun e => snd e = x /\ fst e ∉ out) E.

(** What the queue loop maintains: [out] are the labels emitted so far. *)
Record drainInv (E : list (string * string)) (keys : gset string)
    (inDegree : gmap string Z) (queue out : list string) : Prop := {
  inv_NoDup : NoDup (out ++ queue);
  inv_keys : forall x, x ∈ out ++ queue -> x ∈ keys;
  inv_pending : forall x, getInt inDegree x = Z.of_nat (length (pending E out x));
  inv_zero : forall x, x ∈ keys -> (x ∈ out ++ queue <-> getInt inDegree x = 0%Z);
  inv_order : forall i label dep,
      out !! i = Some label -> (dep, label) ∈ E ->
      exists j, j < i /\ out !! j = Some dep
}.

Section Run.
Context `{MapRange}.

(** The state in which the queue loop of [SortDeclareBlocks] ends. *)
Definition drainResult (declareBlocks : list BlockStmt)
  : option (gmap string Z * list BlockStmt) :=
  let '(graph, blockByLabel) := indexBlocks declareBlocks in
  let '(graph, inDegree) := countDependencies declareBlocks blockByLabel graph in
  drain (length declareBlocks) graph blockByLabel inDegree
        (initialQueue blockByLabel inDegree) [].

(** The in-degrees that remain when the queue loop ends. *)
Definition remainingInDegree (declareBlocks : list BlockStmt) : gmap string Z :=
  match drainResult declareBlocks with
  | Some (inDegree, _) => inDegree
  | None => ∅
  end.
End Run.

End declare_spec.

(** ** Sample declare blocks *)
Module declare_examples.
Import declare declare_spec.

(** A component block [name "x" { }] inside a declare body. *)
Definition use (name : string) : Stmt :=
  BlockStmtS (MkBlockStmt [name] "x" 0 []).

(** [declare "a" { }], [declare "b" { a "x" { } }] and
    [declare "c" { declare "inner" { b "x" { } } }]. *)
Definition declareA : BlockStmt := MkBlockStmt ["declare"] "a" 1 [].
Definition declareB : BlockStmt := MkBlockStmt ["declare"] "b" 2 [use "a"].
Definition declareC : BlockStmt :=
  MkBlockStmt ["declare"] "c" 3
    [BlockStmtS (MkBlockStmt ["declare"] "inner" 4 [use "b"])].

(** [declare "a" { b "x" { } }] and [declare "b" { a "x" { } }]. *)
Definition cyclicA : BlockStmt := MkBlockStmt ["declare"] "a" 5 [use "b"].
Definition cyclicB : BlockStmt := MkBlockStmt ["declare"] "b" 6 [use "a"].

(** Two more blocks labelled [a]: one that references [b] and an empty
    one. *)
Definition declareA' : BlockStmt := MkBlockStmt ["declare"] "a" 7 [use "b"].
Definition declareA0 : BlockStmt := MkBlockStmt ["declare"] "a" 8 [].

Definition rankABC (label : string) : nat :=
  if decide (label = "a") then 0 else if decide (label = "b") then 1 else 2.

(** Every dependency goes from a label to one of smaller rank. *)
Definition ranked (declareBlocks : list BlockStmt) (rank : string -> nat) : bool :=
  forallb (fun '(dep, label) => (rank dep <? rank label)%nat)
          (edgesOf declareBlocks (blockByLabelOf declareBlocks)).

End declare_examples.

(** ** The dependency graph (package [dag])

    Nodes are references to node objects; two references are the same node
    exactly when they are the same address. *)
Module dag.

Definition Node := nat.

(** An edge [(from, to)]: [from] depends on [to]. *)
Definition Edge := (Node * Node)%type.

(** Modelled from the spec: the container [dag.Graph] ("mutable container
    of Nodes and directed Edges (From depends-on To)", with [GetByID]),
    whose source is not part of the files at hand.  Nodes are kept in
    insertion order. *)
Record Graph := MkGraph {
  nodes : list Node;
  nodeByID : gmap string Node;
  edges : list Edge
}.

Definition emptyGraph : Graph := MkGraph [] ∅ [].

(** Modelled from the spec: [g.Add(n)], for a node whose [NodeID()] is
    [id]. *)
Definition Add (id : string) (n : Node) (g : Graph) : Graph :=
  MkGraph (if decide (n ∈ nodes g) then nodes g else nodes g ++ [n])
          (<[id := n]> (nodeByID g))
          (edges g).

(** Modelled from the spec: [g.GetByID(id)], [None] for nil. *)
Definition GetByID (g : Graph) (id : string) : option Node := nodeByID g !! id.

(** Modelled from the spec: [g.AddEdge(e)]. *)
Definition AddEdge (e : Edge) (g : Graph) : Graph :=
  MkGraph (nodes g) (nodeByID g)
          (if decide (e ∈ edges g) then edges g else edges g ++ [e]).

(** Modelled from the spec: [g.Nodes()]. *)
Definition Nodes (g : Graph) : list Node := nodes g.

(** Modelled from the spec: [g.Clone()], "independent copy sharing node
    identity but with independent edge set". *)
Definition Clone (g : Graph) : Graph := MkGraph (nodes g) (nodeByID g) (edges g).

(** Modelled from the spec: [g.MergeEdges(other)]. *)
Definition MergeEdges (other : Graph) (g : Graph) : Graph :=
  fold_left (fun g e => AddEdge e g) (edges other) g.

(** The nodes [n] depends on, and the nodes that depend on [n]. *)
Definition Dependencies (g : Graph) (n : Node) : list Node :=
  snd <$> filter (fun e => fst e = n) (edges g).
Definition Dependants (g : Graph) (n : Node) : list Node :=
  fst <$> filter (fun e => snd e = n) (edges g).

(** Modelled from the spec: [WalkIncomingNodes(g, n, visit)] visits the
    direct predecessors of [n], the nodes with an edge to [n]. *)
Definition WalkIncomingNodes (g : Graph) (n : Node) : list Node := Dependants g n.

(** Modelled from the spec: [g.Leaves()], the nodes without dependencies. *)
Definition Leaves (g : Graph) : list Node :=
  filter (fun n => Dependencies g n = []) (nodes g).

(** The nodes reached from [from] along at most [fuel] edges. *)
Fixpoint reach (fuel : nat) (g : Graph) (from : list Node) : list Node :=
  match fuel with
  | O => from
  | S fuel => reach fuel g (list_union from (mbind (Dependencies g) from))
  end.

(** The nodes reached from [n] along one edge or more. *)
Definition reachable (g : Graph) (n : Node) : list Node :=
  reach (length (edges g)) g (Dependencies g n).

Definition onCycle (g : Graph) (n : Node) : bool := bool_decide (n ∈ reachable g n).

(** Every node that lies on a cycle or has an edge to itself, in the
    order of the edges. *)
Definition cyclicNodes (g : Graph) : list Node :=
  remove_dups (filter (fun n => onCycle g n = true) (fst <$> edges g)).

(** Modelled from the spec: [dag.Validate(g)], "fails with CycleError
    listing participating node IDs".  The result is the list of errors of
    the multierror, empty when validation succeeds. *)
Definition Validate (NodeID : Node -> string) (g : Graph) : list string :=
  match cyclicNodes g with
  | [] => []
  | ns => ["cycle: " +:+ Join (NodeID <$> ns) ", "]
  end.

(** Modelled from the spec: [dag.Reduce(g)], "transitive reduction
    (redundant edges implied by longer paths removed)": the edge
    [(from, to)] goes when [to] is reached from another dependency of
    [from]. *)
Definition redundant (g : Graph) (e : Edge) : Prop :=
  Exists (fun via => via ≠ snd e /\ snd e ∈ reachable g via) (Dependencies g (fst e)).
#[export] Instance redundant_dec g e : Decision (redundant g e).
Proof. unfold redundant. apply _. Defined.
Definition Reduce (g : Graph) : Graph :=
  MkGraph (nodes g) (nodeByID g) (filter (fun e => ~ redundant g e) (edges g)).

(** Modelled from the spec: the order of [WalkTopological(g, start,
    visit)], "visits leaves (no unvisited dependencies) before dependents;
    ties among ready nodes may be broken in insertion order".  A node is
    ready when it is a start node or all its dependencies were visited. *)
Definition ready (g : Graph) (start visited : list Node) (n : Node) : Prop :=
  (n ∉ visited) /\
  (n ∈ start \/
   Dependencies g n ≠ [] /\ Forall (fun d => d ∈ visited) (Dependencies g n)).
#[export] Instance ready_dec g start visited n : Decision (ready g start visited n).
Proof. unfold ready. apply _. Defined.

Fixpoint walkOrder (fuel : nat) (g : Graph) (start visited : list Node) : list Node :=
  match fuel with
  | O => visited
  | S fuel =>
      match list_find (ready g start visited) (nodes g) with
      | Some (_, n) => walkOrder fuel g start (visited ++ [n])
      | None => visited
      end
  end.

Definition WalkTopological (g : Graph) (start : list Node) : list Node :=
  walkOrder (length (nodes g)) g start [].

End dag.

(** ** Node objects and the Loader's state (package [controller]) *)
Module controller.
Export dag.

(** Values of arguments and exports are opaque to the Loader. *)
Definition Value := Z.

Inductive ConfigKind := LoggingConfig | TracingConfig | ArgumentConfig | ExportConfig.

(** The variants of graph node the Loader tells apart by type switch. *)
Inductive NodeKind :=
| ComponentNode (registration : string)
| ServiceNode (DependsOn : list string)
| ConfigNode (kind : ConfigKind)
| DeclareComponentNode.

#[export] Instance ConfigKind_eq_dec : EqDecision ConfigKind.
Proof. solve_decision. Defined.
#[export] Instance NodeKind_eq_dec : EqDecision NodeKind.
Proof. solve_decision. Defined.

(** A node object.  [block] is the block the node currently points at
    ([None] for nil); [arguments], [exports] and [value] are what its last
    evaluation left. *)
Record NodeObject := MkNode {
  kind : NodeKind;
  nodeID : string;
  namespace : string;
  block : option BlockStmt;
  label : string;
  optional : bool;
  default_ : Value;
  arguments : Value;
  declareArguments : gmap string Value;
  exports : Value;
  value : Value
}.

Definition isComponentNode (o : NodeObject) : bool :=
  match kind o with ComponentNode _ => true | _ => false end.
Definition isServiceNode (o : NodeObject) : bool :=
  match kind o with ServiceNode _ => true | _ => false end.
Definition isArgumentConfigNode (o : NodeObject) : bool :=
  match kind o with ConfigNode ArgumentConfig => true | _ => false end.

(** [n.UpdateBlock(b)]. *)
Definition UpdateBlock (b : option BlockStmt) (o : NodeObject) : NodeObject :=
  MkNode (kind o) (nodeID o) (namespace o) b (label o) (optional o) (default_ o)
         (arguments o) (declareArguments o) (exports o) (value o).

(** The store of node objects: what the node references of the graphs
    point to.  [nextNode] is the address the next constructed node gets. *)
Record Store := MkStore {
  objects : gmap Node NodeObject;
  nextNode : Node
}.

Definition emptyStore : Store := MkStore ∅ 0.

(** Constructing a node object. *)
Definition new (o : NodeObject) (s : Store) : Node * Store :=
  (nextNode s, MkStore (<[nextNode s := o]> (objects s)) (S (nextNode s))).

Definition update (n : Node) (f : NodeObject -> NodeObject) (s : Store) : Store :=
  MkStore (alter f n (objects s)) (nextNode s).

Definition NodeID (s : Store) (n : Node) : string :=
  match objects s !! n with Some o => nodeID o | None => "" end.
Definition Namespace (s : Store) (n : Node) : string :=
  match objects s !! n with Some o => namespace o | None => "" end.
Definition Block (s : Store) (n : Node) : option BlockStmt :=
  match objects s !! n with Some o => block o | None => None end.
Definition hasKind (p : NodeObject -> bool) (s : Store) (n : Node) : bool :=
  match objects s !! n with Some o => p o | None => false end.

(** [g.Add(n)], reading the ID off the node. *)
Definition addNode (s : Store) (n : Node) (g : Graph) : Graph := Add (NodeID s n) n g.

(** Modelled from the spec: [BlockComponentID(block).String()], "stable ID
    from the configuration-language-visible type+label": the name parts
    and, when there is one, the label, joined by dots. *)
Definition BlockComponentID (b : BlockStmt) : string :=
  Join (Name b ++ (if decide (Label b = "") then [] else [Label b])) ".".

(** Modelled from the spec: the value cache ("mapping from NodeID to last
Arguments, last Exports, last Namespace; mapping from
    module-argument-name to value; mapping from declare-node-ID to its
    argument bag; an export-change version counter incremented whenever
    any cached export value changes"). *)
Record valueCache := MkCache {
  cachedArguments : gmap string Value;
  cachedExports : gmap string Value;
  cachedNamespaces : gmap string string;
  moduleArguments : gmap string Value;
  moduleExports : gmap string Value;
  moduleChangedIndex : Z;
  declareValues : gmap string (gmap string Value);
  declareExports : gmap string Value
}.

Definition newValueCache : valueCache := MkCache ∅ ∅ ∅ ∅ ∅ 0 ∅ ∅.

Definition CacheModuleArgument (key : string) (v : Value) (c : valueCache) : valueCache :=
  MkCache (cachedArguments c) (cachedExports c) (cachedNamespaces c)
          (<[key := v]> (moduleArguments c)) (moduleExports c) (moduleChangedIndex c)
          (declareValues c) (declareExports c).
Definition SyncModuleArgs (args : gmap string Value) (c : valueCache) : valueCache :=
  MkCache (cachedArguments c) (cachedExports c) (cachedNamespaces c)
          (filter (fun kv => is_Some (args !! fst kv)) (moduleArguments c))
          (moduleExports c) (moduleChangedIndex c)
          (declareValues c) (declareExports c).
Definition ClearModuleExports (c : valueCache) : valueCache :=
  MkCache (cachedArguments c) (cachedExports c) (cachedNamespaces c)
          (moduleArguments c) ∅ (moduleChangedIndex c)
          (declareValues c) (declareExports c).
Definition CacheModuleExportValue (name : string) (v : Value) (c : valueCache)
  : valueCache :=
  MkCache (cachedArguments c) (cachedExports c) (cachedNamespaces c)
          (moduleArguments c) (<[name := v]> (moduleExports c))
          (if decide (moduleExports c !! name = Some v) then moduleChangedIndex c
           else (moduleChangedIndex c + 1)%Z)
          (declareValues c) (declareExports c).
Definition CacheDeclareExport (id : string) (v : Value) (c : valueCache) : valueCache :=
  MkCache (cachedArguments c) (cachedExports c) (cachedNamespaces c)
          (moduleArguments c) (moduleExports c) (moduleChangedIndex c)
          (declareValues c) (<[id := v]> (declareExports c)).
Definition CacheDeclare (id : string) (v : gmap string Value) (c : valueCache)
  : valueCache :=
  MkCache (cachedArguments c) (cachedExports c) (cachedNamespaces c)
          (moduleArguments c) (moduleExports c) (moduleChangedIndex c)
          (<[id := v]> (declareValues c)) (declareExports c).
Definition CacheNamespace (id ns : string) (c : valueCache) : valueCache :=
  MkCache (cachedArguments c) (cachedExports c) (<[id := ns]> (cachedNamespaces c))
          (moduleArguments c) (moduleExports c) (moduleChangedIndex c)
          (declareValues c) (declareExports c).
Definition CacheArguments (id : string) (v : Value) (c : valueCache) : valueCache :=
  MkCache (<[id := v]> (cachedArguments c)) (cachedExports c) (cachedNamespaces c)
          (moduleArguments c) (moduleExports c) (moduleChangedIndex c)
          (declareValues c) (declareExports c).
Definition CacheExports (id : string) (v : Value) (c : valueCache) : valueCache :=
  MkCache (cachedArguments c) (<[id := v]> (cachedExports c)) (cachedNamespaces c)
          (moduleArguments c) (moduleExports c) (moduleChangedIndex c)
          (declareValues c) (declareExports c).
(** [SyncIDs], [SyncDeclareIDs], [SyncDeclareExportIDs], [SyncNamespaces]:
    entries of nodes that are gone are dropped. *)
Definition SyncIDs (ids : list string) (c : valueCache) : valueCache :=
  MkCache (filter (fun kv => fst kv ∈ ids) (cachedArguments c))
          (filter (fun kv => fst kv ∈ ids) (cachedExports c))
          (cachedNamespaces c)
          (moduleArguments c) (moduleExports c) (moduleChangedIndex c)
          (declareValues c) (declareExports c).
Definition SyncDeclareIDs (ids : list string) (c : valueCache) : valueCache :=
  MkCache (cachedArguments c) (cachedExports c) (cachedNamespaces c)
          (moduleArguments c) (moduleExports c) (moduleChangedIndex c)
          (filter (fun kv => fst kv ∈ ids) (declareValues c)) (declareExports c).
Definition SyncDeclareExportIDs (ids : list string) (c : valueCache) : valueCache :=
  MkCache (cachedArguments c) (cachedExports c) (cachedNamespaces c)
          (moduleArguments c) (moduleExports c) (moduleChangedIndex c)
          (declareValues c) (filter (fun kv => fst kv ∈ ids) (declareExports c)).
Definition SyncNamespaces (ids : list string) (c : valueCache) : valueCache :=
  MkCache (cachedArguments c) (cachedExports c)
          (filter (fun kv => fst kv ∈ ids) (cachedNamespaces c))
          (moduleArguments c) (moduleExports c) (moduleChangedIndex c)
          (declareValues c) (declareExports c).
Definition ExportChangeIndex (c : valueCache) : Z := moduleChangedIndex c.
Definition CreateModuleExports (c : valueCache) : gmap string Value := moduleExports c.

(** What a node's [Evaluate] may fail with: a collection of diagnostics or
    any other error. *)
Inductive EvalError :=
| DiagnosticsError (ds : Diagnostics)
| OtherError (msg : string).

(** What evaluating a node yields: its new arguments, exports and value,
    and the error, if any. *)
Record Evaluation := MkEvaluation {
  evalArguments : Value;
  evalDeclareArguments : gmap string Value;
  evalExports : Value;
  evalValue : Value;
  evalError : option EvalError
}.

Definition evaluatedObject (o : NodeObject) (e : Evaluation) : NodeObject :=
  MkNode (kind o) (nodeID o) (namespace o) (block o) (label o) (optional o)
         (default_ o) (evalArguments e) (evalDeclareArguments e) (evalExports e)
         (evalValue e).

(** A service as the Loader sees it. *)
Record Service := MkService {
  serviceName : string;
  serviceDependsOn : list string
}.

(** The collaborators of the Loader, each reached through an interface:
    the component registry, the services, the parent-module callback
    ([OnExportsChange], here whether it is set), evaluation of a node
    against the cache, construction and validation of config nodes, and
    the scan of a node's expressions for references to other nodes. *)
Record Collaborators := MkCollaborators {
  ControllerID : string;
  OnExportsChange : bool;
  services : list Service;
  componentRegGet : string -> option string;
  Evaluate : NodeObject -> valueCache -> Evaluation;
  NewConfigNode : BlockStmt -> NodeObject * Diagnostics;
  validateConfigNodes : list NodeObject -> bool -> gmap string Value -> Diagnostics;
  ComponentReferences : NodeObject -> gmap string Node -> list Node * Diagnostics
}.

(** The Loader: its graphs, node lists, cache, most recently loaded blocks
    and last notified export index, together with the store of node
    objects and two records kept for the statements below: the IDs of the
    nodes evaluated, in order, and the export snapshots handed to the
    parent callback. *)
Record Loader := MkLoader {
  store : Store;
  graph : Graph;
  originalGraph : Graph;
  componentNodes : list Node;
  serviceNodes : list Node;
  cache : valueCache;
  blocks : list BlockStmt;
  moduleExportIndex : Z;
  evaluated : list string;
  notified : list (gmap string Value)
}.

Definition setStore (s : Store) (l : Loader) : Loader :=
  MkLoader s (graph l) (originalGraph l) (componentNodes l) (serviceNodes l)
           (cache l) (blocks l) (moduleExportIndex l) (evaluated l) (notified l).
Definition setOriginalGraph (g : Graph) (l : Loader) : Loader :=
  MkLoader (store l) (graph l) g (componentNodes l) (serviceNodes l)
           (cache l) (blocks l) (moduleExportIndex l) (evaluated l) (notified l).
Definition setCache (c : valueCache) (l : Loader) : Loader :=
  MkLoader (store l) (graph l) (originalGraph l) (componentNodes l) (serviceNodes l)
           c (blocks l) (moduleExportIndex l) (evaluated l) (notified l).
Definition setModuleExportIndex (i : Z) (l : Loader) : Loader :=
  MkLoader (store l) (graph l) (originalGraph l) (componentNodes l) (serviceNodes l)
           (cache l) (blocks l) i (evaluated l) (notified l).
Definition notify (snapshot : gmap string Value) (l : Loader) : Loader :=
  MkLoader (store l) (graph l) (originalGraph l) (componentNodes l) (serviceNodes l)
           (cache l) (blocks l) (moduleExportIndex l) (evaluated l)
           (notified l ++ [snapshot]).
Definition install (g : Graph) (components services : list Node)
    (componentBlocks : list BlockStmt) (l : Loader) : Loader :=
  MkLoader (store l) g (originalGraph l) components services
           (cache l) componentBlocks (moduleExportIndex l) (evaluated l) (notified l).
Definition logEvaluated (id : string) (l : Loader) : Loader :=
  MkLoader (store l) (graph l) (originalGraph l) (componentNodes l) (serviceNodes l)
           (cache l) (blocks l) (moduleExportIndex l) (evaluated l ++ [id]) (notified l).

(** [NewLoader(opts)]. *)
Definition NewLoader : Loader :=
  MkLoader emptyStore emptyGraph emptyGraph [] [] newValueCache [] 0 [] [].

End controller.

(** ** The Loader *)
Module loader.
Export controller.

Definition dquote : string := String (ascii_of_nat 34) "".
(** [%q] of a string without characters that need escaping. *)
Definition quoted (s : string) : string := dquote +:+ s +:+ dquote.

(** Positions are offsets; [pos.Add(n)] moves an offset. *)
Definition diagAt (msg : string) (startPos endPos : nat) : Diagnostic :=
  MkDiagnostic SeverityLevelError msg (Some startPos) (Some endPos).

Definition newNode (k : NodeKind) (id ns : string) (b : option BlockStmt)
    (lbl : string) : NodeObject :=
  MkNode k id ns b lbl false 0%Z 0%Z ∅ 0%Z 0%Z.

Definition NewServiceNode (svc : Service) : NodeObject :=
  newNode (ServiceNode (serviceDependsOn svc)) (serviceName svc) "" None "".
Definition NewComponentNode (registration : string) (b : BlockStmt) : NodeObject :=
  newNode (ComponentNode registration) (BlockComponentID b) "" (Some b) (Label b).
Definition NewDeclareComponentNode (b : BlockStmt) : NodeObject :=
  newNode DeclareComponentNode (BlockComponentID b) "" (Some b) (Label b).
Definition NewDefaultLoggingConfigNode : NodeObject :=
  newNode (ConfigNode LoggingConfig) "logging" "" None "".
Definition NewDefaulTracingConfigNode : NodeObject :=
  newNode (ConfigNode TracingConfig) "tracing" "" None "".

(** Modelled from the spec: the templates registered for declare blocks
    ("nested declare visibility follows lexical scoping (a child declare
    sees only templates registered by ancestors processed before it)"):
    those inherited from the enclosing scopes and those of this scope. *)
Record nodeTemplates := MkTemplates {
  inherited : gmap string Graph;
  templates : gmap string Graph
}.
Definition RetrieveAvailableTemplates (nt : nodeTemplates)
  : gmap string Graph * option string :=
  (templates nt ∪ inherited nt, None).
Definition NewNodeTemplates (parent : option nodeTemplates) : nodeTemplates :=
  MkTemplates (match parent with
               | Some p => fst (RetrieveAvailableTemplates p)
               | None => ∅
               end) ∅.
Definition AddTemplate (lbl : string) (g : Graph) (nt : nodeTemplates) : nodeTemplates :=
  MkTemplates (inherited nt) (<[lbl := g]> (templates nt)).

(** Modelled from the spec: [CategorizeStatements], which splits the
    statements of a declare body into component, config and declare
    blocks; a statement that is not a block is an error. *)
Definition isConfigBlockName (name : string) : bool :=
  bool_decide (name ∈ ["logging"; "tracing"; "argument"; "export"]).
Fixpoint CategorizeStatements (body : list Stmt)
  : (list BlockStmt * list BlockStmt * list BlockStmt) + Diagnostic :=
  match body with
  | [] => inl ([], [], [])
  | AttributeStmt name _ :: _ =>
      inr (errorMsg ("unsupported statement type: " +:+ name))
  | BlockStmtS b :: rest =>
      match CategorizeStatements rest with
      | inr e => inr e
      | inl (components, configs, declares) =>
          if decide (GetBlockName b = "declare") then
            inl (components, configs, b :: declares)
          else if isConfigBlockName (GetBlockName b) then
            inl (components, b :: configs, declares)
          else inl (b :: components, configs, declares)
      end
  end.

(** Modelled from the spec: [template.DeepClone(namespace)], "deep-cloned
    with a per-instance namespace prefix": a fresh node object for every
    node of the template, its ID prefixed with the namespace, and the
    edges of the template between the fresh nodes. *)
Definition cloneObject (ns : string) (o : NodeObject) : NodeObject :=
  MkNode (kind o) (ns +:+ "." +:+ nodeID o)
         (if decide (namespace o = "") then ns else ns +:+ "." +:+ namespace o)
         (block o) (label o) (optional o) (default_ o)
         (arguments o) (declareArguments o) (exports o) (value o).

Definition cloneNode (ns : string) (st : gmap Node Node * Graph * Store) (n : Node)
  : gmap Node Node * Graph * Store :=
  let '(renaming, g, s) := st in
  match objects s !! n with
  | Some o =>
      let '(n', s) := new (cloneObject ns o) s in
      (<[n := n']> renaming, addNode s n' g, s)
  | None => (renaming, g, s)
  end.

Definition cloneEdge (renaming : gmap Node Node) (g : Graph) (e : Edge) : Graph :=
  match renaming !! fst e, renaming !! snd e with
  | Some a, Some b => AddEdge (a, b) g
  | _, _ => g
  end.

Definition DeepClone (template : Graph) (ns : string) (s : Store) : Graph * Store :=
  let '(renaming, g, s) :=
    fold_left (cloneNode ns) (Nodes template) (∅, emptyGraph, s) in
  (fold_left (cloneEdge renaming) (edges template) g, s).

Section Loader.
Context `{MapRange}.
Variable env : Collaborators.

(** [l.isModule()]. *)
Definition isModule : bool :=
  OnExportsChange env && negb (bool_decide (ControllerID env = "")).

(** [l.splitComponentBlocks(blocks)]. *)
Definition splitComponentBlocks (blocks : list BlockStmt)
  : list BlockStmt * list BlockStmt :=
  fold_left (fun '(componentBlocks, serviceBlocks) block =>
               if decide (BlockComponentID block ∈ serviceName <$> services env)
               then (componentBlocks, serviceBlocks ++ [block])
               else (componentBlocks ++ [block], serviceBlocks))
            blocks ([], []).

(** [l.populateServiceNodes(g, serviceBlocks)], first loop: a node for
    every service, the one of the previous graph when there is one (the
    type assertion on it is not modelled), its block reset to nil. *)
Definition populateService (st : Loader * Graph * Diagnostics) (svc : Service)
  : Loader * Graph * Diagnostics :=
  let '(l, g, diags) := st in
  let id := serviceName svc in
  match GetByID g id with
  | Some _ =>
      (l, g, diags ++ [errorMsg ("cannot add service " +:+ quoted id
                                   +:+ "; node with same ID already exists")])
  | None =>
      let '(node, s) :=
        match GetByID (graph l) id with
        | Some existing => (existing, store l)
        | None => new (NewServiceNode svc) (store l)
        end in
      let s := update node (UpdateBlock None) s in
      (setStore s l, addNode s node g, diags)
  end.

(** Second loop: blocks are assigned to the services. *)
Definition assignServiceBlock (st : Loader * Graph * Diagnostics) (b : BlockStmt)
  : Loader * Graph * Diagnostics :=
  let '(l, g, diags) := st in
  let blockID := BlockComponentID b in
  match GetByID g blockID with
  | None => (l, g, diags)
  | Some node =>
      match Block (store l) node with
      | Some _ =>
          (l, g, diags ++ [diagAt ("duplicate definition of " +:+ quoted blockID)
                                  (NamePos b) (NamePos b)])
      | None => (setStore (update node (UpdateBlock (Some b)) (store l)) l, g, diags)
      end
  end.

Definition populateServiceNodes (l : Loader) (g : Graph)
    (serviceBlocks : list BlockStmt) : Loader * Graph * Diagnostics :=
  fold_left assignServiceBlock serviceBlocks
            (fold_left populateService (services env) (l, g, [])).

(** [l.populateConfigBlockNodes(args, g, configBlocks, inModule)].  The
    node map is the list of the nodes appended to it. *)
Definition populateConfigBlock
    (st : Loader * Graph * Diagnostics * list NodeObject) (b : BlockStmt)
  : Loader * Graph * Diagnostics * list NodeObject :=
  let '(l, g, diags, nodeMap) := st in
  let '(o, newConfigNodeDiags) := NewConfigNode env b in
  let '(node, s) := new o (store l) in
  let l := setStore s l in
  let diags := diags ++ newConfigNodeDiags in
  match GetByID g (nodeID o) with
  | Some _ =>
      (l, g,
       diags ++ [diagAt (quoted (nodeID o) +:+ " block already declared at "
                           +:+ pretty (NamePos b))
                        (NamePos b) (NamePos b)],
       nodeMap)
  | None =>
      let nodeMap := nodeMap ++ [o] in
      if HasErrors diags then (l, g, diags, nodeMap)
      else (l, addNode s node g, diags, nodeMap)
  end.

Definition hasConfig (k : ConfigKind) (nodeMap : list NodeObject) : bool :=
  existsb (fun o => bool_decide (kind o = ConfigNode k)) nodeMap.

Definition addDefault (o : NodeObject) (st : Loader * Graph) : Loader * Graph :=
  let '(l, g) := st in
  let '(node, s) := new o (store l) in
  (setStore s l, addNode s node g).

Definition populateConfigBlockNodes (l : Loader) (args : gmap string Value)
    (g : Graph) (configBlocks : list BlockStmt) (inModule : bool)
  : Loader * Graph * Diagnostics :=
  let '(l, g, diags, nodeMap) :=
    fold_left populateConfigBlock configBlocks (l, g, [], []) in
  let diags := diags ++ validateConfigNodes env nodeMap inModule args in
  let '(l, g) :=
    if negb (hasConfig LoggingConfig nodeMap) && negb inModule
    then addDefault NewDefaultLoggingConfigNode (l, g) else (l, g) in
  let '(l, g) :=
    if negb (hasConfig TracingConfig nodeMap) && negb inModule
    then addDefault NewDefaulTracingConfigNode (l, g) else (l, g) in
  (l, g, diags).

(** [l.MergeSubgraph(new, subgraph)]. *)
Definition mergeNode (st : Loader * Graph) (node : Node) : Loader * Graph :=
  let '(l, new) := st in
  let s := store l in
  match GetByID (graph l) (NodeID s node) with
  | Some existingComponent =>
      if hasKind isComponentNode s existingComponent
         && hasKind isComponentNode s node then
        let s := update existingComponent (UpdateBlock (Block s node)) s in
        (setStore s l, addNode s existingComponent new)
      else (l, addNode s node new)
  | None => (l, addNode s node new)
  end.

Definition MergeSubgraph (l : Loader) (new subgraph : Graph) : Loader * Graph :=
  let '(l, new) := fold_left mergeNode (Nodes subgraph) (l, new) in
  (l, MergeEdges subgraph new).

(** [l.populateComponentNodes(g, componentBlocks, nt)], one block. *)
Record populating := MkPopulating {
  pLoader : Loader;
  pGraph : Graph;
  blockMap : gmap string BlockStmt;
  pDiags : Diagnostics
}.

(** The [ComponentNode] the previous graph holds under an ID, if any:
    [exist := l.graph.GetByID(id)], asserted to be a component node. *)
Definition existingComponent (l : Loader) (id : string) : option Node :=
  match GetByID (graph l) id with
  | Some c => if hasKind isComponentNode (store l) c then Some c else None
  | None => None
  end.

Definition connectArguments (s : Store) (id : string) (declareComponentNode : Node)
    (g : Graph) (n : Node) : Graph :=
  if bool_decide (Namespace s n = id) && hasKind isArgumentConfigNode s n
  then AddEdge (n, declareComponentNode) g else g.

Definition populateComponentNode (graphTemplates : gmap string Graph)
    (st : populating) (b : BlockStmt) : populating :=
  let '(MkPopulating l g blockMap diags) := st in
  let id := BlockComponentID b in
  match blockMap !! id with
  | Some orig =>
      MkPopulating l g blockMap
        (diags ++ [diagAt ("Component " +:+ id +:+ " already declared at "
                             +:+ pretty (NamePos orig))
                          (NamePos b) (NamePos b + String.length id - 1)])
  | None =>
      let blockMap := <[id := b]> blockMap in
      match existingComponent l id with
      | Some c =>
          let s := update c (UpdateBlock (Some b)) (store l) in
          MkPopulating (setStore s l) (addNode s c g) blockMap diags
      | None =>
          let componentName := GetBlockName b in
          if decide (Label b = "") then
            MkPopulating l g blockMap
              (diags ++ [diagAt ("Component " +:+ quoted componentName
                                   +:+ " must have a label")
                                (NamePos b)
                                (NamePos b + String.length componentName - 1)])
          else
            match graphTemplates !! componentName with
            | Some template =>
                let '(clonedGraph, s) := DeepClone template id (store l) in
                let '(l, g) := MergeSubgraph (setStore s l) g clonedGraph in
                let '(declareComponentNode, s) :=
                  new (NewDeclareComponentNode b) (store l) in
                let g := addNode s declareComponentNode g in
                let g := fold_left (connectArguments s id declareComponentNode)
                                   (Nodes clonedGraph) g in
                MkPopulating (setStore s l) g blockMap diags
            | None =>
                match componentRegGet env componentName with
                | None =>
                    MkPopulating l g blockMap
                      (diags ++ [diagAt ("Unrecognized component name "
                                           +:+ quoted componentName)
                                        (NamePos b)
                                        (NamePos b + String.length componentName - 1)])
                | Some registration =>
                    let '(node, s) :=
                      new (NewComponentNode registration b) (store l) in
                    MkPopulating (setStore s l) (addNode s node g) blockMap diags
                end
            end
      end
  end.

Definition populateComponentNodes (l : Loader) (g : Graph)
    (componentBlocks : list BlockStmt) (nt : nodeTemplates)
  : Loader * Graph * Diagnostics :=
  let '(graphTemplates, err) := RetrieveAvailableTemplates nt in
  let '(graphTemplates, diags) :=
    match err with
    | Some msg => ((∅ : gmap string Graph), [errorMsg msg])
    | None => (graphTemplates, [])
    end in
  let st := fold_left (populateComponentNode graphTemplates) componentBlocks
                      (MkPopulating l g ∅ diags) in
  (pLoader st, pGraph st, pDiags st).

(** [l.wireGraphEdges(g)], one node. *)
Definition wireService (s : Store) (n : Node) (st : Graph * Diagnostics)
    (depName : string) : Graph * Diagnostics :=
  let '(g, diags) := st in
  match GetByID g depName with
  | None =>
      (g, diags ++ [errorMsg ("service " +:+ quoted (NodeID s n)
                                +:+ " has invalid reference to service "
                                +:+ quoted depName)])
  | Some dep => (AddEdge (n, dep) g, diags)
  end.

Definition wireNode (s : Store) (st : Graph * Diagnostics) (n : Node)
  : Graph * Diagnostics :=
  let '(g, diags) := st in
  match objects s !! n with
  | None => (g, diags)
  | Some o =>
      if decide (namespace o = "") then
        let '(g, diags) :=
          match kind o with
          | ServiceNode DependsOn => fold_left (wireService s n) DependsOn (g, diags)
          | _ => (g, diags)
          end in
        let '(refs, nodeDiags) := ComponentReferences env o (nodeByID g) in
        (fold_left (fun g target => AddEdge (n, target) g) refs g,
         diags ++ nodeDiags)
      else (g, diags)
  end.

Definition wireGraphEdges (l : Loader) (g : Graph) : Graph * Diagnostics :=
  fold_left (wireNode (store l)) (Nodes g) (g, []).

(** [multierrToDiags]. *)
Definition multierrToDiags (errors : list string) : Diagnostics :=
  errorMsg <$> errors.

(** [l.populateDeclareBlockNodes(g, declareBlocks, nt)], with the
    recursive call to [loadNewGraph] as a parameter. *)
Definition populateDeclareBlock
    (loadNewGraph : Loader -> list BlockStmt -> list BlockStmt -> list BlockStmt ->
                    nodeTemplates -> option (Loader * Graph * Diagnostics))
    (st : option (Loader * nodeTemplates * Diagnostics)) (b : BlockStmt)
  : option (Loader * nodeTemplates * Diagnostics) :=
  match st with
  | None => None
  | Some (l, nt, diags) =>
      match CategorizeStatements (Body b) with
      | inr err => Some (l, nt, diags ++ [err])
      | inl (components, configs, declares) =>
          match loadNewGraph l components configs declares nt with
          | None => None
          | Some (l, templateGraph, ds) =>
              match ds with
              | _ :: _ => Some (l, nt, diags ++ ds)
              | [] => Some (l, AddTemplate (Label b) templateGraph nt, diags)
              end
          end
      end
  end.

(** [l.loadNewGraph(...)] up to and including the wiring of the edges,
    with the recursive call for the bodies of declare blocks as a
    parameter. *)
Definition wireNewGraph
    (loadNewGraph : Loader -> list BlockStmt -> list BlockStmt -> list BlockStmt ->
                    nodeTemplates -> option (Loader * Graph * Diagnostics))
    (l : Loader) (args : gmap string Value)
    (componentBlocks configBlocks declareBlocks : list BlockStmt)
    (inModule inDeclare : bool) (parent : option nodeTemplates)
  : option (Loader * Graph * Diagnostics) :=
  let g := emptyGraph in
  let nt := NewNodeTemplates parent in
  let '(componentBlocks, serviceBlocks) := splitComponentBlocks componentBlocks in
  let '(l, g, diags) :=
    if inDeclare then (l, g, []) else populateServiceNodes l g serviceBlocks in
  let '(l, g, configBlockDiags) :=
    populateConfigBlockNodes l args g configBlocks inModule in
  let diags := diags ++ configBlockDiags in
  match declare.SortDeclareBlocks declareBlocks with
  | None => None
  | Some (sortedDeclaredBlocks, sortDeclareBlockDiags) =>
      let diags := diags ++ sortDeclareBlockDiags in
      match fold_left (populateDeclareBlock loadNewGraph)
                      sortedDeclaredBlocks (Some (l, nt, [])) with
      | None => None
      | Some (l, nt, declareBlockDiags) =>
          let diags := diags ++ declareBlockDiags in
          let '(l, g, componentNodeDiags) :=
            populateComponentNodes l g componentBlocks nt in
          let diags := diags ++ componentNodeDiags in
          let '(g, wireDiags) := wireGraphEdges l g in
          Some (l, g, diags ++ wireDiags)
      end
  end.

(** The end of [l.loadNewGraph(...)]: validation, the copy kept as the
    original graph, and the transitive reduction. *)
Definition validateAndReduce (l : Loader) (g : Graph) (diags : Diagnostics)
  : Loader * Graph * Diagnostics :=
  match Validate (NodeID (store l)) g with
  | (_ :: _) as err => (l, g, diags ++ multierrToDiags err)
  | [] => (setOriginalGraph (Clone g) l, Reduce g, diags)
  end.

(** [l.loadNewGraph(args, componentBlocks, configBlocks, declareBlocks,
    inModule, inDeclare, parent)].  [fuel] bounds the nesting of declare
    blocks; [None] when it does not suffice. *)
Fixpoint loadNewGraph (fuel : nat) (l : Loader) (args : gmap string Value)
    (componentBlocks configBlocks declareBlocks : list BlockStmt)
    (inModule inDeclare : bool) (parent : option nodeTemplates)
  : option (Loader * Graph * Diagnostics) :=
  match fuel with
  | O => None
  | S fuel =>
      match wireNewGraph
              (fun l components configs declares nt =>
                 loadNewGraph fuel l ∅ components configs declares
                              true true (Some nt))
              l args componentBlocks configBlocks declareBlocks
              inModule inDeclare parent with
      | None => None
      | Some (l, g, diags) => Some (validateAndReduce l g diags)
      end
  end.
End Loader.
End loader.

(** ** [Apply]: full evaluation and installation of a new graph *)
Module apply.
Export loader.

(** The deepest nesting of blocks in a block: a bound on the recursion of
    [loadNewGraph] through the bodies of declare blocks. *)
Fixpoint blockDepth (b : BlockStmt) : nat :=
  match b with
  | MkBlockStmt _ _ _ body =>
      S ((fix each (stmts : list Stmt) : nat :=
            match stmts with
            | [] => 0
            | BlockStmtS c :: rest => Nat.max (blockDepth c) (each rest)
            | AttributeStmt _ _ :: rest => each rest
            end) body)
  end.

Definition blocksDepth (bs : list BlockStmt) : nat :=
  fold_right Nat.max 0 (blockDepth <$> bs).

(** The part of a node ID after its last dot:
    [parts := strings.Split(id, "."); parts[len(parts)-1]]. *)
Fixpoint lastPart (s acc : string) : string :=
  match s with
  | EmptyString => acc
  | String c rest =>
      if Ascii.eqb c "." then lastPart rest "" else lastPart rest (acc +:+ String c "")
  end.

(** [l.postEvaluate(logger, bn, err)] on the cache; the error comes back
    as the function returns it. *)
Definition postEvaluate (o : NodeObject) (err : option EvalError) (c : valueCache)
  : valueCache * option EvalError :=
  let c := CacheNamespace (nodeID o) (namespace o) c in
  match kind o with
  | DeclareComponentNode => (CacheDeclare (nodeID o) (declareArguments o) c, None)
  | ComponentNode _ =>
      (CacheExports (nodeID o) (exports o) (CacheArguments (nodeID o) (arguments o) c),
       err)
  | ConfigNode ArgumentConfig =>
      let c :=
        match declareValues c !! namespace o with
        | Some namespaceArgs =>
            let lbl := lastPart (nodeID o) "" in
            match namespaceArgs !! lbl with
            | Some _ => c
            | None =>
                if optional o then
                  CacheDeclare (namespace o) (<[lbl := default_ o]> namespaceArgs) c
                else c
            end
        | None => c
        end in
      let c :=
        match moduleArguments c !! label o with
        | Some _ => c
        | None => if optional o then CacheModuleArgument (label o) (default_ o) c else c
        end in
      (c, err)
  | _ => (c, err)
  end.

Section Apply.
Context `{MapRange}.
Variable env : Collaborators.

(** [l.evaluate(logger, bn)]: the node is evaluated against the cache
    and the caches are updated. *)
Definition evaluate (l : Loader) (n : Node) (o : NodeObject)
  : Loader * option EvalError :=
  let e := Evaluate env o (cache l) in
  let o := evaluatedObject o e in
  let l := setStore (update n (fun _ => o) (store l)) l in
  let l := logEvaluated (nodeID o) l in
  let '(c, err) := postEvaluate o (evalError e) (cache l) in
  (setCache c l, err).

(** What the walk of [Apply] accumulates. *)
Record walking := MkWalking {
  wLoader : Loader;
  wDiags : Diagnostics;
  components : list Node;
  componentIDs : list string;
  wServices : list Node;
  declareIDs : list string;
  exportIDs : list string;
  namespaces : list string
}.

(** [err.Error()]. *)
Definition errorText (err : EvalError) : string :=
  match err with
  | DiagnosticsError evalDiags => Join (Message <$> evalDiags) "; "
  | OtherError msg => msg
  end.

(** The diagnostics a failed evaluation adds: the diagnostics the error
    wraps ([errors.As]) where [Apply] unwraps them, else one diagnostic
    at the node's block. *)
Definition failure (prefix : string) (o : NodeObject) (err : EvalError)
    (unwrap : bool) : Diagnostics :=
  match err, unwrap with
  | DiagnosticsError evalDiags, true => evalDiags
  | _, _ =>
      [MkDiagnostic SeverityLevelError (prefix +:+ errorText err)
                    (NamePos <$> block o) (NamePos <$> block o)]
  end.

Definition failures (prefix : string) (o : NodeObject) (err : option EvalError)
    (unwrap : bool) : Diagnostics :=
  match err with
  | Some e => failure prefix o e unwrap
  | None => []
  end.

(** The function [Apply] hands to [WalkTopological]. *)
Definition evaluateNode (w : walking) (n : Node) : walking :=
  let '(MkWalking l diags components componentIDs services declareIDs exportIDs
                  namespaces) := w in
  match objects (store l) !! n with
  | None => w
  | Some o =>
      let namespaces := namespaces ++ [nodeID o] in
      let '(l, err) := evaluate l n o in
      match kind o with
      | ComponentNode _ =>
          MkWalking l (diags ++ failures "Failed to build component: " o err true)
                    (components ++ [n]) (componentIDs ++ [nodeID o]) services
                    declareIDs exportIDs namespaces
      | ServiceNode _ =>
          MkWalking l (diags ++ failures "Failed to evaluate service: " o err true)
                    components componentIDs (services ++ [n])
                    declareIDs exportIDs namespaces
      | DeclareComponentNode =>
          MkWalking l
                    (diags ++ failures "Failed to evaluate declare component node: "
                                       o err true)
                    components componentIDs services
                    (declareIDs ++ [nodeID o]) exportIDs namespaces
      | ConfigNode k =>
          let diags :=
            diags ++ failures "Failed to evaluate node for config block: " o err false in
          match k with
          | ExportConfig =>
              let v := match objects (store l) !! n with
                       | Some o' => value o'
                       | None => value o
                       end in
              let c := CacheModuleExportValue (label o) v
                         (CacheDeclareExport (nodeID o) v (cache l)) in
              MkWalking (setCache c l) diags components componentIDs services
                        declareIDs (exportIDs ++ [nodeID o]) namespaces
          | _ =>
              MkWalking l diags components componentIDs services
                        declareIDs exportIDs namespaces
          end
      end
  end.

(** The tail of [Apply]: the parent is told when the export index moved. *)
Definition notifyParent (l : Loader) : Loader :=
  if OnExportsChange env
     && negb (bool_decide (ExportChangeIndex (cache l) = moduleExportIndex l)) then
    notify (CreateModuleExports (cache l))
           (setModuleExportIndex (ExportChangeIndex (cache l)) l)
  else l.

(** The first statements of [Apply]: the module arguments go into the
    cache. *)
Definition cacheModuleArguments (l : Loader) (args : gmap string Value) : Loader :=
  let c := fold_left (fun c '(key, v) => CacheModuleArgument key v c)
                     (range args) (cache l) in
  setCache (SyncModuleArgs args c) l.

(** [l.Apply(args, componentBlocks, configBlocks, declareBlocks)]: the
    diagnostics returned and the Loader afterwards. *)
Definition Apply (l : Loader) (args : gmap string Value)
    (componentBlocks configBlocks declareBlocks : list BlockStmt)
  : option (Diagnostics * Loader) :=
  let l := cacheModuleArguments l args in
  match loadNewGraph env (S (blocksDepth declareBlocks)) l args
                     componentBlocks configBlocks declareBlocks
                     (isModule env) false None with
  | None => None
  | Some (l, newGraph, diags) =>
      if HasErrors diags then Some (diags, l)
      else
        let l := setCache (ClearModuleExports (cache l)) l in
        let w := fold_left evaluateNode
                           (WalkTopological newGraph (Leaves newGraph))
                           (MkWalking l diags [] [] [] [] [] []) in
        let l := install newGraph (components w) (wServices w) componentBlocks
                         (wLoader w) in
        let c := SyncNamespaces (namespaces w)
                   (SyncDeclareExportIDs (exportIDs w)
                      (SyncDeclareIDs (declareIDs w)
                         (SyncIDs (componentIDs w) (cache l)))) in
        Some (wDiags w, notifyParent (setCache c l))
  end.

(** The graph [Apply] has wired when it comes to validate it. *)
Definition wiredGraph (l : Loader) (args : gmap string Value)
    (componentBlocks configBlocks declareBlocks : list BlockStmt)
  : option (Loader * Graph * Diagnostics) :=
  wireNewGraph env
    (fun l components configs declares nt =>
       loadNewGraph env (blocksDepth declareBlocks) l ∅ components configs declares
                    true true (Some nt))
    (cacheModuleArguments l args) args componentBlocks configBlocks declareBlocks
    (isModule env) false None.

(** [l.Components()], [l.Services()], [l.Graph()], [l.OriginalGraph()]. *)
Definition Components (l : Loader) : list Node := componentNodes l.
Definition Services (l : Loader) : list Node := serviceNodes l.
Definition Graph_ (l : Loader) : Graph := Clone (graph l).
Definition OriginalGraph (l : Loader) : Graph := Clone (originalGraph l).
End Apply.
End apply.

(** ** [EvaluateDependencies]: submitting dependants to the worker pool *)
Module scheduling.
Export apply.

(** *** The retry helper (package [backoff] of dskit), as the Loader uses it

    Durations are in nanoseconds. *)
Record Config := MkConfig {
  MinBackoff : Z;
  MaxBackoff : Z;
  MaxRetries : nat
}.

Record Backoff := MkBackoff {
  cfg : Config;
  numRetries : nat;
  nextDelayMin : Z;
  nextDelayMax : Z
}.

Definition doubleDuration (v max : Z) : Z :=
  if (2 * v <=? max)%Z then (2 * v)%Z else max.

(** [backoff.New(ctx, cfg)]. *)
Definition New (c : Config) : Backoff :=
  MkBackoff c 0 (MinBackoff c) (doubleDuration (MinBackoff c) (MaxBackoff c)).

Definition NumRetries (b : Backoff) : nat := numRetries b.

(** [b.NextDelay()], given the number [r] the random source yields:
    [rand.Int63n(n)] is [r mod n]. *)
Definition NextDelay (b : Backoff) (r : Z) : Z * Backoff :=
  let n := S (numRetries b) in
  if (nextDelayMax b <=? nextDelayMin b)%Z then
    (nextDelayMin b, MkBackoff (cfg b) n (nextDelayMin b) (nextDelayMax b))
  else
    let sleepTime := (nextDelayMin b + r mod (nextDelayMax b - nextDelayMin b))%Z in
    if (nextDelayMax b <? MaxBackoff (cfg b))%Z then
      (sleepTime,
       MkBackoff (cfg b) n
                 (doubleDuration (nextDelayMin b) (MaxBackoff (cfg b)))
                 (doubleDuration (nextDelayMax b) (MaxBackoff (cfg b))))
    else (sleepTime, MkBackoff (cfg b) n (nextDelayMin b) (nextDelayMax b)).

(** The configuration [NewLoader] installs: 1ms to 10s, no retry limit. *)
Definition backoffConfig : Config := MkConfig 1000000 10000000000 0.

(** *** What lies outside the Loader

    The caller's context, the worker pool and the random source are
    consulted one call after the other; each answers its [k]-th call. *)
Record Outside := MkOutside {
  contextDone : nat -> bool;
  queueFull : nat -> bool;
  random : nat -> Z
}.

(** One line of the error log. *)
Record Retry := MkRetry {
  node_id : string;
  originator_id : string;
  retries : nat
}.

(** What a span records about one dependant. *)
Record Span := MkSpan {
  spanNode : string;
  spanRetries : nat;
  spanOk : bool
}.

(** The calls made so far and what they left behind: the tasks the pool
    accepted (key, node, originator), the error log, the delays slept and
    the spans closed. *)
Record Progress := MkProgress {
  consulted : nat;
  submissions : nat;
  drawn : nat;
  accepted : list (string * Node * Node);
  errorLog : list Retry;
  slept : list Z;
  spans : list Span
}.

Definition noProgress : Progress := MkProgress 0 0 0 [] [] [] [].

Section Scheduling.
Variable out : Outside.

(** [b.Ongoing()]: the context is consulted first. *)
Definition Ongoing (p : Progress) (b : Backoff) : bool * Progress :=
  (negb (contextDone out (consulted p))
   && (bool_decide (MaxRetries (cfg b) = 0)
       || bool_decide (numRetries b < MaxRetries (cfg b))),
   MkProgress (S (consulted p)) (submissions p) (drawn p) (accepted p)
              (errorLog p) (slept p) (spans p)).

(** [b.Wait()]: the next delay is computed, and slept unless the backoff
    is over. *)
Definition Wait (p : Progress) (b : Backoff) : Progress * Backoff :=
  let '(sleepTime, b) := NextDelay b (random out (drawn p)) in
  let p := MkProgress (consulted p) (submissions p) (S (drawn p)) (accepted p)
                      (errorLog p) (slept p) (spans p) in
  let '(ongoing, p) := Ongoing p b in
  (if ongoing then
     MkProgress (consulted p) (submissions p) (drawn p) (accepted p)
                (errorLog p) (slept p ++ [sleepTime]) (spans p)
   else p, b).

(** [l.workerPool.SubmitWithKey(key, fn)]: [true] when the task is
    refused because the queue is full. *)
Definition SubmitWithKey (p : Progress) (key : string) (n parent : Node)
  : bool * Progress :=
  let full := queueFull out (submissions p) in
  (full,
   MkProgress (consulted p) (S (submissions p)) (drawn p)
              (if full then accepted p else accepted p ++ [(key, n, parent)])
              (errorLog p) (slept p) (spans p)).

Definition logRetry (r : Retry) (p : Progress) : Progress :=
  MkProgress (consulted p) (submissions p) (drawn p) (accepted p)
             (errorLog p ++ [r]) (slept p) (spans p).

Definition endSpan (sp : Span) (p : Progress) : Progress :=
  MkProgress (consulted p) (submissions p) (drawn p) (accepted p)
             (errorLog p) (slept p) (spans p ++ [sp]).

(** The loop [for retryBackoff.Ongoing() { ... }] for one dependant.
    [err] is the error of the last submission ([true] for non-nil);
    [None] when the loop takes more than [fuel] rounds. *)
Fixpoint retryLoop (fuel : nat) (s : Store) (p : Progress) (b : Backoff)
    (n parent : Node) (err : bool) : option (Progress * Backoff * bool) :=
  match fuel with
  | O => None
  | S fuel =>
      let '(ongoing, p) := Ongoing p b in
      if ongoing then
        let '(err, p) := SubmitWithKey p (NodeID s n) n parent in
        if err then
          let p := logRetry (MkRetry (NodeID s n) (NodeID s parent) (NumRetries b)) p in
          let '(p, b) := Wait p b in
          retryLoop fuel s p b n parent err
        else Some (p, b, err)
      else Some (p, b, err)
  end.

(** The body of the loop over [dependenciesToParentsMap]. *)
Definition submitDependant (fuel : nat) (s : Store) (st : option Progress)
    (entry : Node * Node) : option Progress :=
  match st with
  | None => None
  | Some p =>
      let '(n, parent) := entry in
      match retryLoop fuel s p (New backoffConfig) n parent false with
      | None => None
      | Some (p, retryBackoff, err) =>
          Some (endSpan (MkSpan (NodeID s n) (NumRetries retryBackoff) (negb err)) p)
      end
  end.

Context `{MapRange}.

(** The first loop of [EvaluateDependencies]: the exports of every
    updated node are cached and the nodes with an edge to it in
    [l.graph] are collected, each with the node it was reached from. *)
Definition collectDependant (parent : Node)
    (dependenciesToParentsMap : gmap Node Node) (n : Node) : gmap Node Node :=
  <[n := parent]> dependenciesToParentsMap.

Definition collect (st : Loader * gmap Node Node) (parent : Node)
  : Loader * gmap Node Node :=
  let '(l, dependenciesToParentsMap) := st in
  let c := match objects (store l) !! parent with
           | Some o => CacheExports (nodeID o) (exports o) (cache l)
           | None => cache l
           end in
  (setCache c l,
   fold_left (collectDependant parent) (WalkIncomingNodes (graph l) parent)
             dependenciesToParentsMap).

Definition dependenciesToParents (l : Loader) (updatedNodes : list Node)
  : Loader * gmap Node Node :=
  fold_left collect updatedNodes (l, ∅).

(** [l.EvaluateDependencies(ctx, updatedNodes)]. *)
Definition EvaluateDependencies (fuel : nat) (l : Loader) (p : Progress)
    (updatedNodes : list Node) : option (Loader * Progress) :=
  match updatedNodes with
  | [] => Some (l, p)
  | _ =>
      let '(l, dependenciesToParentsMap) := dependenciesToParents l updatedNodes in
      match fold_left (submitDependant fuel (store l))
                      (range dependenciesToParentsMap) (Some p) with
      | None => None
      | Some p => Some (l, p)
      end
  end.
End Scheduling.
End scheduling.

(** ** Vocabulary for the properties of the submission loop *)
Module scheduling_spec.
Import scheduling.





(** A pool that takes every task at once. *)
Definition eagerPool : Outside :=
  MkOutside (fun _ => false) (fun _ => false) (fun _ => 0%Z).

End scheduling_spec.

(** ** [concurrentEvalFn] and [Apply] under the Loader's lock

    Evaluations run on the workers of the pool while [Apply] may run as
    well; they share the cache's export-change index, the Loader's
    [moduleExportIndex] and the reader/writer lock [l.mut].  Each task is
    followed through the points at which it touches them. *)
Module concurrent.

(** Where a task stands.  A run of [concurrentEvalFn]: the node is being
    evaluated, no lock held; the read lock is held and the caches are about
    to be updated; the caches are updated and the condition is about to be
    tested; the read lock is released and the write lock awaited; the write
    lock is held and the condition about to be tested again; the callback
    has been called and the index is about to be recorded; the deferred
    unlock is left to do.  A run of [Apply]: before the lock; holding it
    and evaluating; the new graph installed, the deferred unlock left. *)
Inductive Point :=
| Evaluating
| ReadLocked
| Cached
| Upgrading
| WriteLocked
| Notified
| Unlocking
| ApplyWaiting
| ApplyEvaluating
| ApplyUnlocking
| Finished.

(** [sync.RWMutex] with the indices and the export-change versions the
    parent callback was called for, in order. *)
Record Shared := MkShared {
  readers : nat;
  writer : bool;
  exportChangeIndex : Z;
  moduleExportIndex : Z;
  notifiedVersions : list Z
}.

Definition holdsRead (p : Point) : bool :=
  match p with ReadLocked | Cached => true | _ => false end.
Definition holdsWrite (p : Point) : bool :=
  match p with
  | WriteLocked | Notified | Unlocking | ApplyEvaluating | ApplyUnlocking => true
  | _ => false
  end.

Definition notifying (p : Point) : bool :=
  match p with Notified => true | _ => false end.

(** The callback is set ([l.globals.OnExportsChange != nil]) and the
    cache's index differs from the last one notified. *)
Definition stale (onExportsChange : bool) (s : Shared) : bool :=
  onExportsChange && negb (bool_decide (exportChangeIndex s = moduleExportIndex s)).

(** One step of one task.  [RLock] waits until no writer holds the lock,
    [Lock] until nobody does.  The cache's index moves only where the
    exports of a module are cached ([CacheModuleExportValue], which adds
    one when the value differs): after an evaluation, under the read lock,
    and during [Apply], under the write lock. *)
Inductive taskStep (onExportsChange : bool) : Shared -> Point -> Shared -> Point -> Prop :=
| RLock s :
    writer s = false ->
    taskStep onExportsChange s Evaluating
      (MkShared (S (readers s)) (writer s) (exportChangeIndex s) (moduleExportIndex s)
                (notifiedVersions s))
      ReadLocked
| cacheExports s (changed : bool) :
    taskStep onExportsChange s ReadLocked
      (MkShared (readers s) (writer s)
                (if changed then exportChangeIndex s + 1 else exportChangeIndex s)%Z
                (moduleExportIndex s) (notifiedVersions s))
      Cached
| RUnlock_upgrade s :
    stale onExportsChange s = true ->
    taskStep onExportsChange s Cached
      (MkShared (pred (readers s)) (writer s) (exportChangeIndex s) (moduleExportIndex s)
                (notifiedVersions s))
      Upgrading
| RUnlock_done s :
    stale onExportsChange s = false ->
    taskStep onExportsChange s Cached
      (MkShared (pred (readers s)) (writer s) (exportChangeIndex s) (moduleExportIndex s)
                (notifiedVersions s))
      Finished
| Lock s :
    readers s = 0 -> writer s = false ->
    taskStep onExportsChange s Upgrading
      (MkShared (readers s) true (exportChangeIndex s) (moduleExportIndex s)
                (notifiedVersions s))
      WriteLocked
| recheck_notify s :
    exportChangeIndex s ≠ moduleExportIndex s ->
    taskStep onExportsChange s WriteLocked
      (MkShared (readers s) (writer s) (exportChangeIndex s) (moduleExportIndex s)
                (notifiedVersions s ++ [exportChangeIndex s]))
      Notified
| recheck_skip s :
    exportChangeIndex s = moduleExportIndex s ->
    taskStep onExportsChange s WriteLocked s Unlocking
| recordIndex s :
    taskStep onExportsChange s Notified
      (MkShared (readers s) (writer s) (exportChangeIndex s) (exportChangeIndex s)
                (notifiedVersions s))
      Unlocking
| Unlock s :
    taskStep onExportsChange s Unlocking
      (MkShared (readers s) false (exportChangeIndex s) (moduleExportIndex s)
                (notifiedVersions s))
      Finished
| ApplyLock s :
    readers s = 0 -> writer s = false ->
    taskStep onExportsChange s ApplyWaiting
      (MkShared (readers s) true (exportChangeIndex s) (moduleExportIndex s)
                (notifiedVersions s))
      ApplyEvaluating
| ApplyEvaluate s (changed : bool) :
    taskStep onExportsChange s ApplyEvaluating
      (MkShared (readers s) (writer s)
                (if changed then exportChangeIndex s + 1 else exportChangeIndex s)%Z
                (moduleExportIndex s) (notifiedVersions s))
      ApplyEvaluating
| ApplyNotify s :
    stale onExportsChange s = true ->
    taskStep onExportsChange s ApplyEvaluating
      (MkShared (readers s) (writer s) (exportChangeIndex s) (exportChangeIndex s)
                (notifiedVersions s ++ [exportChangeIndex s]))
      ApplyUnlocking
| ApplyReturn s :
    taskStep onExportsChange s ApplyEvaluating s ApplyUnlocking
| ApplyUnlock s :
    taskStep onExportsChange s ApplyUnlocking
      (MkShared (readers s) false (exportChangeIndex s) (moduleExportIndex s)
                (notifiedVersions s))
      Finished.

(** The tasks interleave: any one of them takes the next step. *)
Inductive step (onExportsChange : bool)
  : Shared * list Point -> Shared * list Point -> Prop :=
| step_task s tasks i p s' p' :
    tasks !! i = Some p ->
    taskStep onExportsChange s p s' p' ->
    step onExportsChange (s, tasks) (s', <[i := p']> tasks).

(** Nobody holds the lock and every task is about to start. *)
Definition initial (st : Shared * list Point) : Prop :=
  readers st.1 = 0 /\ writer st.1 = false /\ notifiedVersions st.1 = [] /\
  Forall (fun p => p = Evaluating \/ p = ApplyWaiting) st.2.

Definition reachable (onExportsChange : bool) (st : Shared * list Point) : Prop :=
  exists st0, initial st0 /\ rtc (step onExportsChange) st0 st.

(** What holds of every reachable state: the lock counts its holders, a
    writer excludes readers, the versions notified grow and none is ahead
    of the cache's index; the last of them is the index recorded, or the
    current one while a task stands between the callback and recording
    it. *)
Definition count (f : Point -> bool) (tasks : list Point) : nat :=
  length (filter (fun p => f p = true) tasks).

Definition quiet (p : Point) : bool := holdsWrite p && negb (notifying p).

Record invariant (st : Shared * list Point) : Prop := {
  inv_readers : readers st.1 = count holdsRead st.2;
  inv_writer : count holdsWrite st.2 = if writer st.1 then 1 else 0;
  inv_exclusive : writer st.1 = true -> readers st.1 = 0;
  inv_below : Forall (fun v => (v <= exportChangeIndex st.1)%Z) (notifiedVersions st.1);
  inv_increasing : StronglySorted Z.lt (notifiedVersions st.1);
  inv_last : forall v,
    last (notifiedVersions st.1) = Some v ->
    v = if decide (count notifying st.2 = 0) then moduleExportIndex st.1
        else exportChangeIndex st.1
}.

(** Two evaluations that race for the write lock after one export
    changed, and an [Apply] besides; and where they stand after both
    evaluations ran to their end. *)
Definition racing : Shared * list Point :=
  (MkShared 0 false 0 0 [], [Evaluating; Evaluating; ApplyWaiting]).
Definition raced : Shared * list Point :=
  (MkShared 0 false 1 1 [1%Z], [Finished; Finished; ApplyWaiting]).

End concurrent.

(** ** A sample configuration *)
Module examples.
Export apply.

(** References of a block: the paths its attributes mention, nested
    blocks included. *)
Fixpoint traversals (b : BlockStmt) : list (list string) :=
  match b with
  | MkBlockStmt _ _ _ body =>
      (fix each (stmts : list Stmt) : list (list string) :=
         match stmts with
         | [] => []
         | AttributeStmt _ v :: rest => v ++ each rest
         | BlockStmtS c :: rest => traversals c ++ each rest
         end) body
  end.

(** A path names the node whose ID is its shortest prefix present in the
    graph. *)
Fixpoint resolveTraversal (nodeByID : gmap string Node) (partial : string)
    (rem : list string) : option Node :=
  match nodeByID !! partial with
  | Some n => Some n
  | None =>
      match rem with
      | [] => None
      | x :: rem => resolveTraversal nodeByID (partial +:+ "." +:+ x) rem
      end
  end.

Definition resolve (nodeByID : gmap string Node) (t : list string)
  : list Node * Diagnostics :=
  match t with
  | [] => ([], [])
  | x :: rem =>
      match resolveTraversal nodeByID x rem with
      | Some n => ([n], [])
      | None =>
          ([], [errorMsg ("component " +:+ quoted (Join t ".")
                            +:+ " does not exist or is out of scope")])
      end
  end.

Definition sampleReferences (o : NodeObject) (nodeByID : gmap string Node)
  : list Node * Diagnostics :=
  match block o with
  | None => ([], [])
  | Some b =>
      fold_left (fun '(refs, diags) t =>
                   let '(r, d) := resolve nodeByID t in (refs ++ r, diags ++ d))
                (traversals b) ([], [])
  end.

(** A registry that knows the single component [testcomponents.passthrough],
    no services, no parent module, evaluation that always succeeds. *)
Definition sampleEnv : Collaborators :=
  MkCollaborators "" false []
    (fun name => if decide (name = "testcomponents.passthrough")
                 then Some name else None)
    (fun o _ => MkEvaluation 0%Z ∅ 0%Z 0%Z None)
    (fun b => (newNode (ConfigNode LoggingConfig) (BlockComponentID b) ""
                       (Some b) (Label b), []))
    (fun _ _ _ => [])
    sampleReferences.

(** [testcomponents.passthrough "a" { }], a [b] that reads [a], and a [c]
    that reads both [b] and [a]. *)
Definition passthrough (lbl : string) (pos : nat) (reads : list string) : BlockStmt :=
  MkBlockStmt ["testcomponents"; "passthrough"] lbl pos
    [AttributeStmt "input"
       ((fun r => ["testcomponents"; "passthrough"; r; "output"]) <$> reads)].
Definition blockA : BlockStmt := passthrough "a" 1 [].
Definition blockB : BlockStmt := passthrough "b" 2 ["a"].
Definition blockC : BlockStmt := passthrough "c" 3 ["b"; "a"].

(** A block of a type the registry does not know. *)
Definition blockUnknown : BlockStmt := MkBlockStmt ["no"; "such"] "x" 4 [].

(** Two components that read each other. *)
Definition blockP : BlockStmt := passthrough "p" 5 ["q"].
Definition blockQ : BlockStmt := passthrough "q" 6 ["p"].

(** The Loader after [a], [b] and [c] were applied to a fresh one.  The
    nodes of the default logging and tracing blocks were constructed
    first. *)
Definition previous : Loader :=
  default NewLoader
          (snd <$> Apply sampleEnv NewLoader ∅ [blockA; blockB; blockC] [] []).
Definition nodeA : Node := 2.
Definition nodeB : Node := 3.
Definition nodeC : Node := 4.

(** The node object of [a] once evaluated. *)
Definition objectA : NodeObject :=
  MkNode (ComponentNode "testcomponents.passthrough") "testcomponents.passthrough.a"
         "" (Some blockA) "a" false 0%Z 0%Z ∅ 0%Z 0%Z.

(** The block of [a] after the file was edited. *)
Definition blockA' : BlockStmt := passthrough "a" 7 [].

End examples.

(** ** Vocabulary for the properties of [Apply] *)
Module apply_spec.
Export examples.

(** What of the Loader queries see is the same in [l'] as in [l]: the
    installed graph, the node lists, the blocks, the cache and the last
    notified index; and nothing was evaluated or notified in between. *)
Definition sameInstalled (l l' : Loader) : Prop :=
  graph l' = graph l /\
  componentNodes l' = componentNodes l /\
  serviceNodes l' = serviceNodes l /\
  blocks l' = blocks l /\
  cache l' = cache l /\
  moduleExportIndex l' = moduleExportIndex l /\
  evaluated l' = evaluated l /\
  notified l' = notified l.

(** Every node object lives below the next address. *)
Definition wfStore (s : Store) : Prop :=
  forall n, is_Some (objects s !! n) -> n < nextNode s.

(** From [s] to [s'] node objects were only constructed, or had their
    block replaced. *)
Definition blocksOnly (s s' : Store) : Prop :=
  nextNode s <= nextNode s' /\
  forall n o, objects s !! n = Some o ->
              exists b, objects s' !! n = Some (UpdateBlock b o).

(** From a well-formed store [s] one gets to the well-formed store [s']
    by constructing nodes and replacing blocks. *)
Definition evolves (s s' : Store) : Prop :=
  wfStore s -> wfStore s' /\ blocksOnly s s'.

(** From [l] to [l'] a graph was being built: nothing installed changed,
    and the store evolved. *)
Definition builds (l l' : Loader) : Prop :=
  sameInstalled l l' /\ evolves (store l) (store l').



(** What the loop of [populateComponentNodes] maintains about the
    component node [c] that the graph of [l] holds under [id]: once a block
    with that ID was met, [c] is in the new graph. *)
Definition reusing (l : Loader) (id : string) (c : Node) (st : populating) : Prop :=
  builds l (pLoader st) /\
  (is_Some (blockMap st !! id) -> c ∈ nodes (pGraph st)).

End apply_spec.

(** ** Vocabulary for further properties of the Loader *)
Module loader_spec.
Export apply_spec.




(** The node objects of [s'] are those of [s] up to what an evaluation
    changes: every node keeps its kind, ID, namespace, block and label. *)
Definition sameIdentity (s s' : Store) : Prop :=
  forall n,
    match objects s !! n, objects s' !! n with
    | Some o, Some o' =>
        kind o' = kind o /\ nodeID o' = nodeID o /\ namespace o' = namespace o /\
        block o' = block o /\ label o' = label o
    | None, None => True
    | _, _ => False
    end.

(** The nodes of a list that have an object. *)
Definition present (s : Store) (ns : list Node) : list Node :=
  filter (fun n => is_Some (objects s !! n)) ns.

(** The diagnostic of [Apply] for a component whose evaluation failed
    with an error that is not a collection of diagnostics. *)
Definition failedToBuild (o : NodeObject) (msg : string) : Diagnostic :=
  MkDiagnostic SeverityLevelError ("Failed to build component: " +:+ msg)
               (NamePos <$> block o) (NamePos <$> block o).

(** The updated node a dependant is submitted for: the last of the batch
    it has an edge to. *)
Definition originator (g : Graph) (updatedNodes : list Node) (n : Node) : option Node :=
  last (filter (fun parent => n ∈ WalkIncomingNodes g parent) updatedNodes).

(** The cache [c] with other cached exports. *)
Definition withExports (e : gmap string Value) (c : valueCache) : valueCache :=
  MkCache (cachedArguments c) e (cachedNamespaces c) (moduleArguments c)
          (moduleExports c) (moduleChangedIndex c) (declareValues c) (declareExports c).

(** [l'] is [l] up to the cached exports. *)
Definition onlyExports (l l' : Loader) : Prop :=
  l' = setCache (withExports (cachedExports (cache l')) (cache l)) l.

(** A string without a dot. *)
Fixpoint dotFree (s : string) : bool :=
  match s with
  | EmptyString => true
  | String c rest => negb (Ascii.eqb c ".") && dotFree rest
  end.

(** What [postEvaluate] leaves of the arguments of a namespace or module
    for an argument node: a value that was given stays, one that is
    missing takes the default when the argument is optional. *)
Definition defaulted (o : NodeObject) (lbl : string) (given : gmap string Value)
  : gmap string Value :=
  match given !! lbl with
  | Some _ => given
  | None => if optional o then <[lbl := default_ o]> given else given
  end.

(** [g'] is [g] with more edges, each from a node that satisfies [from]. *)
Definition addsEdges (from : Node -> Prop) (g g' : Graph) : Prop :=
  nodes g' = nodes g /\ nodeByID g' = nodeByID g /\
  (forall e, e ∈ edges g -> e ∈ edges g') /\
  (forall e, e ∈ edges g' -> e ∈ edges g \/ from e.1).

(** The diagnostic of [wireGraphEdges] for a service that depends on a
    service that is not in the graph. *)
Definition invalidReference (id depName : string) : Diagnostic :=
  errorMsg ("service " +:+ quoted id +:+ " has invalid reference to service "
              +:+ quoted depName).

(** The loop of [populateConfigBlockNodes] over the config blocks: the
    Loader, the graph, the diagnostics and the node map it leaves. *)
Definition configLoop `{MapRange} (env : Collaborators) (l : Loader) (g : Graph)
    (configBlocks : list BlockStmt)
  : Loader * Graph * Diagnostics * list NodeObject :=
  fold_left (populateConfigBlock env) configBlocks (l, g, [], []).

(** The diagnostic of [populateServiceNodes] for a second block that
    configures the same service. *)
Definition duplicateDefinition (b : BlockStmt) : Diagnostic :=
  diagAt ("duplicate definition of " +:+ quoted (BlockComponentID b))
         (NamePos b) (NamePos b).

(** Every node the graph knows by an ID has an object with that ID. *)
Definition consistent (s : Store) (g : Graph) : Prop :=
  forall id node,
    GetByID g id = Some node -> exists o, objects s !! node = Some o /\ nodeID o = id.

(** The order in which [Apply] visits the nodes of the new graph. *)
Definition evaluationOrder (g : Graph) : list Node := WalkTopological g (Leaves g).

End loader_spec.

(** ** Further sample inputs *)
Module more_examples.
Export examples.


(** A module: the parent callback is set, there are no services, every
    config block is an export whose value evaluates to 7. *)
Definition moduleEnv : Collaborators :=
  MkCollaborators "module" true []
    (componentRegGet sampleEnv)
    (fun o _ => MkEvaluation 0%Z ∅ 0%Z 7%Z None)
    (fun b => (newNode (ConfigNode ExportConfig) (BlockComponentID b) ""
                       (Some b) (Label b), []))
    (fun _ _ _ => [])
    sampleReferences.

Definition blockExport : BlockStmt := MkBlockStmt ["export"] "out" 9 [].

(** The sample registry, with a component [b] whose evaluation fails. *)
Definition failingEnv : Collaborators :=
  MkCollaborators "" false []
    (componentRegGet sampleEnv)
    (fun o _ =>
       MkEvaluation 0%Z ∅ 0%Z 0%Z
         (if decide (nodeID o = "testcomponents.passthrough.b")
          then Some (OtherError "boom") else None))
    (NewConfigNode sampleEnv)
    (fun _ _ _ => [])
    sampleReferences.

(** [d] reads [a] and [e], which read nothing; the Loader after the three
    were applied. *)
Definition blockE : BlockStmt := passthrough "e" 10 [].
Definition blockD : BlockStmt := passthrough "d" 11 ["a"; "e"].
Definition fanIn : Loader :=
  default NewLoader
          (snd <$> Apply sampleEnv NewLoader ∅ [blockA; blockE; blockD] [] []).
Definition nodeE : Node := 3.
Definition nodeD : Node := 4.

(** An optional argument [size] with default 5 of the custom component
    instance [web.one]. *)
Definition argumentSize : NodeObject :=
  MkNode (ConfigNode ArgumentConfig) "web.one.argument.size" "web.one" None "size"
         true 5%Z 0%Z ∅ 0%Z 0%Z.

(** A service [http] that depends on a service [cluster] that is not
    there, and the graph of the service nodes. *)
Definition serviceEnv : Collaborators :=
  MkCollaborators "" false [MkService "http" ["cluster"]]
    (componentRegGet sampleEnv) (Evaluate sampleEnv) (NewConfigNode sampleEnv)
    (fun _ _ _ => []) sampleReferences.
Definition serviceLoader : Loader :=
  (populateServiceNodes serviceEnv NewLoader emptyGraph []).1.1.
Definition serviceGraph : Graph :=
  (populateServiceNodes serviceEnv NewLoader emptyGraph []).1.2.

(** Config nodes whose construction fails for every block but [logging]. *)
Definition strictEnv : Collaborators :=
  MkCollaborators "module" true []
    (componentRegGet sampleEnv) (Evaluate sampleEnv)
    (fun b => (newNode (ConfigNode LoggingConfig) (BlockComponentID b) ""
                       (Some b) (Label b),
               if decide (GetBlockName b = "logging") then []
               else [errorMsg ("unsupported block " +:+ GetBlockName b)]))
    (fun _ _ _ => []) sampleReferences.
Definition blockBogus : BlockStmt := MkBlockStmt ["bogus"] "" 12 [].
Definition blockLogging : BlockStmt := MkBlockStmt ["logging"] "" 13 [].

(** A service [http] and two blocks that configure it. *)
Definition httpEnv : Collaborators :=
  MkCollaborators "" false [MkService "http" []]
    (componentRegGet sampleEnv) (Evaluate sampleEnv) (NewConfigNode sampleEnv)
    (fun _ _ _ => []) sampleReferences.
Definition blockHttp : BlockStmt := MkBlockStmt ["http"] "" 14 [].
Definition blockHttp' : BlockStmt := MkBlockStmt ["http"] "" 15 [].

End more_examples.

(** ** Vocabulary for further properties of the tasks under the lock *)
Module concurrent_spec.
Export concurrent.

(** A run of [concurrentEvalFn] that has yet to compare the cache's index
    with the recorded one, or to record it. *)
Definition pendingCheck (p : Point) : bool :=
  match p with
  | ReadLocked | Cached | Upgrading | WriteLocked | Notified => true
  | _ => false
  end.

(** A run of [concurrentEvalFn] on the branch that takes the write lock. *)
Definition upgraded (p : Point) : bool :=
  match p with
  | Upgrading | WriteLocked | Notified | Unlocking => true
  | _ => false
  end.

(** A point of a run of [concurrentEvalFn], not of [Apply]. *)
Definition ofEvaluation (p : Point) : bool :=
  match p with
  | ApplyWaiting | ApplyEvaluating | ApplyUnlocking => false
  | _ => true
  end.

(** Evaluations are submitted while the parent is up to date. *)
Definition submitted (st : Shared * list Point) : Prop :=
  initial st /\ Forall (fun p => p = Evaluating) st.2 /\
  exportChangeIndex st.1 = moduleExportIndex st.1.

(** What holds while only evaluations run and the callback is set, from
    the state [st0] on: as long as the cache's index differs from the
    recorded one some run has yet to compare them; while no version was
    notified the recorded index is the one of [st0]; the cache's index
    does not fall. *)
Record settling (st0 st : Shared * list Point) : Prop := {
  settling_evaluations : Forall (fun p => ofEvaluation p = true) st.2;
  settling_pending :
    exportChangeIndex st.1 ≠ moduleExportIndex st.1 -> 0 < count pendingCheck st.2;
  settling_silent :
    notifiedVersions st.1 = [] ->
    moduleExportIndex st.1 = moduleExportIndex st0.1 /\ count notifying st.2 = 0;
  settling_grows : (exportChangeIndex st0.1 <= exportChangeIndex st.1)%Z
}.

(** Two evaluations, submitted while the parent is up to date. *)
Definition twoEvaluations : Shared * list Point :=
  (MkShared 0 false 0 0 [], [Evaluating; Evaluating]).
Definition bothFinished : Shared * list Point :=
  (MkShared 0 false 1 1 [1%Z], [Finished; Finished]).

(** Where [racing] gets without a callback: the export changed, nobody
    was told. *)
Definition unobserved : Shared * list Point :=
  (MkShared 0 false 1 0 [], [Finished; Finished; ApplyWaiting]).

End concurrent_spec.

(** ** Vocabulary for an [Apply] that fails on a cycle *)
Module cycle_spec.
Export loader_spec more_examples.

(** [l'] is [l] with another store of node objects: no field of the
    Loader was assigned. *)
Definition storeOnly (l l' : Loader) : Prop := l' = setStore (store l') l.

(** The node objects of [s] outside [ns] are in [s'] as they were. *)
Definition keptOutside (ns : list Node) (s s' : Store) : Prop :=
  forall n o, objects s !! n = Some o -> n ∉ ns -> objects s' !! n = Some o.

(** Every node the graph knows by an ID is one of its nodes. *)
Definition indexed (g : Graph) : Prop :=
  forall id n, GetByID g id = Some n -> n ∈ nodes g.

(** What holds while the graph [g] is built over the store [s], from the
    store [s0] on: nodes were constructed at fresh addresses, and a node
    object of [s0] was only touched when the node went into [g]. *)
Definition reuses (s0 s : Store) (g : Graph) : Prop :=
  nextNode s0 <= nextNode s /\ indexed g /\ keptOutside (nodes g) s0 s.

(** [declare "t" { }]. *)
Definition blockTemplate : BlockStmt := MkBlockStmt ["declare"] "t" 16 [].

End cycle_spec.

(** * Properties of the declare ordering *)
Module declare_facts.
Import declare declare_spec.

(** Induction over a block and the blocks nested in its body. *)
Lemma BlockStmt_nested_ind (P : BlockStmt -> Prop) :
  (forall n l p body,
      Forall (fun s => match s with BlockStmtS b => P b | _ => True end) body ->
      P (MkBlockStmt n l p body)) ->
  forall b, P b.
Proof.
  intros step. fix IH 1. intros [n l p body]. apply step.
  induction body as [|s body IHbody]; constructor; [|exact IHbody].
  destruct s as [|b]; [exact I|apply IH].
Qed.

Lemma findDeclareDependencies_unfold b m :
  findDeclareDependencies b m = Body b ≫= stmtDependencies m.
Proof.
  destruct b as [n l p body]. simpl.
  induction body as [|s body IH]; [done|].
  destruct s as [a v|c]; simpl; [exact IH|].
  unfold GetBlockName. by rewrite IH.
Qed.

Lemma elem_of_findDeclareDependencies b m name :
  name ∈ findDeclareDependencies b m <->
  exists s, s ∈ Body b /\ name ∈ stmtDependencies m s.
Proof.
  rewrite findDeclareDependencies_unfold, list_elem_of_bind.
  split; intros (s & ? & ?); eauto.
Qed.

(** Every reported dependency is a key of the label map. *)
Lemma findDeclareDependencies_is_Some b m name :
  name ∈ findDeclareDependencies b m -> is_Some (m !! name).
Proof.
  revert name. induction b as [n l p body IH] using BlockStmt_nested_ind.
  intros name (s & Hs & Hname)%elem_of_findDeclareDependencies. simpl in Hs.
  rewrite Forall_forall in IH. specialize (IH s Hs).
  destruct s as [|c]; simpl in Hname; [by apply elem_of_nil in Hname|].
  repeat case_decide; [by apply IH| |by apply elem_of_nil in Hname].
  apply list_elem_of_singleton in Hname. by subst.
Qed.

Lemma findDeclareDependencies_references b m name :
  name ∈ findDeclareDependencies b m <->
  is_Some (m !! name) /\ references (Body b) name.
Proof.
  split.
  - intros Hin. split; [by eapply findDeclareDependencies_is_Some|].
    revert name Hin. induction b as [n l p body IH] using BlockStmt_nested_ind.
    intros name (s & Hs & Hname)%elem_of_findDeclareDependencies. simpl in *.
    rewrite Forall_forall in IH. specialize (IH s Hs).
    destruct s as [|c]; simpl in Hname; [by apply elem_of_nil in Hname|].
    repeat case_decide.
    + eapply references_nested; eauto.
    + apply list_elem_of_singleton in Hname. subst. by apply references_here.
    + by apply elem_of_nil in Hname.
  - intros [Hsome Href]. remember (Body b) as body eqn:Hbody.
    revert b Hbody Hsome.
    induction Href as [body c Hc Hne|body d name Hd Hdecl Href IH];
      intros b -> Hsome; apply elem_of_findDeclareDependencies.
    + exists (BlockStmtS c). split; [done|]. simpl.
      rewrite decide_False by done. rewrite decide_True by done.
      by apply list_elem_of_singleton.
    + exists (BlockStmtS d). split; [done|]. simpl.
      rewrite decide_True by done. by apply IH.
Qed.

(** *** The label map *)

Lemma indexBlocks_snoc bs b :
  indexBlocks (bs ++ [b]) =
  (match fst (indexBlocks bs) !! Label b with
   | Some _ => fst (indexBlocks bs)
   | None => <[Label b := []]> (fst (indexBlocks bs))
   end,
   <[Label b := b]> (snd (indexBlocks bs))).
Proof.
  unfold indexBlocks. rewrite fold_left_app. simpl.
  by destruct (fold_left _ bs _).
Qed.

Lemma blockByLabelOf_snoc bs b :
  blockByLabelOf (bs ++ [b]) = <[Label b := b]> (blockByLabelOf bs).
Proof. unfold blockByLabelOf. by rewrite indexBlocks_snoc. Qed.

Lemma blockByLabelOf_lookup bs label :
  blockByLabelOf bs !! label = lastWithLabel bs label.
Proof.
  unfold lastWithLabel.
  induction bs as [|b bs IH] using rev_ind; [done|].
  rewrite blockByLabelOf_snoc, filter_app, filter_cons, filter_nil.
  destruct (decide (Label b = label)) as [->|Hne].
  - by rewrite lookup_insert_eq, last_snoc.
  - rewrite lookup_insert_ne by done. by rewrite app_nil_r.
Qed.

Lemma lastWithLabel_Some bs label b :
  lastWithLabel bs label = Some b -> b ∈ bs /\ Label b = label.
Proof.
  unfold lastWithLabel. intros Hlast.
  assert (b ∈ filter (fun b => Label b = label) bs) as Hin.
  { apply last_Some in Hlast as [l' ->]. apply elem_of_app. right. by left. }
  apply list_elem_of_filter in Hin. tauto.
Qed.

Lemma lastWithLabel_is_Some bs label :
  is_Some (lastWithLabel bs label) <-> label ∈ Label <$> bs.
Proof.
  unfold lastWithLabel. split.
  - intros [b Hb]. apply lastWithLabel_Some in Hb as [? <-].
    apply list_elem_of_fmap. eauto.
  - intros (b & -> & Hb)%list_elem_of_fmap.
    destruct (last (filter (fun b0 => Label b0 = Label b) bs)) eqn:Hlast; [eauto|].
    apply last_None in Hlast.
    assert (b ∈ filter (fun b0 => Label b0 = Label b) bs) as Hin
        by by apply list_elem_of_filter.
    rewrite Hlast in Hin. by apply elem_of_nil in Hin.
Qed.

Lemma blockByLabelOf_dom bs : dom (blockByLabelOf bs) = list_to_set (Label <$> bs).
Proof.
  apply set_eq. intros x.
  rewrite elem_of_dom, blockByLabelOf_lookup, lastWithLabel_is_Some.
  by rewrite elem_of_list_to_set.
Qed.

Lemma getBlock_Label bs label :
  label ∈ dom (blockByLabelOf bs) -> Label (getBlock (blockByLabelOf bs) label) = label.
Proof.
  rewrite elem_of_dom. intros [b Hb]. unfold getBlock. rewrite Hb. simpl.
  rewrite blockByLabelOf_lookup in Hb. by apply lastWithLabel_Some in Hb as [_ ?].
Qed.

Lemma indexBlocks_graph_empty bs d : getList (fst (indexBlocks bs)) d = [].
Proof.
  unfold getList. induction bs as [|b bs IH] using rev_ind; [done|].
  rewrite indexBlocks_snoc. simpl.
  destruct (fst (indexBlocks bs) !! Label b) eqn:Hb; [done|].
  destruct (decide (Label b = d)) as [->|Hne].
  - by rewrite lookup_insert_eq.
  - by rewrite lookup_insert_ne.
Qed.


(** *** The dependency edges and the maps built from them *)

Lemma fold_addDependency label deps st :
  fold_left (addDependency label) deps st =
  fold_left addEdge ((fun dep => (dep, label)) <$> deps) st.
Proof. revert st. induction deps as [|d deps IH]; intros st; [done|]. apply IH. Qed.

Lemma countDependencies_edges bs m g :
  countDependencies bs m g = fold_left addEdge (edgesOf bs m) (g, ∅).
Proof.
  unfold countDependencies, edgesOf. generalize (g, (∅ : gmap string Z)).
  induction bs as [|b bs IH]; intros st; [done|].
  simpl. rewrite fold_left_app, <- fold_addDependency. apply IH.
Qed.

Lemma fold_addEdge_spec E g ind :
  (forall d, getList (fst (fold_left addEdge E (g, ind))) d = getList g d ++ targets d E) /\
  (forall l, getInt (snd (fold_left addEdge E (g, ind))) l =
             (getInt ind l + Z.of_nat (length (filter (fun e => snd e = l) E)))%Z).
Proof.
  revert g ind. induction E as [|[d0 l0] E IH]; intros g ind.
  - simpl. split; intros; [by rewrite app_nil_r|lia].
  - simpl. destruct (IH (<[d0 := getList g d0 ++ [l0]]> g)
                       (<[l0 := (getInt ind l0 + 1)%Z]> ind)) as [IHg IHi].
    split.
    + intros d. rewrite IHg. unfold targets. rewrite filter_cons. simpl.
      unfold getList at 1. destruct (decide (d0 = d)) as [->|Hne].
      * rewrite lookup_insert_eq. simpl. by rewrite <- app_assoc.
      * by rewrite lookup_insert_ne.
    + intros l. rewrite IHi. rewrite filter_cons. simpl.
      unfold getInt at 1. destruct (decide (l0 = l)) as [->|Hne].
      * rewrite lookup_insert_eq. simpl. lia.
      * rewrite lookup_insert_ne by done. fold (getInt ind l). lia.
Qed.

Lemma elem_of_edgesOf bs m dep label :
  (dep, label) ∈ edgesOf bs m <->
  exists b, b ∈ bs /\ Label b = label /\ dep ∈ findDeclareDependencies b m.
Proof.
  unfold edgesOf. rewrite list_elem_of_bind. split.
  - intros (b & (d & [= -> ->] & Hd)%list_elem_of_fmap & Hb). eauto.
  - intros (b & Hb & <- & Hd). exists b. split; [|done].
    apply list_elem_of_fmap. eauto.
Qed.

Lemma dependsOn_edges bs label dep :
  dependsOn bs label dep <-> (dep, label) ∈ edgesOf bs (blockByLabelOf bs).
Proof. by rewrite elem_of_edgesOf. Qed.

Lemma edgesOf_keys bs dep label :
  (dep, label) ∈ edgesOf bs (blockByLabelOf bs) ->
  dep ∈ dom (blockByLabelOf bs) /\ label ∈ dom (blockByLabelOf bs).
Proof.
  intros (b & Hb & <- & Hd)%elem_of_edgesOf. split.
  - apply elem_of_dom. by eapply findDeclareDependencies_is_Some.
  - rewrite blockByLabelOf_dom, elem_of_list_to_set. apply list_elem_of_fmap. eauto.
Qed.

Lemma occurrences_targets x label E :
  occurrences x (targets label E) =
  length (filter (fun e => snd e = x /\ fst e = label) E).
Proof.
  unfold occurrences, targets. induction E as [|[d l] E IH]; [done|].
  rewrite !filter_cons. simpl.
  destruct (decide (d = label)) as [->|Hne].
  - rewrite fmap_cons, filter_cons. simpl.
    destruct (decide (l = x)) as [->|Hne'].
    + rewrite decide_True by done. simpl. by rewrite IH.
    + rewrite decide_False by tauto. done.
  - rewrite decide_False by tauto. done.
Qed.

(** *** The inner loop over the dependants of an emitted label *)

Lemma release_fst ds ind q x :
  getInt (fst (fold_left release ds (ind, q))) x =
  (getInt ind x - Z.of_nat (occurrences x ds))%Z.
Proof.
  unfold occurrences. revert ind q. induction ds as [|d ds IH]; intros ind q.
  - simpl. lia.
  - simpl. rewrite filter_cons.
    assert (forall q', getInt (fst (fold_left release ds
               (<[d := (getInt ind d - 1)%Z]> ind, q'))) x =
            (getInt ind x - Z.of_nat (length (filter (fun y => y = x) (d :: ds))))%Z) as Hstep.
    { intros q'. rewrite IH, filter_cons. unfold getInt at 1.
      destruct (decide (d = x)) as [->|Hne].
      - rewrite lookup_insert_eq. simpl. lia.
      - rewrite lookup_insert_ne by done. fold (getInt ind x). lia. }
    rewrite filter_cons in Hstep.
    destruct (decide (getInt _ d = 0%Z)); apply Hstep.
Qed.

Lemma release_snd ds ind q :
  (forall x, (Z.of_nat (occurrences x ds) <= getInt ind x)%Z) ->
  exists added,
    snd (fold_left release ds (ind, q)) = q ++ added /\
    NoDup added /\
    forall x, x ∈ added <->
              x ∈ ds /\ getInt ind x = Z.of_nat (occurrences x ds).
Proof.
  unfold occurrences. revert ind q. induction ds as [|d ds IH]; intros ind q Hle.
  - exists []. simpl. rewrite app_nil_r. split; [done|]. split; [constructor|].
    intros x. rewrite !elem_of_nil. tauto.
  - simpl.
    set (ind1 := <[d := (getInt ind d - 1)%Z]> ind).
    assert (forall x, getInt ind1 x =
                      if decide (d = x) then (getInt ind x - 1)%Z else getInt ind x)
      as Hind1.
    { intros x. unfold ind1, getInt at 1. destruct (decide (d = x)) as [->|Hne].
      - by rewrite lookup_insert_eq.
      - by rewrite lookup_insert_ne. }
    assert (forall x, (Z.of_nat (length (filter (fun y => y = x) ds)) <= getInt ind1 x)%Z)
      as Hle1.
    { intros x. specialize (Hle x). rewrite filter_cons in Hle. rewrite Hind1.
      destruct (decide (d = x)); simpl in Hle; lia. }
    assert (forall x, length (filter (fun y => y = x) (d :: ds)) =
                      if decide (d = x) then S (length (filter (fun y => y = x) ds))
                      else length (filter (fun y => y = x) ds)) as Hocc.
    { intros x. rewrite filter_cons. by destruct (decide (d = x)). }
    assert (forall x, length (filter (fun y => y = x) ds) = 0 -> x ∉ ds) as Hzero.
    { intros x Hlen Hx.
      assert (x ∈ filter (fun y => y = x) ds) as Hin by by apply list_elem_of_filter.
      destruct (filter (fun y => y = x) ds); [by apply elem_of_nil in Hin|done]. }
    destruct (decide (getInt ind1 d = 0%Z)) as [Hd|Hd].
    + destruct (IH ind1 (q ++ [d]) Hle1) as (added & Hq & Hnd & Hadded).
      exists (d :: added). split; [by rewrite Hq, <- app_assoc|].
      rewrite Hind1, decide_True in Hd by done.
      assert (d ∉ ds) as Hdds.
      { apply Hzero. specialize (Hle1 d). rewrite Hind1, decide_True in Hle1 by done. lia. }
      split.
      * apply NoDup_cons. split; [|done]. rewrite Hadded. tauto.
      * intros x. rewrite !elem_of_cons, Hadded, Hind1, Hocc.
        destruct (decide (d = x)) as [->|Hne].
        -- split; [intros _|by left]. split; [by left|].
           specialize (Hle1 x). rewrite Hind1, decide_True in Hle1 by done. lia.
        -- split; [intros [->|[? ?]]; [done|tauto]|intros [[->|?] ?]; [done|tauto]].
    + destruct (IH ind1 q Hle1) as (added & Hq & Hnd & Hadded).
      exists added. split; [done|]. split; [done|].
      rewrite Hind1, decide_True in Hd by done.
      intros x. rewrite elem_of_cons, Hadded, Hind1, Hocc.
      destruct (decide (d = x)) as [->|Hne].
      * split.
        -- intros [? ?]. split; [by left|lia].
        -- intros [_ Heq]. split; [|lia].
           destruct (decide (x ∈ ds)) as [|Hn]; [done|].
           assert (length (filter (fun y => y = x) ds) <> 0) by lia.
           exfalso. destruct (filter (fun y => y = x) ds) eqn:Hf; [done|].
           apply Hn. assert (s ∈ filter (fun y => y = x) ds) as Hs by (rewrite Hf; by left).
           apply list_elem_of_filter in Hs as [-> ?]. done.
      * split; [intros [? ?]; split; [by right|done]|].
        intros [[->|?] ?]; [done|tauto].
Qed.

(** *** The queue loop *)

Lemma pending_snoc E out label x :
  label ∉ out ->
  length (pending E out x) =
  length (pending E (out ++ [label]) x)
  + length (filter (fun e => snd e = x /\ fst e = label) E).
Proof.
  intros Hout. unfold pending. induction E as [|[d l] E IH]; [done|].
  rewrite !filter_cons. simpl.
  destruct (decide (l = x)) as [->|Hne].
  - destruct (decide (d = label)) as [->|Hne'].
    + rewrite decide_True by done.
      rewrite (decide_False (P := _ /\ label ∉ out ++ [label])).
      2:{ intros [_ Hn]. apply Hn, elem_of_app. right. by left. }
      rewrite decide_True by done. simpl. lia.
    + destruct (decide (d ∈ out)) as [Hd|Hd].
      * rewrite decide_False by tauto.
        rewrite (decide_False (P := _ /\ d ∉ out ++ [label])).
        2:{ intros [_ Hn]. apply Hn, elem_of_app. by left. }
        rewrite decide_False by tauto. done.
      * rewrite decide_True by done.
        rewrite (decide_True (P := _ /\ d ∉ out ++ [label])).
        2:{ split; [done|]. rewrite elem_of_app, list_elem_of_singleton. tauto. }
        rewrite decide_False by tauto. simpl. lia.
  - rewrite !decide_False by tauto. done.
Qed.

Lemma occurrences_elem_of x (l : list string) : x ∈ l <-> occurrences x l <> 0.
Proof.
  unfold occurrences. split.
  - intros Hx Hlen.
    assert (x ∈ filter (fun y => y = x) l) as Hf by (apply list_elem_of_filter; split; done).
    destruct (filter (fun y => y = x) l); [by apply elem_of_nil in Hf|done].
  - intros Hlen. destruct (filter (fun y => y = x) l) as [|s f] eqn:Hf; [done|].
    assert (s ∈ filter (fun y => y = x) l) as Hs by (rewrite Hf; by left).
    apply list_elem_of_filter in Hs as [-> ?]. done.
Qed.

Lemma pending_nil_elem E out x dep :
  length (pending E out x) = 0 -> (dep, x) ∈ E -> dep ∈ out.
Proof.
  intros Hlen Hin. destruct (decide (dep ∈ out)) as [|Hn]; [done|exfalso].
  assert ((dep, x) ∈ pending E out x) as Hp by by apply list_elem_of_filter.
  destruct (pending E out x); [by apply elem_of_nil in Hp|done].
Qed.

Lemma elem_of_targets x label E : x ∈ targets label E <-> (label, x) ∈ E.
Proof.
  unfold targets. rewrite list_elem_of_fmap. split.
  - intros ([d l] & -> & [Hd He]%list_elem_of_filter). simpl in *. by subst.
  - intros He. exists (label, x). split; [done|]. by apply list_elem_of_filter.
Qed.

Section Step.
Variables (E : list (string * string)) (keys : gset string).
Hypothesis E_keys : forall dep label, (dep, label) ∈ E -> dep ∈ keys /\ label ∈ keys.

Lemma drainInv_step ind label queue out :
  drainInv E keys ind (label :: queue) out ->
  drainInv E keys
    (fst (fold_left release (targets label E) (ind, queue)))
    (snd (fold_left release (targets label E) (ind, queue)))
    (out ++ [label]).
Proof.
  intros [Hnd Hkeys Hpend Hzero Hord].
  assert (label ∉ out) as Hlabel.
  { apply NoDup_app in Hnd as (_ & Hdisj & _). intros Hin.
    apply (Hdisj _ Hin). by left. }
  assert (forall x, getInt ind x =
            (Z.of_nat (length (pending E (out ++ [label]) x))
             + Z.of_nat (occurrences x (targets label E)))%Z) as Hsplit.
  { intros x. rewrite Hpend, occurrences_targets, (pending_snoc E out label x) by done. lia. }
  destruct (release_snd (targets label E) ind queue) as (added & Hq & Hndadd & Hadded).
  { intros x. rewrite Hsplit. lia. }
  assert (forall x, getInt (fst (fold_left release (targets label E) (ind, queue))) x =
                    Z.of_nat (length (pending E (out ++ [label]) x))) as Hpend'.
  { intros x. rewrite release_fst, Hsplit. lia. }
  rewrite Hq.
  assert (forall x, x ∈ added -> x ∈ keys /\ x ∉ out ++ label :: queue) as Hfresh.
  { intros x [Hx Heq]%Hadded.
    apply elem_of_targets, E_keys in Hx as Hk. destruct Hk as [_ Hk].
    split; [done|]. intros Hin. apply (Hzero x Hk) in Hin.
    assert (occurrences x (targets label E) <> 0); [|lia].
    by apply occurrences_elem_of, elem_of_targets. }
  split.
  - rewrite <- app_assoc. simpl.
    rewrite (app_comm_cons queue added label), app_assoc.
    apply NoDup_app. split; [done|]. split; [|done].
    intros x Hx Hxa. by apply Hfresh in Hxa as [_ ?].
  - intros x. rewrite <- app_assoc. simpl. rewrite !elem_of_app, elem_of_cons, elem_of_app.
    intros Hx. destruct (decide (x ∈ added)) as [Ha|Ha]; [by apply Hfresh in Ha as [? _]|].
    apply Hkeys. rewrite elem_of_app, elem_of_cons. tauto.
  - exact Hpend'.
  - intros x Hk. rewrite Hpend'.
    rewrite <- app_assoc. simpl.
    assert (x ∈ out ++ label :: queue ++ added <-> x ∈ out ++ label :: queue \/ x ∈ added)
      as ->.
    { rewrite !elem_of_app, !elem_of_cons, elem_of_app. tauto. }
    rewrite (Hzero x Hk), Hadded, Hsplit. split.
    + intros [?|[_ ?]]; lia.
    + intros Hz. destruct (decide (occurrences x (targets label E) = 0)) as [H0|H0].
      * left. lia.
      * right. split; [by apply occurrences_elem_of|lia].
  - intros i l dep Hi He.
    apply lookup_snoc_Some in Hi as [[Hlt Hi]|[Hlen <-]].
    + destruct (Hord i l dep Hi He) as (j & Hj & Hdep).
      exists j. split; [done|]. rewrite lookup_app_l; [done|]. lia.
    + assert (getInt ind label = 0%Z) as H0.
      { apply Hzero; [apply Hkeys|]; apply elem_of_app; right; by left. }
      rewrite Hpend in H0.
      assert (dep ∈ out) as Hdep by (apply (pending_nil_elem E out label dep); [lia|done]).
      apply list_elem_of_lookup in Hdep as [j Hj].
      exists j. apply lookup_lt_Some in Hj as Hlt. split; [lia|].
      by rewrite lookup_app_l.
Qed.

Lemma drainInv_length ind queue out :
  drainInv E keys ind queue out -> length out + length queue <= size keys.
Proof.
  intros [Hnd Hkeys _ _ _]. rewrite <- length_app.
  unfold size, set_size. simpl. apply submseteq_length, NoDup_submseteq; [done|].
  intros x Hx. apply elem_of_elements. by apply Hkeys.
Qed.

Variables (graph : gmap string (list string)) (blockByLabel : gmap string BlockStmt).
Hypothesis graph_targets : forall label, getList graph label = targets label E.
Hypothesis block_label : forall x, x ∈ keys -> Label (getBlock blockByLabel x) = x.

Lemma drain_spec fuel ind queue sortedList :
  drainInv E keys ind queue (Label <$> sortedList) ->
  size keys <= fuel + length sortedList ->
  exists ind' emitted,
    drain fuel graph blockByLabel ind queue sortedList =
      Some (ind', sortedList ++ (getBlock blockByLabel <$> emitted)) /\
    drainInv E keys ind' [] ((Label <$> sortedList) ++ emitted).
Proof.
  revert ind queue sortedList. induction fuel as [|fuel IH]; intros ind queue sortedList Hinv Hfuel.
  - assert (queue = []) as ->.
    { apply drainInv_length in Hinv. rewrite length_fmap in Hinv.
      destruct queue; [done|]. simpl in Hinv. lia. }
    exists ind, []. simpl. by rewrite !app_nil_r.
  - destruct queue as [|label queue].
    + exists ind, []. simpl. by rewrite !app_nil_r.
    + simpl. rewrite graph_targets.
      pose proof (drainInv_step _ _ _ _ Hinv) as Hstep.
      destruct (fold_left release (targets label E) (ind, queue)) as [ind1 queue1].
      simpl in Hstep.
      assert (label ∈ keys) as Hk.
      { apply (inv_keys _ _ _ _ _ Hinv). apply elem_of_app. right. by left. }
      destruct (IH ind1 queue1 (sortedList ++ [getBlock blockByLabel label]))
        as (ind' & emitted & Hdrain & Hinv').
      { by rewrite fmap_app, fmap_cons, block_label. }
      { rewrite length_app. simpl. lia. }
      exists ind', (label :: emitted). split.
      * rewrite Hdrain. by rewrite <- app_assoc.
      * rewrite fmap_app, fmap_cons, block_label, <- app_assoc in Hinv' by done.
        exact Hinv'.
Qed.
End Step.

#[export] Instance string_le_total : Total string_le.
Proof. intros a b. apply String.leb_total. Qed.

Lemma size_list_to_set_length (l : list string) :
  size (list_to_set (C := gset string) l) <= length l.
Proof.
  unfold size, set_size. simpl.
  apply submseteq_length, NoDup_submseteq; [apply NoDup_elements|].
  intros x. by rewrite elem_of_elements, elem_of_list_to_set.
Qed.

Lemma pending_nil E x :
  pending E [] x = filter (fun e => snd e = x) E.
Proof.
  apply list_filter_iff. intros e. rewrite elem_of_nil. tauto.
Qed.

Lemma tc_dependsOn_keys bs x y :
  tc (dependsOn bs) x y ->
  x ∈ dom (blockByLabelOf bs) /\ y ∈ dom (blockByLabelOf bs).
Proof.
  induction 1 as [x y HR|x z y HR _ [_ IH]].
  - apply dependsOn_edges, edgesOf_keys in HR. tauto.
  - apply dependsOn_edges, edgesOf_keys in HR. tauto.
Qed.

Section Run.
Context `{MapRange}.

Lemma range_keys {V} (m : gmap string V) :
  NoDup ((range m).*1) /\ forall x, x ∈ (range m).*1 <-> x ∈ dom m.
Proof.
  pose proof (range_Permutation m) as Hperm. split.
  - rewrite Hperm. apply NoDup_fst_map_to_list.
  - intros x. rewrite Hperm, elem_of_dom, list_elem_of_fmap. split.
    + intros ([k v] & -> & Hkv). apply elem_of_map_to_list in Hkv. eauto.
    + intros [v Hv]. exists (x, v). split; [done|]. by apply elem_of_map_to_list.
Qed.

Lemma initialQueue_filter (blockByLabel : gmap string BlockStmt) inDegree :
  initialQueue blockByLabel inDegree =
  filter (fun label => getInt inDegree label = 0%Z) ((range blockByLabel).*1).
Proof.
  unfold initialQueue.
  assert (forall (l : list (string * BlockStmt)) acc,
             fold_left (fun queue '(label, _) =>
                          if decide (getInt inDegree label = 0%Z) then queue ++ [label]
                          else queue) l acc =
             acc ++ filter (fun label => getInt inDegree label = 0%Z) (l.*1)) as Hfold.
  { induction l as [|[k v] l IH]; intros acc; simpl.
    - by rewrite app_nil_r.
    - rewrite IH, filter_cons. simpl.
      destruct (decide (getInt inDegree k = 0%Z)); [by rewrite <- app_assoc|done]. }
  by rewrite Hfold.
Qed.

Lemma unresolved_spec inDegree :
  Sorted string_le (unresolved inDegree) /\
  NoDup (unresolved inDegree) /\
  forall x, x ∈ unresolved inDegree <-> (0 < getInt inDegree x)%Z.
Proof.
  unfold unresolved.
  assert (forall l acc,
             fold_left (fun unresolvedLabels '(label, count) =>
                          if decide (0 < count)%Z then unresolvedLabels ++ [label]
                          else unresolvedLabels) l acc =
             acc ++ (filter (fun e : string * Z => (0 < snd e)%Z) l).*1) as Hfold.
  { induction l as [|[k v] l IH]; intros acc; simpl.
    - by rewrite app_nil_r.
    - rewrite IH, filter_cons. simpl.
      destruct (decide (0 < v)%Z); [by rewrite <- app_assoc|done]. }
  rewrite Hfold, app_nil_l. unfold sortStrings.
  split; [apply Sorted_merge_sort, _|].
  split.
  - rewrite merge_sort_Permutation, (range_Permutation inDegree).
    apply NoDup_fmap_fst.
    + intros k v1 v2 [_ H1%elem_of_map_to_list]%list_elem_of_filter
             [_ H2%elem_of_map_to_list]%list_elem_of_filter. congruence.
    + apply NoDup_filter, NoDup_map_to_list.
  - intros x. rewrite merge_sort_Permutation, (range_Permutation inDegree).
    rewrite list_elem_of_fmap. unfold getInt. split.
    + intros ([k v] & -> & [Hpos Hkv%elem_of_map_to_list]%list_elem_of_filter).
      simpl in *. by rewrite Hkv.
    + intros Hpos. destruct (inDegree !! x) as [v|] eqn:Hx; simpl in Hpos; [|lia].
      exists (x, v). split; [done|]. apply list_elem_of_filter.
      split; [done|]. by apply elem_of_map_to_list.
Qed.

(** The queue loop ends within its rounds, having emitted [emitted]. *)
Lemma drainResult_spec bs :
  exists ind emitted,
    drainResult bs = Some (ind, getBlock (blockByLabelOf bs) <$> emitted) /\
    drainInv (edgesOf bs (blockByLabelOf bs)) (dom (blockByLabelOf bs)) ind [] emitted.
Proof.
  unfold drainResult, blockByLabelOf.
  destruct (indexBlocks bs) as [g0 bbl] eqn:Hidx. simpl.
  assert (bbl = blockByLabelOf bs) as Hbbl by (unfold blockByLabelOf; by rewrite Hidx).
  assert (forall d, getList g0 d = []) as Hg0.
  { intros d. pose proof (indexBlocks_graph_empty bs d) as Hd. by rewrite Hidx in Hd. }
  rewrite countDependencies_edges.
  destruct (fold_addEdge_spec (edgesOf bs bbl) g0 ∅) as [Hgraph Hind].
  destruct (fold_left addEdge (edgesOf bs bbl) (g0, ∅)) as [graph ind0]. simpl in *.
  set (E := edgesOf bs bbl) in *. set (keys := dom bbl).
  assert (forall dep label, (dep, label) ∈ E -> dep ∈ keys /\ label ∈ keys) as HE.
  { intros dep label. unfold E, keys. rewrite Hbbl. apply edgesOf_keys. }
  destruct (drain_spec E keys HE graph bbl) with
    (fuel := length bs) (ind := ind0) (queue := initialQueue bbl ind0) (sortedList := @nil BlockStmt)
    as (ind' & emitted & Hdrain & Hinv).
  - intros label. by rewrite Hgraph, Hg0.
  - intros x Hx. unfold keys in Hx. rewrite Hbbl in *. by apply getBlock_Label.
  - destruct (range_keys bbl) as [Hnd Hdom].
    split; simpl.
    + rewrite initialQueue_filter. by apply NoDup_filter.
    + intros x. rewrite initialQueue_filter. intros [_ Hx]%list_elem_of_filter.
      by apply Hdom.
    + intros x. rewrite Hind, pending_nil. unfold getInt. rewrite lookup_empty. simpl. lia.
    + intros x Hx. rewrite initialQueue_filter, list_elem_of_filter, Hdom. tauto.
    + intros i label dep Hi. by rewrite lookup_nil in Hi.
  - simpl. unfold keys. rewrite size_dom, Hbbl.
    rewrite <- size_dom, blockByLabelOf_dom.
    pose proof (size_list_to_set_length (Label <$> bs)) as Hle.
    rewrite length_fmap in Hle. lia.
  - exists ind', emitted. simpl in *. done.
Qed.
End Run.

Lemma emitted_complete E keys ind emitted :
  drainInv E keys ind [] emitted ->
  length emitted = size keys <-> forall x, x ∈ keys -> x ∈ emitted.
Proof.
  intros [Hnd Hkeys _ _ _]. rewrite app_nil_r in *.
  assert (emitted ⊆+ elements keys) as Hsub.
  { apply NoDup_submseteq; [done|]. intros x Hx. apply elem_of_elements. auto. }
  unfold size, set_size. simpl. split.
  - intros Hlen x Hx.
    rewrite (submseteq_length_Permutation _ _ Hsub) by lia.
    by apply elem_of_elements.
  - intros Hall. apply Permutation_length, NoDup_Permutation; [done|apply NoDup_elements|].
    intros x. rewrite elem_of_elements. split; auto.
Qed.

(** Along the dependency relation one moves to strictly earlier positions
    of the emitted list. *)
Lemma emitted_before bs ind emitted label dep i :
  drainInv (edgesOf bs (blockByLabelOf bs)) (dom (blockByLabelOf bs)) ind [] emitted ->
  tc (dependsOn bs) label dep ->
  emitted !! i = Some label ->
  exists j, j < i /\ emitted !! j = Some dep.
Proof.
  intros Hinv Htc. revert i.
  induction Htc as [x y HR|x z y HR _ IH]; intros i Hi.
  - apply dependsOn_edges in HR. by eapply (inv_order _ _ _ _ _ Hinv).
  - apply dependsOn_edges in HR.
    destruct (inv_order _ _ _ _ _ Hinv i x z Hi HR) as (k & Hk & Hz).
    destruct (IH k Hz) as (j & Hj & Hy). exists j. split; [lia|done].
Qed.

Lemma cycle_not_emitted bs ind emitted label :
  drainInv (edgesOf bs (blockByLabelOf bs)) (dom (blockByLabelOf bs)) ind [] emitted ->
  tc (dependsOn bs) label label ->
  label ∉ emitted.
Proof.
  intros Hinv Htc [i Hi]%list_elem_of_lookup.
  destruct (emitted_before _ _ _ _ _ _ Hinv Htc Hi) as (j & Hj & Hj').
  pose proof (inv_NoDup _ _ _ _ _ Hinv) as Hnd. rewrite app_nil_r in Hnd.
  pose proof (NoDup_lookup _ _ _ _ Hnd Hi Hj'). lia.
Qed.

Lemma acyclic_all_emitted bs ind emitted :
  drainInv (edgesOf bs (blockByLabelOf bs)) (dom (blockByLabelOf bs)) ind [] emitted ->
  acyclic bs ->
  forall x, x ∈ dom (blockByLabelOf bs) -> x ∈ emitted.
Proof.
  intros Hinv Hacyc x.
  assert (sn (dependsOn bs) x) as Hsn.
  { apply tc_finite_sn; [exact Hacyc|].
    exists (elements (dom (blockByLabelOf bs))). intros y Hy.
    apply elem_of_elements. by apply tc_dependsOn_keys in Hy as [_ ?]. }
  induction Hsn as [x _ IH]. intros Hx.
  assert (getInt ind x = 0%Z) as Hzero.
  { rewrite (inv_pending _ _ _ _ _ Hinv).
    destruct (pending _ emitted x) as [|[d l] p] eqn:Hp; [done|exfalso].
    assert ((d, l) ∈ pending (edgesOf bs (blockByLabelOf bs)) emitted x) as Hin
        by (rewrite Hp; by left).
    apply list_elem_of_filter in Hin as [[Hl Hd] Hin]. simpl in *. subst l.
    apply Hd, IH.
    - by apply dependsOn_edges.
    - by apply edgesOf_keys in Hin as [? _]. }
  apply (inv_zero _ _ _ _ _ Hinv x Hx) in Hzero. by rewrite app_nil_r in Hzero.
Qed.

Section Sorting.
Context `{MapRange}.

Lemma SortDeclareBlocks_unfold bs :
  SortDeclareBlocks bs =
  match drainResult bs with
  | None => None
  | Some (inDegree, sortedList) =>
      if decide (length sortedList ≠ size (blockByLabelOf bs)) then
        Some ([], [cycleDiagnostic (unresolved inDegree)])
      else Some (sortedList, [])
  end.
Proof.
  unfold SortDeclareBlocks, drainResult, blockByLabelOf.
  destruct (indexBlocks bs) as [g bbl]. simpl.
  by destruct (countDependencies bs bbl g).
Qed.

(** The outcome of [SortDeclareBlocks] in terms of the labels the queue
    loop emitted. *)
Lemma SortDeclareBlocks_outcome bs :
  exists ind emitted,
    drainInv (edgesOf bs (blockByLabelOf bs)) (dom (blockByLabelOf bs)) ind [] emitted /\
    remainingInDegree bs = ind /\
    ((forall x, x ∈ dom (blockByLabelOf bs) -> x ∈ emitted) /\
     SortDeclareBlocks bs = Some (getBlock (blockByLabelOf bs) <$> emitted, [])
     \/
     ~ (forall x, x ∈ dom (blockByLabelOf bs) -> x ∈ emitted) /\
     SortDeclareBlocks bs = Some ([], [cycleDiagnostic (unresolved ind)])).
Proof.
  destruct (drainResult_spec bs) as (ind & emitted & Hres & Hinv).
  exists ind, emitted. split; [done|].
  split; [unfold remainingInDegree; by rewrite Hres|].
  rewrite SortDeclareBlocks_unfold, Hres.
  pose proof (emitted_complete _ _ _ _ Hinv) as Hall.
  rewrite length_fmap, <- (size_dom (D := gset string)).
  case_decide as Hlen.
  - right. split; [|done]. intros Hc. by apply Hlen, Hall.
  - left. split; [|done]. apply Hall. lia.
Qed.
End Sorting.

Lemma ranked_acyclic bs rank :
  declare_examples.ranked bs rank = true -> acyclic bs.
Proof.
  unfold declare_examples.ranked. rewrite forallb_forall. intros Hrank.
  assert (forall l d, tc (dependsOn bs) l d -> rank d < rank l) as Hlt.
  { induction 1 as [x y HR|x z y HR _ IH].
    - apply dependsOn_edges, list_elem_of_In, Hrank, Nat.ltb_lt in HR. done.
    - apply dependsOn_edges, list_elem_of_In, Hrank, Nat.ltb_lt in HR. lia. }
  intros label Hc. apply Hlt in Hc. lia.
Qed.

Section Claims.
Context `{MapRange}.

(** The queue loop of [SortDeclareBlocks] always ends: the function
    returns for every list of blocks. *)
Lemma SortDeclareBlocks_total declareBlocks :
  is_Some (SortDeclareBlocks declareBlocks).
Proof.
  destruct (SortDeclareBlocks_outcome declareBlocks)
    as (ind & emitted & _ & _ & [[_ ->]|[_ ->]]); eauto.
Qed.

Lemma sorted_blocks_spec bs ind emitted :
  drainInv (edgesOf bs (blockByLabelOf bs)) (dom (blockByLabelOf bs)) ind [] emitted ->
  Label <$> (getBlock (blockByLabelOf bs) <$> emitted) = emitted /\
  forall b, b ∈ getBlock (blockByLabelOf bs) <$> emitted ->
            lastWithLabel bs (Label b) = Some b.
Proof.
  intros Hinv.
  assert (forall x, x ∈ emitted -> x ∈ dom (blockByLabelOf bs)) as Hdom.
  { intros x Hx. apply (inv_keys _ _ _ _ _ Hinv). by rewrite app_nil_r. }
  split.
  - rewrite <- list_fmap_compose. rewrite <- (list_fmap_id emitted) at 2.
    apply Forall_fmap_ext_1, Forall_forall. intros x Hx. simpl.
    apply getBlock_Label. auto.
  - intros b (x & -> & Hx)%list_elem_of_fmap.
    rewrite getBlock_Label by auto.
    rewrite <- blockByLabelOf_lookup. unfold getBlock.
    apply Hdom, elem_of_dom in Hx as [b ->]. done.
Qed.

(** C5.  When the label-dependency graph of the declare blocks has no
    cycle, [SortDeclareBlocks] returns, without diagnostics, a list that
    holds one block for every distinct label (the block the label map
    keeps for it) and in which every block comes after the blocks of all
    labels it depends on. *)
Theorem SortDeclareBlocks_acyclic declareBlocks :
  acyclic declareBlocks ->
  exists sortedList,
    SortDeclareBlocks declareBlocks = Some (sortedList, []) /\
    NoDup (Label <$> sortedList) /\
    (forall label, label ∈ Label <$> sortedList <-> label ∈ Label <$> declareBlocks) /\
    (forall b, b ∈ sortedList -> lastWithLabel declareBlocks (Label b) = Some b) /\
    (forall i b dep,
        sortedList !! i = Some b ->
        dependsOn declareBlocks (Label b) dep ->
        exists j a, j < i /\ sortedList !! j = Some a /\ Label a = dep).
Proof.
  intros Hacyc.
  destruct (SortDeclareBlocks_outcome declareBlocks)
    as (ind & emitted & Hinv & _ & [[Hall ->]|[Hnot _]]).
  2:{ exfalso. apply Hnot. by eapply acyclic_all_emitted. }
  destruct (sorted_blocks_spec _ _ _ Hinv) as [Hlabels Hlast].
  pose proof (inv_NoDup _ _ _ _ _ Hinv) as Hnd. rewrite app_nil_r in Hnd.
  eexists. split; [done|]. rewrite Hlabels.
  split; [done|]. split; [|split; [done|]].
  - intros label. rewrite <- (elem_of_list_to_set (C := gset string) _ (Label <$> _)).
    rewrite <- blockByLabelOf_dom. split; [|by auto].
    intros Hl. apply (inv_keys _ _ _ _ _ Hinv). by rewrite app_nil_r.
  - intros i b dep Hi Hdep.
    assert (emitted !! i = Some (Label b)) as Hi'.
    { rewrite <- Hlabels, list_lookup_fmap, Hi. done. }
    destruct (inv_order _ _ _ _ _ Hinv i (Label b) dep Hi') as (j & Hj & Hjdep);
      [by apply dependsOn_edges|].
    exists j, (getBlock (blockByLabelOf declareBlocks) dep).
    split; [done|]. split.
    + by rewrite list_lookup_fmap, Hjdep.
    + apply getBlock_Label, (inv_keys _ _ _ _ _ Hinv). rewrite app_nil_r.
      by eapply list_elem_of_lookup_2.
Qed.

(** With a cycle among the labels some label is never emitted, and the
    sort gives up. *)
Lemma cycle_outcome declareBlocks :
  (exists label, tc (dependsOn declareBlocks) label label) ->
  SortDeclareBlocks declareBlocks =
    Some ([], [cycleDiagnostic (unresolved (remainingInDegree declareBlocks))]).
Proof.
  intros [label Hcycle].
  destruct (SortDeclareBlocks_outcome declareBlocks)
    as (ind & emitted & Hinv & Hrem & [[Hall _]|[_ ->]]); [|by rewrite Hrem].
  exfalso. eapply cycle_not_emitted; [done..|].
  apply Hall. by apply tc_dependsOn_keys in Hcycle as [? _].
Qed.

(** The labels left with a positive in-degree are labels of the list,
    and the labels on a cycle are among them. *)
Lemma unresolved_labels declareBlocks :
  (forall x, x ∈ unresolved (remainingInDegree declareBlocks) ->
             x ∈ Label <$> declareBlocks) /\
  (forall x, tc (dependsOn declareBlocks) x x ->
             x ∈ unresolved (remainingInDegree declareBlocks)).
Proof.
  destruct (SortDeclareBlocks_outcome declareBlocks)
    as (ind & emitted & Hinv & Hrem & _).
  destruct (unresolved_spec ind) as (_ & _ & Hmem). rewrite Hrem. split.
  - intros x Hx%Hmem. rewrite (inv_pending _ _ _ _ _ Hinv) in Hx.
    destruct (pending _ emitted x) as [|[d l] p] eqn:Hp; [simpl in Hx; lia|].
    assert ((d, l) ∈ pending (edgesOf declareBlocks (blockByLabelOf declareBlocks))
              emitted x) as Hin by (rewrite Hp; by left).
    apply list_elem_of_filter in Hin as [[Hl _] Hin]. simpl in Hl. subst l.
    apply edgesOf_keys in Hin as [_ Hk].
    by rewrite blockByLabelOf_dom, elem_of_list_to_set in Hk.
  - intros x Hx. apply Hmem.
    pose proof (cycle_not_emitted _ _ _ _ Hinv Hx) as Hnot.
    apply tc_dependsOn_keys in Hx as [Hk _].
    pose proof (inv_zero _ _ _ _ _ Hinv x Hk) as Hz. rewrite app_nil_r in Hz.
    pose proof (inv_pending _ _ _ _ _ Hinv x) as Hpend.
    destruct (decide (getInt ind x = 0%Z)) as [Hx0|Hx0]; [by apply Hz in Hx0|lia].
Qed.

(** C6.  When the label-dependency graph has a cycle, [SortDeclareBlocks]
    returns the nil list and a single error diagnostic whose message
    lists, in ascending lexicographic order and without repetition, the
    labels whose remaining in-degree is positive; they are labels of the
    list, and every label on a cycle is among them. *)
Theorem SortDeclareBlocks_cycle declareBlocks :
  (exists label, tc (dependsOn declareBlocks) label label) ->
  exists unresolvedLabels,
    SortDeclareBlocks declareBlocks =
      Some ([], [MkDiagnostic SeverityLevelError
                   ("Detected a cycle in declare dependencies; cannot sort: "
                      +:+ formatStrings unresolvedLabels) None None]) /\
    Sorted string_le unresolvedLabels /\
    NoDup unresolvedLabels /\
    (forall x, x ∈ unresolvedLabels <->
               (0 < getInt (remainingInDegree declareBlocks) x)%Z) /\
    (forall x, x ∈ unresolvedLabels -> x ∈ Label <$> declareBlocks) /\
    (forall x, tc (dependsOn declareBlocks) x x -> x ∈ unresolvedLabels).
Proof.
  intros Hcycle.
  destruct (unresolved_spec (remainingInDegree declareBlocks))
    as (Hsorted & Hnd & Hmem).
  destruct (unresolved_labels declareBlocks) as [Hlabels Hcycles].
  exists (unresolved (remainingInDegree declareBlocks)).
  split; [by apply cycle_outcome|].
  split; [done|]. split; [done|]. split; [done|]. by split.
Qed.

(** C7.  For a declare block [A] of the list, [findDeclareDependencies]
    with the label map of the list reports the label of [A] for a block
    [B] exactly when the body of [B] references a block of that name,
    directly or inside nested declare blocks. *)
Theorem findDeclareDependencies_exactly declareBlocks (A B : BlockStmt) :
  A ∈ declareBlocks ->
  Label A ∈ findDeclareDependencies B (blockByLabelOf declareBlocks) <->
  references (Body B) (Label A).
Proof.
  intros HA. rewrite findDeclareDependencies_references.
  assert (is_Some (blockByLabelOf declareBlocks !! Label A)) as Hsome.
  { apply elem_of_dom. rewrite blockByLabelOf_dom, elem_of_list_to_set.
    apply list_elem_of_fmap. eauto. }
  tauto.
Qed.

End Claims.

Import declare_examples.

Lemma SortDeclareBlocks_acyclic_witness :
  acyclic [declareC; declareB; declareA] /\
  exists sortedList,
    SortDeclareBlocks [declareC; declareB; declareA] = Some (sortedList, []) /\
    NoDup (Label <$> sortedList) /\
    (forall label, label ∈ Label <$> sortedList <->
                   label ∈ Label <$> [declareC; declareB; declareA]) /\
    (forall b, b ∈ sortedList ->
               lastWithLabel [declareC; declareB; declareA] (Label b) = Some b) /\
    (forall i b dep,
        sortedList !! i = Some b ->
        dependsOn [declareC; declareB; declareA] (Label b) dep ->
        exists j a, j < i /\ sortedList !! j = Some a /\ Label a = dep).
Proof.
  assert (acyclic [declareC; declareB; declareA]) as Hacyc.
  { apply (ranked_acyclic _ rankABC). vm_compute. reflexivity. }
  split; [exact Hacyc|].
  exact (SortDeclareBlocks_acyclic [declareC; declareB; declareA] Hacyc).
Defined.

Lemma cyclicAB_cycle : exists label, tc (dependsOn [cyclicA; cyclicB]) label label.
Proof.
  exists "a". apply tc_l with "b"; [|apply tc_once];
    apply dependsOn_edges; vm_compute; repeat constructor.
Qed.

Lemma SortDeclareBlocks_cycle_witness :
  (exists label, tc (dependsOn [cyclicA; cyclicB]) label label) /\
  exists unresolvedLabels,
    SortDeclareBlocks [cyclicA; cyclicB] =
      Some ([], [MkDiagnostic SeverityLevelError
                   ("Detected a cycle in declare dependencies; cannot sort: "
                      +:+ formatStrings unresolvedLabels) None None]) /\
    Sorted string_le unresolvedLabels /\
    NoDup unresolvedLabels /\
    (forall x, x ∈ unresolvedLabels <->
               (0 < getInt (remainingInDegree [cyclicA; cyclicB]) x)%Z) /\
    (forall x, x ∈ unresolvedLabels -> x ∈ Label <$> [cyclicA; cyclicB]) /\
    (forall x, tc (dependsOn [cyclicA; cyclicB]) x x -> x ∈ unresolvedLabels).
Proof.
  split; [exact cyclicAB_cycle|].
  exact (SortDeclareBlocks_cycle [cyclicA; cyclicB] cyclicAB_cycle).
Defined.

(** The three blocks of the example come out as [a], [b], [c]... *)
Example SortDeclareBlocks_chain :
  SortDeclareBlocks [declareC; declareB; declareA]
  = Some ([declareA; declareB; declareC], []) /\
  SortDeclareBlocks (H := reverseRange) [declareC; declareB; declareA]
  = Some ([declareA; declareB; declareC], []).
Proof. split; vm_compute; reflexivity. Qed.

(** ... and the two blocks that reference each other are reported as
    [[a b]], whatever the order in which the maps are visited. *)
Example SortDeclareBlocks_mutual `{MapRange} :
  SortDeclareBlocks [cyclicA; cyclicB] =
  Some ([], [errorMsg
               "Detected a cycle in declare dependencies; cannot sort: [a b]"]).
Proof.
  rewrite (cycle_outcome _ cyclicAB_cycle).
  destruct (unresolved_spec (remainingInDegree [cyclicA; cyclicB]))
    as (Hsorted & Hnd & _).
  destruct (unresolved_labels [cyclicA; cyclicB]) as [Hsub Hcyc].
  unfold cycleDiagnostic, errorMsg.
  generalize dependent (unresolved (remainingInDegree [cyclicA; cyclicB])).
  intros L Hsorted Hnd Hsub Hcyc.
  assert ("a" ∈ L) as Ha.
  { apply Hcyc. apply tc_l with "b"; [|apply tc_once];
      apply dependsOn_edges; vm_compute; repeat constructor. }
  assert ("b" ∈ L) as Hb.
  { apply Hcyc. apply tc_l with "a"; [|apply tc_once];
      apply dependsOn_edges; vm_compute; repeat constructor. }
  assert (forall x, x ∈ L -> x = "a" \/ x = "b") as Hab.
  { intros x Hx%Hsub. simpl in Hx. rewrite !elem_of_cons, elem_of_nil in Hx. tauto. }
  assert (L = ["a"; "b"]) as ->; [|done].
  destruct L as [|x L]; [by apply elem_of_nil in Ha|].
  destruct L as [|y L].
  { apply list_elem_of_singleton in Ha, Hb. congruence. }
  apply NoDup_cons in Hnd as [Hxy Hnd]. apply NoDup_cons in Hnd as [Hy Hnd].
  destruct L as [|z L].
  - destruct (Hab x) as [->| ->]; [by left| |];
      (destruct (Hab y) as [->| ->]; [right; by left| |]);
      try done; try (exfalso; apply Hxy; by left).
    inversion Hsorted as [|? ? _ Hhd]; subst. inversion Hhd as [|? ? Hle]; subst.
    vm_compute in Hle. done.
  - exfalso.
    destruct (Hab x) as [->| ->]; [by left| |];
      (destruct (Hab y) as [->| ->]; [right; by left| |]);
      (destruct (Hab z) as [->| ->]; [right; right; by left| |]);
      first [ apply Hxy; by left | apply Hxy; right; by left | apply Hy; by left ].
Qed.

Lemma findDeclareDependencies_exactly_witness :
  declareB ∈ [declareC; declareB; declareA] /\
  (Label declareB
     ∈ findDeclareDependencies declareC (blockByLabelOf [declareC; declareB; declareA]) <->
   references (Body declareC) (Label declareB)).
Proof.
  assert (declareB ∈ [declareC; declareB; declareA]) as Hin by (right; left).
  split; [exact Hin|].
  exact (findDeclareDependencies_exactly
           [declareC; declareB; declareA] declareB declareC Hin).
Defined.


(** The list with the duplicated label [a]: the later block is kept, and
    the dependency of the earlier one on [b] still counts (here it closes
    a cycle). *)
Example SortDeclareBlocks_duplicate :
  SortDeclareBlocks [declareA0; declareB; declareA]
  = Some ([declareA; declareB], []) /\
  SortDeclareBlocks [declareA'; declareB; declareA]
  = Some ([], [errorMsg
                 "Detected a cycle in declare dependencies; cannot sort: [a b]"]).
Proof. split; vm_compute; reflexivity. Qed.
End declare_facts.

(** * Properties of the submission of dependants *)
Module scheduling_facts.
Import scheduling scheduling_spec.




(** While the upper end of the range is below the maximum, both ends
    double with every retry. *)
Lemma NextDelay_doubles b r :
  (nextDelayMin b < nextDelayMax b < MaxBackoff (cfg b))%Z ->
  nextDelayMin (snd (NextDelay b r)) = doubleDuration (nextDelayMin b) (MaxBackoff (cfg b)) /\
  nextDelayMax (snd (NextDelay b r)) = doubleDuration (nextDelayMax b) (MaxBackoff (cfg b)).
Proof.
  intros [Hlt Hmax]. unfold NextDelay.
  rewrite (proj2 (Z.leb_gt _ _)) by lia. rewrite (proj2 (Z.ltb_lt _ _)) by lia. done.
Qed.

Section Retry.
Variable out : Outside.
Variable c : nat.
Hypothesis cancelled : forall k, c <= k -> contextDone out k = true.




End Retry.

Section Claim.
Context `{MapRange}.

End Claim.

End scheduling_facts.

(** * Properties of graph construction and of [Apply] *)
Module apply_facts.
Import apply_spec declare declare_spec.

Lemma fold_left_preserves {A B} (P : A -> Prop) (f : A -> B -> A) (xs : list B) a :
  P a -> (forall a b, P a -> P (f a b)) -> P (fold_left f xs a).
Proof. revert a. induction xs as [|x xs IH]; intros a Ha Hf; simpl; auto. Qed.

(** *** How the store evolves *)

Lemma UpdateBlock_block o : UpdateBlock (block o) o = o.
Proof. by destruct o. Qed.

Lemma UpdateBlock_UpdateBlock b1 b2 o :
  UpdateBlock b2 (UpdateBlock b1 o) = UpdateBlock b2 o.
Proof. done. Qed.

Lemma evolves_refl s : evolves s s.
Proof.
  intros Hwf. split; [done|]. split; [done|].
  intros n o Hn. exists (block o). by rewrite UpdateBlock_block.
Qed.

Lemma evolves_trans s1 s2 s3 : evolves s1 s2 -> evolves s2 s3 -> evolves s1 s3.
Proof.
  intros H12 H23 Hwf. destruct (H12 Hwf) as (Hwf2 & Hle12 & Hobj12).
  destruct (H23 Hwf2) as (Hwf3 & Hle23 & Hobj23).
  split; [done|]. split; [lia|].
  intros n o Hn. destruct (Hobj12 n o Hn) as [b1 Hb1].
  destruct (Hobj23 _ _ Hb1) as [b2 Hb2]. exists b2.
  by rewrite Hb2, UpdateBlock_UpdateBlock.
Qed.

Lemma evolves_new o s n s' : new o s = (n, s') -> evolves s s'.
Proof.
  unfold new. intros [= <- <-] Hwf. split; [|split].
  - intros n. simpl. rewrite lookup_insert.
    case_decide; [subst; lia|]. intros Hn%Hwf. lia.
  - simpl. lia.
  - intros n o' Hn. simpl. exists (block o').
    rewrite UpdateBlock_block, lookup_insert_ne; [done|].
    intros <-. assert (nextNode s < nextNode s); [by apply Hwf|lia].
Qed.

Lemma evolves_update n b s : evolves s (update n (UpdateBlock b) s).
Proof.
  intros Hwf. split; [|split].
  - intros m. simpl. rewrite lookup_alter.
    case_decide; [subst|]; rewrite ?fmap_is_Some; apply Hwf.
  - simpl. lia.
  - intros m o Hm. simpl. rewrite lookup_alter. case_decide.
    + subst. rewrite Hm. simpl. by exists b.
    + exists (block o). by rewrite UpdateBlock_block.
Qed.

Lemma sameInstalled_refl l : sameInstalled l l.
Proof. by repeat split. Qed.

Lemma sameInstalled_trans l1 l2 l3 :
  sameInstalled l1 l2 -> sameInstalled l2 l3 -> sameInstalled l1 l3.
Proof. unfold sameInstalled. intuition congruence. Qed.

Lemma builds_refl l : builds l l.
Proof. split; [apply sameInstalled_refl|apply evolves_refl]. Qed.

Lemma builds_trans l1 l2 l3 : builds l1 l2 -> builds l2 l3 -> builds l1 l3.
Proof.
  intros [? ?] [? ?]. split; eauto using sameInstalled_trans, evolves_trans.
Qed.

Lemma builds_setStore l s : evolves (store l) s -> builds l (setStore s l).
Proof. intros Hs. split; [by repeat split|done]. Qed.

Lemma builds_setOriginalGraph l g : builds l (setOriginalGraph g l).
Proof. split; [by repeat split|apply evolves_refl]. Qed.

Lemma builds_new l o n s : new o (store l) = (n, s) -> builds l (setStore s l).
Proof. intros Hn. apply builds_setStore. by eapply evolves_new. Qed.

Lemma builds_update l n b : builds l (setStore (update n (UpdateBlock b) (store l)) l).
Proof. apply builds_setStore, evolves_update. Qed.

Lemma builds_new_update l o n s m b :
  new o (store l) = (n, s) -> builds l (setStore (update m (UpdateBlock b) s) l).
Proof.
  intros Hn. apply builds_setStore.
  eapply evolves_trans; [by eapply evolves_new|apply evolves_update].
Qed.

Create HintDb frame.
#[local] Hint Resolve builds_refl builds_setOriginalGraph builds_new builds_update
  builds_new_update : frame.
#[local] Hint Extern 2 (builds _ _) =>
  (eapply builds_trans; [eassumption|]) : frame.

Ltac frame := repeat (case_match; simpl in *; simplify_eq); eauto with frame.

Section Frame.
Context `{MapRange}.
Variable env : Collaborators.

Lemma populateService_frame l0 st svc :
  builds l0 st.1.1 -> builds l0 (populateService st svc).1.1.
Proof. destruct st as [[l g] d]. unfold populateService. simpl. intros. frame. Qed.

Lemma assignServiceBlock_frame l0 st b :
  builds l0 st.1.1 -> builds l0 (assignServiceBlock st b).1.1.
Proof. destruct st as [[l g] d]. unfold assignServiceBlock. simpl. intros. frame. Qed.

Lemma populateServiceNodes_frame l g bs :
  builds l (populateServiceNodes env l g bs).1.1.
Proof.
  unfold populateServiceNodes.
  apply fold_left_preserves; [|intros; by apply assignServiceBlock_frame].
  apply fold_left_preserves; [|intros; by apply populateService_frame].
  simpl. auto with frame.
Qed.

Lemma populateConfigBlock_frame l0 st b :
  builds l0 st.1.1.1 -> builds l0 (populateConfigBlock env st b).1.1.1.
Proof.
  destruct st as [[[l g] d] m]. unfold populateConfigBlock. simpl. intros. frame.
Qed.

Lemma addDefault_frame o st : builds st.1 (addDefault o st).1.
Proof. destruct st as [l g]. unfold addDefault. simpl. frame. Qed.

Lemma populateConfigBlockNodes_frame l args g bs inModule :
  builds l (populateConfigBlockNodes env l args g bs inModule).1.1.
Proof.
  unfold populateConfigBlockNodes.
  pose proof (fold_left_preserves (fun st => builds l st.1.1.1)
                (populateConfigBlock env) bs (l, g, [], [])) as Hfold.
  destruct (fold_left _ bs _) as [[[l1 g1] d1] m1].
  assert (builds l l1) as H1.
  { apply Hfold; [simpl; auto with frame|]. intros. by apply populateConfigBlock_frame. }
  clear Hfold.
  destruct (negb (hasConfig LoggingConfig m1) && negb inModule).
  - pose proof (addDefault_frame NewDefaultLoggingConfigNode (l1, g1)) as H2.
    destruct (addDefault NewDefaultLoggingConfigNode (l1, g1)) as [l2 g2].
    destruct (negb (hasConfig TracingConfig m1) && negb inModule).
    + pose proof (addDefault_frame NewDefaulTracingConfigNode (l2, g2)) as H3.
      destruct (addDefault NewDefaulTracingConfigNode (l2, g2)) as [l3 g3].
      simpl in *. eauto using builds_trans.
    + simpl in *. eauto using builds_trans.
  - destruct (negb (hasConfig TracingConfig m1) && negb inModule).
    + pose proof (addDefault_frame NewDefaulTracingConfigNode (l1, g1)) as H3.
      destruct (addDefault NewDefaulTracingConfigNode (l1, g1)) as [l3 g3].
      simpl in *. eauto using builds_trans.
    + done.
Qed.

Lemma mergeNode_frame l0 st n :
  builds l0 st.1 -> builds l0 (mergeNode st n).1.
Proof. destruct st as [l g]. unfold mergeNode. simpl. intros. frame. Qed.

Lemma MergeSubgraph_frame l new sub :
  builds l (MergeSubgraph l new sub).1.
Proof.
  unfold MergeSubgraph.
  pose proof (fold_left_preserves (fun st => builds l st.1)
                mergeNode (Nodes sub) (l, new)) as Hfold.
  destruct (fold_left _ _ _) as [l1 g1]. simpl in *.
  apply Hfold; [auto with frame|]. intros. by apply mergeNode_frame.
Qed.

Lemma cloneNode_evolves ns s0 st n :
  evolves s0 st.2 -> evolves s0 (cloneNode ns st n).2.
Proof.
  destruct st as [[r g] s]. unfold cloneNode. simpl. intros Hs.
  destruct (objects s !! n) as [o|]; [|done].
  destruct (new (cloneObject ns o) s) as [n' s'] eqn:Hnew. simpl.
  eapply evolves_trans; [exact Hs|by eapply evolves_new].
Qed.

Lemma DeepClone_evolves template ns s :
  evolves s (DeepClone template ns s).2.
Proof.
  unfold DeepClone.
  pose proof (fold_left_preserves (fun st => evolves s st.2)
                (cloneNode ns) (Nodes template) (∅, emptyGraph, s)) as Hfold.
  destruct (fold_left _ _ _) as [[r g] s']. simpl in *.
  apply Hfold; [apply evolves_refl|]. intros. by apply cloneNode_evolves.
Qed.

Lemma populateComponentNode_frame l0 templates st b :
  builds l0 (pLoader st) ->
  builds l0 (pLoader (populateComponentNode env templates st b)).
Proof.
  destruct st as [l g m d]. unfold populateComponentNode. simpl. intros Hl.
  repeat (case_match; simpl in *; simplify_eq); eauto with frame.
  match goal with
  | Hm : MergeSubgraph ?l1 ?g1 ?sub = _, Hc : DeepClone ?t ?id ?s0 = _ |- _ =>
      pose proof (MergeSubgraph_frame l1 g1 sub) as Hmerge; rewrite Hm in Hmerge;
      pose proof (DeepClone_evolves t id s0) as Hclone; rewrite Hc in Hclone
  end.
  simpl in *. eapply builds_trans; [exact Hl|].
  eapply builds_trans; [apply builds_setStore, Hclone|].
  eapply builds_trans; [exact Hmerge|]. by eapply builds_new.
Qed.

Lemma populateComponentNodes_frame l g bs nt :
  builds l (populateComponentNodes env l g bs nt).1.1.
Proof.
  unfold populateComponentNodes.
  destruct (RetrieveAvailableTemplates nt) as [templates err].
  destruct err; simpl;
    (apply (fold_left_preserves (fun st => builds l (pLoader st)));
     [simpl; auto with frame|intros; by apply populateComponentNode_frame]).
Qed.
End Frame.

(** *** Recursion through declare bodies *)

Lemma blockDepth_unfold b :
  blockDepth b =
  S (fold_right Nat.max 0
       ((fun s => match s with BlockStmtS c => blockDepth c | _ => 0 end) <$> Body b)).
Proof.
  destruct b as [n l p body]. simpl. f_equal.
  induction body as [|s body IH]; [done|].
  destruct s; simpl; by rewrite IH.
Qed.

Lemma blocksDepth_elem_of b bs : b ∈ bs -> blockDepth b <= blocksDepth bs.
Proof.
  unfold blocksDepth. induction 1 as [b bs|b c bs _ IH]; csimpl in *; lia.
Qed.

Lemma blocksDepth_le bs k :
  (forall b, b ∈ bs -> blockDepth b <= k) -> blocksDepth bs <= k.
Proof.
  unfold blocksDepth. induction bs as [|b bs IH]; intros Hk; csimpl; [lia|].
  apply Nat.max_lub; [apply Hk; by left|]. apply IH. intros c Hc. apply Hk. by right.
Qed.

Lemma CategorizeStatements_declares body components configs declares :
  CategorizeStatements body = inl (components, configs, declares) ->
  forall b, b ∈ declares -> BlockStmtS b ∈ body.
Proof.
  revert components configs declares.
  induction body as [|s body IH]; intros components configs declares Hcat b Hb.
  - simpl in Hcat. simplify_eq. by apply elem_of_nil in Hb.
  - destruct s as [|c]; simpl in Hcat; [done|].
    destruct (CategorizeStatements body) as [[[cs fs] ds]|] eqn:Hrest; [|done].
    repeat case_decide; repeat case_match; simplify_eq.
    + apply elem_of_cons in Hb as [->|Hb]; [by left|]. right. by eapply IH.
    + right. by eapply IH.
    + right. by eapply IH.
Qed.

Lemma CategorizeStatements_depth b components configs declares :
  CategorizeStatements (Body b) = inl (components, configs, declares) ->
  blocksDepth declares < blockDepth b.
Proof.
  intros Hcat. rewrite blockDepth_unfold. apply Nat.lt_succ_r, blocksDepth_le.
  intros c Hc. apply (CategorizeStatements_declares _ _ _ _ Hcat) in Hc.
  clear Hcat. induction (Body b) as [|s body IH]; [by apply elem_of_nil in Hc|].
  apply elem_of_cons in Hc as [<-|Hc]; csimpl; [lia|].
  specialize (IH Hc). lia.
Qed.

Section Recursion.
Context `{MapRange}.
Variable env : Collaborators.

Lemma SortDeclareBlocks_subset bs sorted diags :
  SortDeclareBlocks bs = Some (sorted, diags) -> forall b, b ∈ sorted -> b ∈ bs.
Proof.
  intros Hsort b Hb.
  destruct (declare_facts.SortDeclareBlocks_outcome bs)
    as (ind & emitted & Hinv & _ & [[_ Heq]|[_ Heq]]);
    rewrite Heq in Hsort; simplify_eq; [|by apply elem_of_nil in Hb].
  apply (declare_facts.sorted_blocks_spec _ _ _ Hinv) in Hb.
  by apply declare_facts.lastWithLabel_Some in Hb as [? _].
Qed.

Lemma populateDeclareBlocks_total rec bs k :
  (forall l components configs declares nt,
      blocksDepth declares < k -> is_Some (rec l components configs declares nt)) ->
  (forall b, b ∈ bs -> blockDepth b <= k) ->
  forall st, is_Some (fold_left (populateDeclareBlock rec) bs (Some st)).
Proof.
  intros Hrec. induction bs as [|b bs IH]; intros Hk st; [by eexists|].
  simpl. destruct st as [[l nt] diags].
  destruct (CategorizeStatements (Body b)) as [[[cs fs] ds]|err] eqn:Hcat.
  - destruct (Hrec l cs fs ds nt) as [[[l' g'] d'] ->].
    { apply CategorizeStatements_depth in Hcat.
      specialize (Hk b (list_elem_of_here _ _)). lia. }
    destruct d'; apply IH; intros; apply Hk; by right.
  - apply IH. intros; apply Hk; by right.
Qed.

Lemma populateDeclareBlocks_frame rec bs l0 :
  (forall l components configs declares nt l' g d,
      rec l components configs declares nt = Some (l', g, d) -> builds l l') ->
  forall st l' nt' d',
    builds l0 st.1.1 ->
    fold_left (populateDeclareBlock rec) bs (Some st) = Some (l', nt', d') ->
    builds l0 l'.
Proof.
  intros Hrec. induction bs as [|b bs IH]; intros st l' nt' d' Hst Hfold.
  - simpl in Hfold. by simplify_eq.
  - simpl in Hfold. destruct st as [[l nt] diags]. simpl in *.
    destruct (CategorizeStatements (Body b)) as [[[cs fs] ds]|err] eqn:Hcat.
    + destruct (rec l cs fs ds nt) as [[[l1 g1] d1]|] eqn:Hcall.
      * apply Hrec in Hcall.
        destruct d1; (eapply IH; [|exact Hfold]); simpl;
          by eapply builds_trans.
      * assert (forall xs, fold_left (populateDeclareBlock rec) xs None = None) as Hnone
            by (induction xs; auto).
        by rewrite Hnone in Hfold.
    + eapply IH; [|exact Hfold]. done.
Qed.

Lemma wireNewGraph_total rec l args cbs fbs dbs inModule inDeclare parent :
  (forall l components configs declares nt,
      blocksDepth declares < blocksDepth dbs ->
      is_Some (rec l components configs declares nt)) ->
  is_Some (wireNewGraph env rec l args cbs fbs dbs inModule inDeclare parent).
Proof.
  intros Hrec. unfold wireNewGraph.
  destruct (splitComponentBlocks env cbs) as [cs ss].
  destruct (if inDeclare then _ else _) as [[l1 g1] d1].
  destruct (populateConfigBlockNodes env l1 args g1 fbs inModule) as [[l2 g2] d2].
  destruct (declare_facts.SortDeclareBlocks_total dbs) as [[sorted sd] Hsort].
  rewrite Hsort.
  assert (forall b, b ∈ sorted -> blockDepth b <= blocksDepth dbs) as Hk.
  { intros b Hb. apply blocksDepth_elem_of. by eapply SortDeclareBlocks_subset. }
  pose proof (populateDeclareBlocks_total rec sorted (blocksDepth dbs) Hrec Hk
                (l2, NewNodeTemplates parent, [])) as Hfold.
  unfold Diagnostics in *.
  destruct (fold_left _ sorted _) as [[[l3 nt3] d3]|]; [|by destruct Hfold].
  destruct (populateComponentNodes env l3 g2 cs nt3) as [[l4 g4] d4].
  destruct (wireGraphEdges env l4 g4). by eexists.
Qed.

Lemma wireNewGraph_frame rec l args cbs fbs dbs inModule inDeclare parent l' g d :
  (forall l components configs declares nt l' g d,
      rec l components configs declares nt = Some (l', g, d) -> builds l l') ->
  wireNewGraph env rec l args cbs fbs dbs inModule inDeclare parent = Some (l', g, d) ->
  builds l l'.
Proof.
  intros Hrec. unfold wireNewGraph.
  destruct (splitComponentBlocks env cbs) as [cs ss].
  assert (builds l
            (if inDeclare then (l, emptyGraph, @nil Diagnostic)
             else populateServiceNodes env l emptyGraph ss).1.1) as H1.
  { destruct inDeclare; [apply builds_refl|apply populateServiceNodes_frame]. }
  destruct (if inDeclare then _ else _) as [[l1 g1] d1]. simpl in H1.
  pose proof (populateConfigBlockNodes_frame env l1 args g1 fbs inModule) as H2.
  destruct (populateConfigBlockNodes env l1 args g1 fbs inModule) as [[l2 g2] d2].
  simpl in H2.
  destruct (SortDeclareBlocks dbs) as [[sorted sd]|]; [|done].
  destruct (fold_left _ sorted _) as [[[l3 nt3] d3]|] eqn:Hfold; [|done].
  apply (populateDeclareBlocks_frame rec sorted l2 Hrec) in Hfold;
    [|apply builds_refl].
  pose proof (populateComponentNodes_frame env l3 g2 cs nt3) as H4.
  destruct (populateComponentNodes env l3 g2 cs nt3) as [[l4 g4] d4]. simpl in H4.
  destruct (wireGraphEdges env l4 g4). intros ?. simplify_eq.
  eauto using builds_trans.
Qed.

Lemma validateAndReduce_frame l g d :
  builds l (validateAndReduce l g d).1.1.
Proof.
  unfold validateAndReduce. destruct (Validate _ g); simpl;
    [apply builds_setOriginalGraph|apply builds_refl].
Qed.

Lemma loadNewGraph_total fuel :
  forall l args cbs fbs dbs inModule inDeclare parent,
    blocksDepth dbs < fuel ->
    is_Some (loadNewGraph env fuel l args cbs fbs dbs inModule inDeclare parent).
Proof.
  induction fuel as [|fuel IH]; intros l args cbs fbs dbs inModule inDeclare parent Hd;
    [lia|].
  simpl.
  destruct (wireNewGraph_total
              (fun l components configs declares nt =>
                 loadNewGraph env fuel l ∅ components configs declares
                              true true (Some nt))
              l args cbs fbs dbs inModule inDeclare parent) as [[[l' g'] d'] Hw].
  { intros. apply IH. lia. }
  rewrite Hw. by eexists.
Qed.

Lemma loadNewGraph_frame fuel :
  forall l args cbs fbs dbs inModule inDeclare parent l' g d,
    loadNewGraph env fuel l args cbs fbs dbs inModule inDeclare parent = Some (l', g, d) ->
    builds l l'.
Proof.
  induction fuel as [|fuel IH];
    intros l args cbs fbs dbs inModule inDeclare parent l' g d Hload; [done|].
  simpl in Hload.
  destruct (wireNewGraph env _ l args cbs fbs dbs inModule inDeclare parent)
    as [[[l1 g1] d1]|] eqn:Hw; [|done].
  apply wireNewGraph_frame in Hw; [|intros; by eapply IH].
  pose proof (validateAndReduce_frame l1 g1 d1) as Hv.
  simplify_eq. rewrite Hload in Hv. simpl in Hv.
  by eapply builds_trans.
Qed.
End Recursion.

Section ApplyOutcome.
Context `{MapRange}.
Variable env : Collaborators.

Lemma cacheModuleArguments_installed l args :
  graph (cacheModuleArguments l args) = graph l /\
  componentNodes (cacheModuleArguments l args) = componentNodes l /\
  serviceNodes (cacheModuleArguments l args) = serviceNodes l /\
  blocks (cacheModuleArguments l args) = blocks l /\
  evaluated (cacheModuleArguments l args) = evaluated l /\
  notified (cacheModuleArguments l args) = notified l /\
  store (cacheModuleArguments l args) = store l.
Proof. by repeat split. Qed.

Lemma HasErrors_app ds1 ds2 :
  HasErrors (ds1 ++ ds2) = HasErrors ds1 || HasErrors ds2.
Proof. unfold HasErrors. apply existsb_app. Qed.

Lemma HasErrors_multierrToDiags err : err ≠ [] -> HasErrors (multierrToDiags err) = true.
Proof. destruct err; [done|]. reflexivity. Qed.

(** [Apply] in terms of the wired graph. *)
Lemma Apply_unfold l args cbs fbs dbs :
  Apply env l args cbs fbs dbs =
  match wiredGraph env l args cbs fbs dbs with
  | None => None
  | Some (l1, g, diags) =>
      let '(l2, newGraph, diags) := validateAndReduce l1 g diags in
      if HasErrors diags then Some (diags, l2)
      else
        let l := setCache (ClearModuleExports (cache l2)) l2 in
        let w := fold_left (evaluateNode env)
                           (WalkTopological newGraph (Leaves newGraph))
                           (MkWalking l diags [] [] [] [] [] []) in
        let l := install newGraph (components w) (wServices w) cbs (wLoader w) in
        let c := SyncNamespaces (namespaces w)
                   (SyncDeclareExportIDs (exportIDs w)
                      (SyncDeclareIDs (declareIDs w)
                         (SyncIDs (componentIDs w) (cache l)))) in
        Some (wDiags w, notifyParent env (setCache c l))
  end.
Proof.
  unfold Apply, wiredGraph. simpl.
  destruct (wireNewGraph env _ (cacheModuleArguments l args) args cbs fbs dbs
              (isModule env) false None) as [[[l1 g] d]|]; [|done].
  by destruct (validateAndReduce l1 g d) as [[l2 g2] d2].
Qed.

Lemma wiredGraph_total l args cbs fbs dbs :
  is_Some (wiredGraph env l args cbs fbs dbs).
Proof.
  unfold wiredGraph. apply wireNewGraph_total.
  intros. by apply loadNewGraph_total.
Qed.

Lemma wiredGraph_builds l args cbs fbs dbs l1 g diags :
  wiredGraph env l args cbs fbs dbs = Some (l1, g, diags) ->
  builds (cacheModuleArguments l args) l1.
Proof.
  unfold wiredGraph. intros Hw. eapply wireNewGraph_frame; [|exact Hw].
  simpl. intros ? ? ? ? ? ? ? ? Hload. by eapply loadNewGraph_frame.
Qed.

End ApplyOutcome.

(** *** A block of an unregistered type *)

Section Unrecognized.
Context `{MapRange}.
Variable env : Collaborators.
Variable templates : gmap string Graph.
Variable b : BlockStmt.
Hypothesis b_label : Label b ≠ "".
Hypothesis b_template : templates !! GetBlockName b = None.
Hypothesis b_registry : componentRegGet env (GetBlockName b) = None.




Lemma blockMap_fold cs st id :
  (forall c, c ∈ cs -> BlockComponentID c ≠ id) ->
  blockMap (fold_left (populateComponentNode env templates) cs st) !! id
  = blockMap st !! id.
Proof.
  revert st. induction cs as [|c cs IH]; intros st Hne; [done|].
  simpl. rewrite IH by (intros; apply Hne; by right).
  assert (BlockComponentID c ≠ id) as Hc by (apply Hne; by left).
  destruct st as [l g m d]. unfold populateComponentNode.
  repeat case_match; simplify_eq; simpl; by rewrite ?lookup_insert_ne.
Qed.


End Unrecognized.

Lemma HasErrors_elem_of d ds : d ∈ ds -> isError d = true -> HasErrors ds = true.
Proof.
  intros Hd He. unfold HasErrors. apply existsb_exists. exists d.
  split; [by apply list_elem_of_In|done].
Qed.

Section UnrecognizedApply.
Context `{MapRange}.
Variable env : Collaborators.




End UnrecognizedApply.

(** *** Reuse of the nodes of the previous graph *)

Lemma Add_nodes_mono id m g n : n ∈ nodes g -> n ∈ nodes (Add id m g).
Proof. unfold Add. simpl. case_decide; [done|]. intros. apply elem_of_app. by left. Qed.

Lemma Add_nodes_elem id m g : m ∈ nodes (Add id m g).
Proof. unfold Add. simpl. case_decide; [done|]. apply elem_of_app. right. by left. Qed.

Lemma AddEdge_nodes e g : nodes (AddEdge e g) = nodes g.
Proof. done. Qed.

Lemma MergeEdges_nodes other g : nodes (MergeEdges other g) = nodes g.
Proof.
  unfold MergeEdges. revert g. induction (edges other) as [|e es IH]; intros g; [done|].
  simpl. by rewrite IH.
Qed.

Lemma hasKind_blocksOnly s s' n o :
  blocksOnly s s' -> objects s !! n = Some o ->
  hasKind isComponentNode s' n = isComponentNode o.
Proof.
  intros [_ Hobj] Hn. destruct (Hobj n o Hn) as [b Hb].
  unfold hasKind. by rewrite Hb.
Qed.

Section Reuse.
Context `{MapRange}.
Variable env : Collaborators.

Lemma mergeNode_nodes_mono st node n :
  n ∈ nodes st.2 -> n ∈ nodes (mergeNode st node).2.
Proof.
  destruct st as [l g]. unfold mergeNode, addNode. cbn [fst snd]. intros Hn.
  repeat case_match; cbn [fst snd]; by apply Add_nodes_mono.
Qed.

Lemma mergeNodes_nodes_mono ns st n :
  n ∈ nodes st.2 -> n ∈ nodes (fold_left mergeNode ns st).2.
Proof.
  revert st. induction ns as [|m ns IH]; intros st Hn; [done|].
  simpl. by apply IH, mergeNode_nodes_mono.
Qed.

Lemma MergeSubgraph_nodes_mono l new sub n :
  n ∈ nodes new -> n ∈ nodes (MergeSubgraph l new sub).2.
Proof.
  unfold MergeSubgraph. intros Hn.
  pose proof (mergeNodes_nodes_mono (Nodes sub) (l, new) n Hn) as Hm.
  destruct (fold_left mergeNode (Nodes sub) (l, new)) as [l1 g1]. simpl in *.
  by rewrite MergeEdges_nodes.
Qed.

Lemma connectArguments_nodes s id d ns g :
  nodes (fold_left (connectArguments s id d) ns g) = nodes g.
Proof.
  revert g. induction ns as [|n ns IH]; intros g; [done|].
  simpl. rewrite IH. unfold connectArguments. by case_match.
Qed.

Lemma populateComponentNode_nodes_mono templates st x n :
  n ∈ nodes (pGraph st) ->
  n ∈ nodes (pGraph (populateComponentNode env templates st x)).
Proof.
  destruct st as [l g m d]. unfold populateComponentNode, addNode.
  cbn [pGraph]. intros Hn.
  repeat (case_match; cbn [pGraph]; simplify_eq); try done;
    try by apply Add_nodes_mono.
  rewrite connectArguments_nodes. apply Add_nodes_mono.
  match goal with
  | Hm : MergeSubgraph ?l1 ?g1 ?sub = _ |- _ =>
      pose proof (MergeSubgraph_nodes_mono l1 g1 sub n Hn) as Hmono;
      by rewrite Hm in Hmono
  end.
Qed.

Lemma populateComponentNode_blockMap templates st x :
  is_Some (blockMap (populateComponentNode env templates st x) !! BlockComponentID x) /\
  forall k, is_Some (blockMap st !! k) ->
            is_Some (blockMap (populateComponentNode env templates st x) !! k).
Proof.
  destruct st as [l g m d]. unfold populateComponentNode. simpl.
  destruct (m !! BlockComponentID x) eqn:Hm; simpl; [by rewrite Hm; eauto|].
  assert (forall k, is_Some (m !! k) ->
                    is_Some (<[BlockComponentID x := x]> m !! k)) as Hgrow.
  { intros k Hk. rewrite lookup_insert. by case_decide. }
  repeat (case_match; simpl in *; simplify_eq);
    (split; [by rewrite lookup_insert_eq|done]).
Qed.

(** The step of [populateComponentNodes] for a block whose ID a component
    node of the previous graph carries. *)
Lemma populateComponentNode_reuse templates st b c :
  blockMap st !! BlockComponentID b = None ->
  existingComponent (pLoader st) (BlockComponentID b) = Some c ->
  populateComponentNode env templates st b =
  MkPopulating
    (setStore (update c (UpdateBlock (Some b)) (store (pLoader st))) (pLoader st))
    (addNode (update c (UpdateBlock (Some b)) (store (pLoader st))) c (pGraph st))
    (<[BlockComponentID b := b]> (blockMap st))
    (pDiags st).
Proof.
  destruct st as [l g m d]. simpl. intros Hm Hc.
  unfold populateComponentNode. by rewrite Hm, Hc.
Qed.

Section Existing.
Variables (l : Loader) (id : string) (c : Node) (o : NodeObject).
Hypothesis l_wf : wfStore (store l).
Hypothesis l_graph : GetByID (graph l) id = Some c.
Hypothesis l_object : objects (store l) !! c = Some o.
Hypothesis o_component : isComponentNode o = true.

Let reusing := reusing l id c.

Lemma existingComponent_builds l' :
  builds l l' -> existingComponent l' id = Some c.
Proof.
  intros [(Hg & _) Hev]. destruct (Hev l_wf) as [_ Hblocks].
  unfold existingComponent. rewrite Hg, l_graph.
  by rewrite (hasKind_blocksOnly _ _ _ _ Hblocks l_object), o_component.
Qed.

Lemma reusing_step templates st x :
  reusing st -> reusing (populateComponentNode env templates st x).
Proof.
  intros [Hb Hin]. split; [by apply populateComponentNode_frame|].
  intros Hsome. destruct (blockMap st !! id) eqn:Hid.
  { apply populateComponentNode_nodes_mono, Hin. eauto. }
  destruct (decide (BlockComponentID x = id)) as [Heq|Hne].
  - rewrite (populateComponentNode_reuse templates st x c).
    + cbn [pGraph]. apply Add_nodes_elem.
    + by rewrite Heq.
    + rewrite Heq. by apply existingComponent_builds.
  - exfalso. pose proof (blockMap_fold env templates [x] st id) as Hfold.
    simpl in Hfold. rewrite Hfold, Hid in Hsome; [by destruct Hsome|].
    intros ? ->%list_elem_of_singleton. done.
Qed.

Lemma reusing_fold templates cs :
  forall st b,
    reusing st ->
    BlockComponentID b = id ->
    b ∈ cs \/ is_Some (blockMap st !! id) ->
    reusing (fold_left (populateComponentNode env templates) cs st) /\
    c ∈ nodes (pGraph (fold_left (populateComponentNode env templates) cs st)).
Proof.
  induction cs as [|x cs IH]; intros st b Hst Hid Hor.
  - simpl. split; [done|]. destruct Hor as [Hb|Hsome]; [by apply elem_of_nil in Hb|].
    by apply Hst.
  - simpl. apply (IH _ b); [by apply reusing_step|done|].
    destruct (populateComponentNode_blockMap templates st x) as [Hx Hgrow].
    destruct Hor as [Hb|Hsome]; [|right; by apply Hgrow].
    apply elem_of_cons in Hb as [->|Hb]; [right; by rewrite <- Hid|by left].
Qed.
End Existing.
End Reuse.

Section Merge.
Context `{MapRange}.
Variables (l : Loader) (node c : Node) (o : NodeObject).
Hypothesis l_wf : wfStore (store l).
Hypothesis l_graph : GetByID (graph l) (NodeID (store l) node) = Some c.
Hypothesis l_object : objects (store l) !! c = Some o.
Hypothesis o_component : isComponentNode o = true.
Hypothesis node_component : hasKind isComponentNode (store l) node = true.

Lemma mergeNode_nextNode st n :
  nextNode (store (mergeNode st n).1) = nextNode (store st.1).
Proof. destruct st as [l0 g]. unfold mergeNode. simpl. by repeat case_match. Qed.

Lemma mergeNode_reuse l' g :
  builds l l' ->
  mergeNode (l', g) node =
  (setStore (update c (UpdateBlock (Block (store l') node)) (store l')) l',
   addNode (update c (UpdateBlock (Block (store l') node)) (store l')) c g).
Proof.
  intros [(Hg & _) Hev]. destruct (Hev l_wf) as [_ Hblocks].
  unfold hasKind in node_component.
  destruct (objects (store l) !! node) as [on|] eqn:Hnode; [|done].
  destruct (proj2 Hblocks node on Hnode) as [bn Hbn].
  assert (NodeID (store l') node = NodeID (store l) node) as Hid.
  { unfold NodeID. by rewrite Hbn, Hnode. }
  unfold mergeNode. rewrite Hid, Hg, l_graph.
  rewrite (hasKind_blocksOnly _ _ _ _ Hblocks l_object), o_component.
  rewrite (hasKind_blocksOnly _ _ _ _ Hblocks Hnode), node_component. done.
Qed.

Lemma mergeNodes_reuse ns :
  forall st,
    builds l st.1 ->
    node ∈ ns \/ c ∈ nodes st.2 ->
    c ∈ nodes (fold_left mergeNode ns st).2.
Proof.
  induction ns as [|n ns IH]; intros [l' g] Hb Hor.
  - simpl. destruct Hor as [Hn|Hc]; [by apply elem_of_nil in Hn|done].
  - change (fold_left mergeNode (n :: ns) (l', g))
      with (fold_left mergeNode ns (mergeNode (l', g) n)).
    apply IH; [by apply mergeNode_frame|].
    destruct Hor as [Hn|Hc]; [|right; by apply mergeNode_nodes_mono].
    apply elem_of_cons in Hn as [<-|Hn]; [|by left].
    right. rewrite (mergeNode_reuse l' g Hb). cbn [snd]. apply Add_nodes_elem.
Qed.

Lemma MergeSubgraph_reuse new subgraph :
  node ∈ Nodes subgraph ->
  c ∈ Nodes (MergeSubgraph l new subgraph).2 /\
  (exists blk, objects (store (MergeSubgraph l new subgraph).1) !! c
               = Some (UpdateBlock blk o)) /\
  nextNode (store (MergeSubgraph l new subgraph).1) = nextNode (store l).
Proof.
  intros Hnode.
  pose proof (MergeSubgraph_frame l new subgraph) as [_ Hev].
  unfold MergeSubgraph in *.
  pose proof (mergeNodes_reuse (Nodes subgraph) (l, new) (builds_refl l)
                (or_introl Hnode)) as Hc.
  pose proof (fold_left_preserves
                (fun st => nextNode (store st.1) = nextNode (store l))
                mergeNode (Nodes subgraph) (l, new) eq_refl) as Hnext.
  destruct (fold_left mergeNode (Nodes subgraph) (l, new)) as [l1 g1]. simpl in *.
  split; [unfold Nodes; by rewrite MergeEdges_nodes|].
  split; [by apply (proj2 (proj2 (Hev l_wf)))|].
  apply Hnext. intros st n Hst. by rewrite mergeNode_nextNode.
Qed.
End Merge.

Section ReuseClaim.
Context `{MapRange}.
Variable env : Collaborators.

(** C4.  Let the graph of the previous generation hold a component node
    [c] under an ID.  (1) The step of [populateComponentNodes] for a block
    with that ID, before another block with it was met, constructs
    nothing: it replaces the block of [c] and adds [c] to the new graph.
    (2) After the loop over a list that has such a block, [c] is in the
    new graph and its object differs from the old one in the block at
    most.  (3) [MergeSubgraph] does the same for a component node of the
    subgraph whose ID is the one of [c]: [c] is in the new graph, its
    object differs in the block at most, and nothing is constructed. *)
Theorem populateComponentNodes_reuses_existing l c o :
  wfStore (store l) ->
  objects (store l) !! c = Some o ->
  isComponentNode o = true ->
  (forall b templates st,
      GetByID (graph l) (BlockComponentID b) = Some c ->
      builds l (pLoader st) ->
      blockMap st !! BlockComponentID b = None ->
      populateComponentNode env templates st b =
      MkPopulating
        (setStore (update c (UpdateBlock (Some b)) (store (pLoader st))) (pLoader st))
        (addNode (update c (UpdateBlock (Some b)) (store (pLoader st))) c (pGraph st))
        (<[BlockComponentID b := b]> (blockMap st))
        (pDiags st)) /\
  (forall b g cbs nt,
      GetByID (graph l) (BlockComponentID b) = Some c ->
      b ∈ cbs ->
      c ∈ Nodes (populateComponentNodes env l g cbs nt).1.2 /\
      exists blk, objects (store (populateComponentNodes env l g cbs nt).1.1) !! c
                  = Some (UpdateBlock blk o)) /\
  (forall node new subgraph,
      GetByID (graph l) (NodeID (store l) node) = Some c ->
      hasKind isComponentNode (store l) node = true ->
      node ∈ Nodes subgraph ->
      c ∈ Nodes (MergeSubgraph l new subgraph).2 /\
      (exists blk, objects (store (MergeSubgraph l new subgraph).1) !! c
                   = Some (UpdateBlock blk o)) /\
      nextNode (store (MergeSubgraph l new subgraph).1) = nextNode (store l)).
Proof.
  intros Hwf Hobj Hcomp. split; [|split].
  - intros b templates st Hg Hb Hm.
    apply populateComponentNode_reuse; [done|].
    by eapply existingComponent_builds.
  - intros b g cbs nt Hg Hb.
    pose proof (populateComponentNodes_frame env l g cbs nt) as [_ Hev].
    unfold populateComponentNodes in *.
    destruct (RetrieveAvailableTemplates nt) as [templates err].
    destruct err as [msg|]; cbn [fst snd pLoader pGraph] in *.
    + destruct (reusing_fold env l (BlockComponentID b) c o Hwf Hg Hobj Hcomp ∅ cbs
                  (MkPopulating l g ∅ [errorMsg msg]) b) as [_ Hc];
        [split; [apply builds_refl|]; simpl; rewrite lookup_empty; by intros []
        |done|by left|].
      split; [done|]. by apply (proj2 (proj2 (Hev Hwf))).
    + destruct (reusing_fold env l (BlockComponentID b) c o Hwf Hg Hobj Hcomp
                  templates cbs (MkPopulating l g ∅ []) b) as [_ Hc];
        [split; [apply builds_refl|]; simpl; rewrite lookup_empty; by intros []
        |done|by left|].
      split; [done|]. by apply (proj2 (proj2 (Hev Hwf))).
  - intros node new subgraph Hg Hnode Hin. by eapply MergeSubgraph_reuse.
Qed.
End ReuseClaim.

Lemma wfStore_decide s :
  bool_decide (map_Forall (fun n _ => n < nextNode s) (objects s)) = true ->
  wfStore s.
Proof.
  intros Hall%bool_decide_eq_true n [o Ho]. by apply (Hall n o).
Qed.

(** *** On the sample configuration *)



Lemma populateComponentNodes_reuses_existing_witness :
  wfStore (store previous) /\
  objects (store previous) !! nodeA = Some objectA /\
  isComponentNode objectA = true /\
  GetByID (graph previous) (BlockComponentID blockA') = Some nodeA /\
  nodeA ∈ Nodes (populateComponentNodes sampleEnv previous emptyGraph
                   [blockB; blockA'] (NewNodeTemplates None)).1.2 /\
  exists blk,
    objects (store (populateComponentNodes sampleEnv previous emptyGraph
                      [blockB; blockA'] (NewNodeTemplates None)).1.1) !! nodeA
    = Some (UpdateBlock blk objectA).
Proof.
  assert (wfStore (store previous)) as Hwf.
  { apply wfStore_decide. vm_compute. reflexivity. }
  assert (objects (store previous) !! nodeA = Some objectA) as Hobj.
  { vm_compute. reflexivity. }
  assert (GetByID (graph previous) (BlockComponentID blockA') = Some nodeA) as Hid.
  { vm_compute. reflexivity. }
  split; [exact Hwf|]. split; [exact Hobj|]. split; [reflexivity|].
  split; [exact Hid|].
  apply (proj1 (proj2 (populateComponentNodes_reuses_existing sampleEnv previous nodeA
                         objectA Hwf Hobj eq_refl))
           blockA' emptyGraph [blockB; blockA'] (NewNodeTemplates None) Hid).
  apply list_elem_of_further, list_elem_of_here.
Defined.
End apply_facts.

(** ** Which dependants [EvaluateDependencies] submits *)
Module dependants_facts.
Import examples scheduling scheduling_spec.

Lemma Wait_accepted out p b : accepted (Wait out p b).1 = accepted p.
Proof.
  unfold Wait. destruct (NextDelay b _) as [sleepTime b']. unfold Ongoing.
  by destruct (_ && _).
Qed.

(** The loop for one dependant hands the pool that dependant at most, and
    takes nothing back. *)
Lemma retryLoop_accepted out fuel s n parent :
  forall p b err p' b' err',
    retryLoop out fuel s p b n parent err = Some (p', b', err') ->
    (forall t, t ∈ accepted p' -> t ∈ accepted p \/ t = (NodeID s n, n, parent)) /\
    (forall t, t ∈ accepted p -> t ∈ accepted p').
Proof.
  induction fuel as [|fuel IH]; intros p b err p' b' err' Hloop; [done|].
  simpl in Hloop. destruct (_ && _) in Hloop.
  - destruct (queueFull out (submissions p)) eqn:Hfull.
    + pose proof (Wait_accepted out
                    (logRetry (MkRetry (NodeID s n) (NodeID s parent) (NumRetries b))
                       (MkProgress (S (consulted p)) (S (submissions p)) (drawn p)
                          (accepted p) (errorLog p) (slept p) (spans p))) b) as Hw.
      destruct (Wait out _ b) as [p1 b1]. simpl in Hw.
      apply IH in Hloop. by rewrite Hw in Hloop.
    + simplify_eq. simpl. split; intros t Ht.
      * apply elem_of_app in Ht as [Ht|Ht]; [by left|].
        apply list_elem_of_singleton in Ht. by right.
      * apply elem_of_app. by left.
  - simplify_eq. split; intros t Ht; [by left|done].
Qed.

(** A pool with room takes the dependant at the first attempt. *)
Lemma retryLoop_eager out fuel s n parent p b err :
  contextDone out (consulted p) = false ->
  queueFull out (submissions p) = false ->
  MaxRetries (cfg b) = 0 ->
  exists p',
    retryLoop out (S fuel) s p b n parent err = Some (p', b, false) /\
    accepted p' = accepted p ++ [(NodeID s n, n, parent)].
Proof.
  intros Hdone Hfull Hmax. simpl. rewrite Hdone, Hfull, Hmax. simpl.
  by eexists.
Qed.

Section Submitted.
Variable out : Outside.
Variable s : Store.

Lemma submitDependants_accepted fuel entries :
  forall p p',
    fold_left (submitDependant out fuel s) entries (Some p) = Some p' ->
    (forall t, t ∈ accepted p' ->
               t ∈ accepted p \/
               exists n parent, (n, parent) ∈ entries /\ t = (NodeID s n, n, parent)) /\
    (forall t, t ∈ accepted p -> t ∈ accepted p').
Proof.
  induction entries as [|[n parent] entries IH]; intros p p' Hfold.
  { simpl in Hfold. simplify_eq. split; intros t Ht; [by left|done]. }
  simpl in Hfold.
  destruct (retryLoop out fuel s p (New backoffConfig) n parent false)
    as [[[p1 b1] e1]|] eqn:Hloop.
  - apply retryLoop_accepted in Hloop as [Hsub Hmono].
    apply IH in Hfold as [Hsub' Hmono']. simpl in *. split.
    + intros t Ht. destruct (Hsub' t Ht) as [Ht1|(n' & parent' & Hin & ->)].
      * destruct (Hsub t Ht1) as [?| ->]; [by left|].
        right. exists n, parent. split; [apply list_elem_of_here|done].
      * right. exists n', parent'. split; [by apply list_elem_of_further|done].
    + intros t Ht. by apply Hmono', Hmono.
  - exfalso. clear -Hfold. induction entries as [|e entries IH]; [done|].
    by apply IH.
Qed.

Hypothesis room : forall k, queueFull out k = false.
Hypothesis ongoing : forall k, contextDone out k = false.

Lemma submitDependants_eager fuel entries :
  forall p p',
    fold_left (submitDependant out fuel s) entries (Some p) = Some p' ->
    forall n parent, (n, parent) ∈ entries -> (NodeID s n, n, parent) ∈ accepted p'.
Proof.
  induction entries as [|[n0 parent0] entries IH]; intros p p' Hfold n parent Hin.
  { by apply elem_of_nil in Hin. }
  simpl in Hfold.
  destruct (retryLoop out fuel s p (New backoffConfig) n0 parent0 false)
    as [[[p1 b1] e1]|] eqn:Hloop.
  - apply elem_of_cons in Hin as [[= -> ->]|Hin]; [|by eapply IH].
    destruct fuel as [|fuel']; [done|].
    destruct (retryLoop_eager out fuel' s n0 parent0 p (New backoffConfig) false)
      as (p2 & Hloop2 & Hacc); [done..|].
    rewrite Hloop2 in Hloop. simplify_eq.
    apply submitDependants_accepted in Hfold as [_ Hmono]. apply Hmono. simpl.
    rewrite Hacc. apply elem_of_app. right. apply list_elem_of_here.
  - exfalso. clear -Hfold. induction entries as [|e entries IH']; [done|].
    by apply IH'.
Qed.
End Submitted.

(** The first loop leaves the store and the graph alone; what it collects
    are the nodes with an edge in [l.graph] to an updated node. *)
Lemma collectDependants_lookup parent ns :
  forall m n q,
    fold_left (collectDependant parent) ns m !! n = Some q <->
    (n ∈ ns /\ q = parent) \/ ((n ∉ ns) /\ m !! n = Some q).
Proof.
  induction ns as [|x ns IH]; intros m n q; simpl.
  { split; [intros ?; right; split; [apply not_elem_of_nil|done]|].
    intros [[Hin _]|[_ ?]]; [by apply elem_of_nil in Hin|done]. }
  rewrite IH. unfold collectDependant. rewrite !elem_of_cons.
  destruct (decide (n = x)) as [->|Hne].
  - rewrite lookup_insert_eq. destruct (decide (x ∈ ns)); intuition congruence.
  - rewrite lookup_insert_ne by done. intuition congruence.
Qed.

Lemma dependenciesToParents_from updatedNodes :
  forall l0 m0 l1 m,
    fold_left collect updatedNodes (l0, m0) = (l1, m) ->
    store l1 = store l0 /\ graph l1 = graph l0 /\
    (forall n q, m !! n = Some q ->
                 m0 !! n = Some q \/
                 (q ∈ updatedNodes /\ n ∈ WalkIncomingNodes (graph l0) q)) /\
    (forall n, is_Some (m0 !! n) \/
               (exists q, q ∈ updatedNodes /\ n ∈ WalkIncomingNodes (graph l0) q) ->
               is_Some (m !! n)).
Proof.
  induction updatedNodes as [|parent updatedNodes IH]; intros l0 m0 l1 m Hfold.
  { simpl in Hfold. simplify_eq. repeat split; [by left|].
    intros n [?|(q & Hq & _)]; [done|by apply elem_of_nil in Hq]. }
  simpl in Hfold. apply IH in Hfold as (Hs & Hg & Hfrom & Hto). simpl in *.
  split; [done|]. split; [done|]. split.
  - intros n q Hq. destruct (Hfrom n q Hq) as [Hm|[Hin Hw]].
    + apply collectDependants_lookup in Hm as [[Hn ->]|[_ Hm]]; [|by left].
      right. split; [apply list_elem_of_here|done].
    + right. split; [by apply list_elem_of_further|done].
  - intros n Hn. apply Hto.
    destruct (decide (n ∈ WalkIncomingNodes (graph l0) parent)) as [Hw|Hw].
    { left. exists parent. apply collectDependants_lookup. by left. }
    destruct Hn as [[q Hq]|(q & [->|Hq]%elem_of_cons & Hn)].
    + left. exists q. apply collectDependants_lookup. by right.
    + done.
    + right. by exists q.
Qed.

Lemma dependenciesToParents_spec l updatedNodes :
  store (dependenciesToParents l updatedNodes).1 = store l /\
  graph (dependenciesToParents l updatedNodes).1 = graph l /\
  (forall n q, (dependenciesToParents l updatedNodes).2 !! n = Some q ->
               q ∈ updatedNodes /\ n ∈ WalkIncomingNodes (graph l) q) /\
  (forall n q, q ∈ updatedNodes -> n ∈ WalkIncomingNodes (graph l) q ->
               is_Some ((dependenciesToParents l updatedNodes).2 !! n)).
Proof.
  unfold dependenciesToParents.
  destruct (fold_left collect updatedNodes (l, ∅)) as [l1 m] eqn:Hfold.
  apply dependenciesToParents_from in Hfold as (Hs & Hg & Hfrom & Hto). simpl.
  split; [done|]. split; [done|]. split.
  - intros n q Hq. destruct (Hfrom n q Hq) as [Hm|?]; [|done].
    by rewrite lookup_empty in Hm.
  - intros n q Hq Hn. apply Hto. right. by exists q.
Qed.

(** C1.  A task that [EvaluateDependencies] hands the pool is for a node
    with an edge in the installed graph [l.graph], the one left by the
    transitive reduction, to one of the updated nodes, with that node as
    originator.  When the pool has room and the context is not cancelled,
    every node with such an edge is handed over, for one of the updated
    nodes it has an edge to. *)
Theorem EvaluateDependencies_walks_installed_graph `{MapRange}
    out fuel l p updatedNodes l' p' :
  EvaluateDependencies out fuel l p updatedNodes = Some (l', p') ->
  (forall t, t ∈ accepted p' ->
             t ∈ accepted p \/
             exists n parent,
               t = (NodeID (store l) n, n, parent) /\ parent ∈ updatedNodes /\
               n ∈ WalkIncomingNodes (graph l) parent) /\
  ((forall k, queueFull out k = false) -> (forall k, contextDone out k = false) ->
   forall parent n,
     parent ∈ updatedNodes -> n ∈ WalkIncomingNodes (graph l) parent ->
     exists parent',
       parent' ∈ updatedNodes /\ n ∈ WalkIncomingNodes (graph l) parent' /\
       (NodeID (store l) n, n, parent') ∈ accepted p').
Proof.
  intros Heval. unfold EvaluateDependencies in Heval.
  destruct updatedNodes as [|u updatedNodes].
  { simplify_eq. split; [by left|]. intros _ _ parent n Hin. by apply elem_of_nil in Hin. }
  destruct (dependenciesToParents_spec l (u :: updatedNodes)) as (Hs & _ & Hfrom & Hto).
  destruct (dependenciesToParents l (u :: updatedNodes)) as [l1 m]. simpl in *.
  destruct (fold_left _ (range m) (Some p)) as [p1|] eqn:Hfold; [|done].
  simplify_eq. rewrite Hs in Hfold.
  assert (forall n q, (n, q) ∈ range m <-> m !! n = Some q) as Hrange.
  { intros n q. rewrite (range_Permutation m). apply elem_of_map_to_list. }
  split.
  - intros t Ht.
    destruct (proj1 (submitDependants_accepted _ _ _ _ _ _ Hfold) t Ht)
      as [?|(n & q & Hin & ->)]; [by left|].
    right. exists n, q. split; [done|]. apply Hfrom. by apply Hrange.
  - intros Hroom Hongoing parent n Hparent Hn.
    destruct (Hto n parent Hparent Hn) as [q Hq]. exists q.
    destruct (Hfrom n q Hq) as [? ?]. split; [done|]. split; [done|].
    eapply submitDependants_eager; [done..|]. by apply Hrange.
Qed.

(** After [a], [b] and [c] were applied, where [b] reads [a] and [c] reads
    both, the graph before the reduction has the edge of [c] to [a] and
    walking the incoming edges of [a] in it yields [b] and [c]; the
    installed graph has lost that edge, and a pool that takes every task is
    handed the task of [b] alone. *)
Lemma EvaluateDependencies_skips_reduced_edge :
  (nodeC, nodeA) ∈ edges (originalGraph previous) /\
  WalkIncomingNodes (originalGraph previous) nodeA = [nodeB; nodeC] /\
  WalkIncomingNodes (graph previous) nodeA = [nodeB] /\
  accepted <$> (snd <$> EvaluateDependencies eagerPool 1 previous noProgress [nodeA])
    = Some [("testcomponents.passthrough.b", nodeB, nodeA)].
Proof.
  split; [vm_compute; repeat constructor|].
  split; [by vm_compute|]. split; by vm_compute.
Qed.

Lemma EvaluateDependencies_walks_installed_graph_witness :
  exists l' p',
    EvaluateDependencies eagerPool 1 previous noProgress [nodeA] = Some (l', p') /\
    (forall t, t ∈ accepted p' ->
               t ∈ accepted noProgress \/
               exists n parent,
                 t = (NodeID (store previous) n, n, parent) /\ parent ∈ [nodeA] /\
                 n ∈ WalkIncomingNodes (graph previous) parent).
Proof.
  destruct (EvaluateDependencies eagerPool 1 previous noProgress [nodeA])
    as [[l' p']|] eqn:Heval; [|vm_compute in Heval; discriminate].
  exists l', p'. split; [reflexivity|].
  exact (proj1 (EvaluateDependencies_walks_installed_graph
                  eagerPool 1 previous noProgress [nodeA] l' p' Heval)).
Defined.
End dependants_facts.

(** ** Notifications of the parent under the lock *)
Module concurrent_facts.
Import concurrent.

(** What [cacheExports] and [ApplyEvaluate] take from the cache: its index
    stays or grows by one. *)
Lemma CacheModuleExportValue_index name v c :
  controller.ExportChangeIndex (controller.CacheModuleExportValue name v c)
  = if decide (controller.moduleExports c !! name = Some v)
    then controller.ExportChangeIndex c
    else (controller.ExportChangeIndex c + 1)%Z.
Proof. reflexivity. Qed.

Lemma count_insert (f : Point -> bool) tasks i p p' :
  tasks !! i = Some p ->
  count f (<[i := p']> tasks) + (if f p then 1 else 0)
  = count f tasks + (if f p' then 1 else 0).
Proof.
  unfold count. revert i. induction tasks as [|q tasks IH]; intros [|i] Hi; try done.
  - simpl in Hi. simplify_eq. simpl. rewrite !filter_cons.
    destruct (f p), (f p'); repeat case_decide; simpl; try done; lia.
  - simpl in Hi. simpl. rewrite !filter_cons. specialize (IH i Hi).
    case_decide; simpl; lia.
Qed.

Lemma count_le_one_other (f : Point -> bool) tasks i p q :
  tasks !! i = Some p -> f p = true -> count f tasks = 1 ->
  q ∈ tasks -> f q = true -> q = p.
Proof.
  unfold count. revert i. induction tasks as [|r tasks IH]; intros i Hi Hp Hc Hq Hfq.
  { by apply elem_of_nil in Hq. }
  rewrite filter_cons in Hc. destruct i as [|i]; simpl in Hi.
  - simplify_eq. rewrite decide_True in Hc by done. simpl in Hc.
    apply elem_of_cons in Hq as [->|Hq]; [done|].
    assert (q ∈ filter (fun p => f p = true) tasks) as Hin
        by (apply list_elem_of_filter; done).
    destruct (filter _ tasks); [by apply elem_of_nil in Hin|simpl in Hc; lia].
  - assert (p ∈ filter (fun p => f p = true) tasks) as Hin.
    { apply list_elem_of_filter. split; [done|]. by eapply list_elem_of_lookup_2. }
    case_decide as Hr.
    + simpl in Hc. destruct (filter _ tasks); [by apply elem_of_nil in Hin|simpl in Hc; lia].
    + apply elem_of_cons in Hq as [->|Hq]; [done|]. by eapply IH.
Qed.

Lemma count_zero (f : Point -> bool) tasks q :
  count f tasks = 0 -> q ∈ tasks -> f q = false.
Proof.
  unfold count. intros Hc Hq. destruct (f q) eqn:Hf; [|done].
  assert (q ∈ filter (fun p => f p = true) tasks) as Hin
      by (apply list_elem_of_filter; done).
  destruct (filter _ tasks); [by apply elem_of_nil in Hin|done].
Qed.

Lemma count_pos (f : Point -> bool) tasks i p :
  tasks !! i = Some p -> f p = true -> 0 < count f tasks.
Proof.
  unfold count. intros Hi Hp.
  assert (p ∈ filter (fun p => f p = true) tasks) as Hin.
  { apply list_elem_of_filter. split; [done|]. by eapply list_elem_of_lookup_2. }
  destruct (filter _ tasks); [by apply elem_of_nil in Hin|simpl; lia].
Qed.

Lemma count_holder (f : Point -> bool) tasks i p :
  tasks !! i = Some p -> (if f p then 1 else 0) <= count f tasks.
Proof.
  intros Hi. destruct (f p) eqn:Hp; [|lia]. by eapply count_pos.
Qed.

Lemma count_split tasks :
  count holdsWrite tasks = count notifying tasks + count quiet tasks.
Proof.
  unfold count. induction tasks as [|p tasks IH]; [done|].
  rewrite !filter_cons. destruct p; simpl; lia.
Qed.

Lemma sorted_last l w :
  StronglySorted Z.lt l -> last l = Some w -> Forall (fun v => (v <= w)%Z) l.
Proof.
  induction 1 as [|x l Hs IH Hall]; intros Hl; [constructor|].
  destruct l as [|y l].
  - simpl in Hl. simplify_eq. by repeat constructor.
  - change (last (y :: l) = Some w) in Hl. specialize (IH Hl). constructor; [|done].
    apply Forall_cons in Hall as [Hxy _]. apply Forall_cons in IH as [Hyw _]. lia.
Qed.

Lemma sorted_snoc l x :
  StronglySorted Z.lt l -> Forall (fun v => (v < x)%Z) l ->
  StronglySorted Z.lt (l ++ [x]).
Proof.
  induction 1 as [|y l Hs IH Hall]; intros Hlt; [by repeat constructor|].
  apply Forall_cons in Hlt as [Hy Hlt]. simpl. constructor; [by apply IH|].
  apply Forall_app. split; [done|]. by repeat constructor.
Qed.

(** A version that differs from the one recorded last is new. *)
Lemma fresh_version log index recorded :
  StronglySorted Z.lt log ->
  Forall (fun v => (v <= index)%Z) log ->
  (forall v, last log = Some v -> v = recorded) ->
  index ≠ recorded ->
  StronglySorted Z.lt (log ++ [index]).
Proof.
  intros Hs Hb Hl Hne. apply sorted_snoc; [done|].
  destruct (last log) as [w|] eqn:Hw.
  - specialize (Hl w eq_refl). subst w.
    assert (recorded <= index)%Z.
    { rewrite Forall_forall in Hb. apply Hb. by apply last_Some_elem_of. }
    eapply Forall_impl; [by apply sorted_last|]. simpl. lia.
  - apply last_None in Hw. subst log. constructor.
Qed.

Lemma initial_invariant st : initial st -> invariant st.
Proof.
  destruct st as [s tasks]. intros (Hr & Hw & Hn & Hall). simpl in *.
  assert (count holdsRead tasks = 0 /\ count holdsWrite tasks = 0) as [Hcr Hcw].
  { unfold count. induction Hall as [|p tasks Hp _ [IHr IHw]]; [done|].
    rewrite !filter_cons. by destruct Hp as [-> | ->]. }
  split; simpl; rewrite ?Hn, ?Hw, ?Hr; try done; try constructor.
Qed.

Lemma stale_differs on s : stale on s = true -> exportChangeIndex s ≠ moduleExportIndex s.
Proof.
  unfold stale. intros [_ Hn]%andb_true_iff. apply negb_true_iff in Hn.
  by apply bool_decide_eq_false in Hn.
Qed.

Lemma taskStep_invariant on s tasks i p s' p' :
  tasks !! i = Some p ->
  taskStep on s p s' p' ->
  invariant (s, tasks) -> invariant (s', <[i := p']> tasks).
Proof.
  intros Hi Hstep [Hr Hw Hx Hb Hs Hl]; simpl in *.
  pose proof (count_insert holdsRead tasks i p p' Hi) as Cr.
  pose proof (count_insert holdsWrite tasks i p p' Hi) as Cw.
  pose proof (count_insert notifying tasks i p p' Hi) as Cn.
  pose proof (count_insert quiet tasks i p p' Hi) as Cq.
  pose proof (count_split tasks) as S1.
  pose proof (count_split (<[i := p']> tasks)) as S2.
  pose proof (count_holder holdsRead tasks i p Hi) as Pr.
  pose proof (count_holder holdsWrite tasks i p Hi) as Pw.
  pose proof (count_holder quiet tasks i p Hi) as Pq.
  assert (count quiet tasks = 1 -> count notifying tasks = 0 ->
          forall v, last (notifiedVersions s) = Some v -> v = moduleExportIndex s)
    as Hrecorded.
  { intros _ Hn v Hv. rewrite (Hl v Hv). by rewrite decide_True. }
  destruct Hstep; simpl in *;
    repeat match goal with
           | H : stale _ _ = true |- _ => apply stale_differs in H
           end;
    destruct (writer s) eqn:Hws;
    try discriminate; try (specialize (Hx eq_refl)); split; simpl; rewrite ?Hws;
    try lia; try done; try (intros; lia);
    lazymatch goal with
    | |- Forall _ (_ ++ [_]) =>
        apply Forall_app; split; [done|]; repeat constructor; lia
    | |- Forall _ _ =>
        eapply Forall_impl; [exact Hb|]; simpl; intros; destruct changed; lia
    | |- StronglySorted _ _ =>
        eapply fresh_version; [exact Hs|exact Hb|apply Hrecorded; lia|done]
    | |- forall v, last (_ ++ [_]) = Some _ -> _ =>
        intros v Hv; rewrite last_snoc in Hv; simplify_eq;
        repeat case_decide; try lia; try done
    | |- forall v, last _ = Some _ -> _ =>
        intros v Hv; specialize (Hl v Hv);
        repeat case_decide; try lia; try done
    end.
Qed.

Lemma step_invariant on st st' :
  step on st st' -> invariant st -> invariant st'.
Proof. destruct 1. by eapply taskStep_invariant. Qed.

Lemma reachable_invariant on st : reachable on st -> invariant st.
Proof.
  intros (st0 & Hinit & Hsteps). apply initial_invariant in Hinit.
  induction Hsteps as [|st1 st2 st3 Hstep _ IH]; [done|].
  apply IH. by eapply step_invariant.
Qed.

Lemma sorted_NoDup l : StronglySorted Z.lt l -> NoDup l.
Proof.
  induction 1 as [|x l _ IH Hall]; constructor; [|done].
  intros Hin. rewrite Forall_forall in Hall. specialize (Hall x Hin). lia.
Qed.

(** C8.  However the evaluations on the workers and the runs of [Apply]
    interleave, the export-change versions the parent callback was called
    for grow strictly, so none occurs twice; none is ahead of the cache's
    index; and once no task stands between the callback and recording the
    index, the last version notified is [moduleExportIndex]. *)
Theorem OnExportsChange_once_per_version onExportsChange st :
  reachable onExportsChange st ->
  NoDup (notifiedVersions st.1) /\
  StronglySorted Z.lt (notifiedVersions st.1) /\
  Forall (fun v => (v <= exportChangeIndex st.1)%Z) (notifiedVersions st.1) /\
  (Forall (fun p => notifying p = false) st.2 ->
   forall v, last (notifiedVersions st.1) = Some v -> v = moduleExportIndex st.1).
Proof.
  intros Hreach. destruct (reachable_invariant _ _ Hreach) as [_ _ _ Hb Hs Hl].
  split; [by apply sorted_NoDup|]. split; [done|]. split; [done|].
  intros Hquiet v Hv. rewrite (Hl v Hv). rewrite decide_True; [done|].
  unfold count. clear -Hquiet.
  induction Hquiet as [|p tasks Hp _ IH]; [done|].
  rewrite filter_cons, decide_False; [done|]. by rewrite Hp.
Qed.

(** The run of [racing] in which both evaluations see the new version while
    they hold the read lock, and the second finds it recorded once it holds
    the write lock. *)
Lemma racing_raced : rtc (step true) racing raced.
Proof.
  unfold racing, raced.
  eapply rtc_l; [eapply (step_task true _ _ 0); [reflexivity|by apply RLock]|simpl].
  eapply rtc_l; [eapply (step_task true _ _ 1); [reflexivity|by apply RLock]|simpl].
  eapply rtc_l; [eapply (step_task true _ _ 0);
                 [reflexivity|apply (cacheExports true _ true)]|simpl].
  eapply rtc_l; [eapply (step_task true _ _ 1);
                 [reflexivity|apply (cacheExports true _ false)]|simpl].
  eapply rtc_l; [eapply (step_task true _ _ 0);
                 [reflexivity|by apply RUnlock_upgrade]|simpl].
  eapply rtc_l; [eapply (step_task true _ _ 1);
                 [reflexivity|by apply RUnlock_upgrade]|simpl].
  eapply rtc_l; [eapply (step_task true _ _ 0); [reflexivity|by apply Lock]|simpl].
  eapply rtc_l; [eapply (step_task true _ _ 0);
                 [reflexivity|by apply recheck_notify]|simpl].
  eapply rtc_l; [eapply (step_task true _ _ 0); [reflexivity|apply recordIndex]|simpl].
  eapply rtc_l; [eapply (step_task true _ _ 0); [reflexivity|apply Unlock]|simpl].
  eapply rtc_l; [eapply (step_task true _ _ 1); [reflexivity|by apply Lock]|simpl].
  eapply rtc_l; [eapply (step_task true _ _ 1);
                 [reflexivity|by apply recheck_skip]|simpl].
  eapply rtc_l; [eapply (step_task true _ _ 1); [reflexivity|apply Unlock]|simpl].
  apply rtc_refl.
Qed.

Lemma OnExportsChange_once_per_version_witness :
  reachable true raced /\ NoDup (notifiedVersions raced.1).
Proof.
  assert (reachable true raced) as Hreach.
  { exists racing. split; [|exact racing_raced].
    repeat split. simpl. repeat (apply Forall_cons; split; [auto|]). apply Forall_nil_2. }
  split; [exact Hreach|].
  exact (proj1 (OnExportsChange_once_per_version true raced Hreach)).
Defined.
End concurrent_facts.

(** ** More about the construction of the graph *)
Module loader_facts.
Import apply_spec declare declare_spec.

Section Split.
Context `{MapRange}.
Variable env : Collaborators.

Lemma splitComponentBlocks_from blocks :
  forall componentBlocks serviceBlocks,
    fold_left (fun '(componentBlocks, serviceBlocks) block =>
                 if decide (BlockComponentID block ∈ serviceName <$> services env)
                 then (componentBlocks, serviceBlocks ++ [block])
                 else (componentBlocks ++ [block], serviceBlocks))
              blocks (componentBlocks, serviceBlocks)
    = (componentBlocks
         ++ filter (fun b => BlockComponentID b ∉ serviceName <$> services env) blocks,
       serviceBlocks
         ++ filter (fun b => BlockComponentID b ∈ serviceName <$> services env) blocks).
Proof.
  induction blocks as [|b blocks IH]; intros cs ss; simpl.
  { by rewrite !app_nil_r. }
  rewrite !filter_cons. destruct (decide (BlockComponentID b ∈ _)) as [Hin|Hin].
  - rewrite IH, decide_False by tauto. by rewrite <- app_assoc.
  - rewrite IH, decide_True by done. by rewrite <- app_assoc.
Qed.

(** X1.  [splitComponentBlocks] sorts every block into exactly one of
    the two lists and keeps the order of the blocks within each: the
    service blocks are the blocks whose ID is the name of a service, in
    their order, and the component blocks are the others, in theirs. *)
Theorem splitComponentBlocks_partition blocks :
  splitComponentBlocks env blocks
  = (filter (fun b => BlockComponentID b ∉ serviceName <$> services env) blocks,
     filter (fun b => BlockComponentID b ∈ serviceName <$> services env) blocks).
Proof. unfold splitComponentBlocks. by rewrite splitComponentBlocks_from. Qed.
End Split.
End loader_facts.

(** ** Diagnostics for component blocks *)
Module component_facts.
Import loader_spec declare declare_spec apply_facts.

Section Step.
Context `{MapRange}.
Variable env : Collaborators.
Variable templates : gmap string Graph.









End Step.
End component_facts.

Module component_apply_facts.
Import loader_spec declare declare_spec apply_facts component_facts more_examples.

Section ComponentErrors.
Context `{MapRange}.
Variable env : Collaborators.



End ComponentErrors.


End component_apply_facts.

(** ** [Apply] when the new graph has no error *)
Module apply_success_facts.
Import loader_spec declare declare_spec apply_facts more_examples.

Lemma sameIdentity_refl s : sameIdentity s s.
Proof. intros n. by destruct (objects s !! n). Qed.

Lemma sameIdentity_trans s1 s2 s3 :
  sameIdentity s1 s2 -> sameIdentity s2 s3 -> sameIdentity s1 s3.
Proof.
  intros H12 H23 n. specialize (H12 n). specialize (H23 n).
  destruct (objects s1 !! n), (objects s2 !! n), (objects s3 !! n); try done.
  intuition congruence.
Qed.

Lemma sameIdentity_hasKind s s' n :
  sameIdentity s s' ->
  hasKind isComponentNode s' n = hasKind isComponentNode s n /\
  hasKind isServiceNode s' n = hasKind isServiceNode s n /\
  NodeID s' n = NodeID s n /\
  (is_Some (objects s' !! n) <-> is_Some (objects s !! n)).
Proof.
  intros Hs. specialize (Hs n).
  unfold hasKind, NodeID, isComponentNode, isServiceNode.
  destruct (objects s !! n), (objects s' !! n); try done.
  destruct Hs as (-> & -> & _). by repeat split.
Qed.

Lemma sameIdentity_evaluated s n o e :
  objects s !! n = Some o ->
  sameIdentity s (update n (fun _ => evaluatedObject o e) s).
Proof.
  intros Ho m. unfold update. simpl.
  destruct (decide (m = n)) as [->|Hne].
  - rewrite lookup_alter_eq, Ho. simpl. by repeat split.
  - rewrite lookup_alter_ne by done. by destruct (objects s !! m).
Qed.

Lemma walkOrder_NoDup fuel g start :
  forall visited, NoDup visited -> NoDup (walkOrder fuel g start visited).
Proof.
  induction fuel as [|fuel IH]; intros visited Hnd; [done|]. simpl.
  destruct (list_find (ready g start visited) (nodes g)) as [[i n]|] eqn:Hfind; [|done].
  apply list_find_Some in Hfind as (_ & [Hn _] & _).
  apply IH. apply NoDup_app. split; [done|]. split; [|apply NoDup_singleton].
  intros x Hx Hx'. apply list_elem_of_singleton in Hx'. by subst x.
Qed.

Lemma WalkTopological_NoDup g start : NoDup (WalkTopological g start).
Proof. apply walkOrder_NoDup. constructor. Qed.

Section Walk.
Context `{MapRange}.
Variable env : Collaborators.

Lemma evaluate_spec l n o :
  objects (store l) !! n = Some o ->
  sameIdentity (store l) (store (evaluate env l n o).1) /\
  graph (evaluate env l n o).1 = graph l /\
  originalGraph (evaluate env l n o).1 = originalGraph l /\
  moduleExportIndex (evaluate env l n o).1 = moduleExportIndex l /\
  notified (evaluate env l n o).1 = notified l /\
  evaluated (evaluate env l n o).1 = evaluated l ++ [nodeID o].
Proof.
  intros Ho. unfold evaluate.
  destruct (postEvaluate _ _ _) as [c err]. simpl.
  split; [by apply sameIdentity_evaluated|done].
Qed.

(** What one visit of the walk does to what [Apply] accumulates. *)
Lemma evaluateNode_spec w n :
  sameIdentity (store (wLoader w)) (store (wLoader (evaluateNode env w n))) /\
  graph (wLoader (evaluateNode env w n)) = graph (wLoader w) /\
  originalGraph (wLoader (evaluateNode env w n)) = originalGraph (wLoader w) /\
  moduleExportIndex (wLoader (evaluateNode env w n)) = moduleExportIndex (wLoader w) /\
  notified (wLoader (evaluateNode env w n)) = notified (wLoader w) /\
  evaluated (wLoader (evaluateNode env w n))
    = evaluated (wLoader w) ++ (NodeID (store (wLoader w)) <$> present (store (wLoader w)) [n]) /\
  components (evaluateNode env w n)
    = components w ++ filter (fun n => hasKind isComponentNode (store (wLoader w)) n = true) [n] /\
  wServices (evaluateNode env w n)
    = wServices w ++ filter (fun n => hasKind isServiceNode (store (wLoader w)) n = true) [n] /\
  exists ds, wDiags (evaluateNode env w n) = wDiags w ++ ds.
Proof.
  destruct w as [l diags cs ids ss dids eids nss]. unfold evaluateNode, present.
  rewrite !filter_cons, !filter_nil. unfold hasKind, NodeID. simpl.
  destruct (objects (store l) !! n) as [o|] eqn:Ho; simpl.
  2:{ try rewrite decide_False by (by intros []). simpl. rewrite ?app_nil_r.
      split; [apply sameIdentity_refl|]. repeat split; try done.
      exists []. by rewrite app_nil_r. }
  try rewrite decide_True by (by eexists). simpl.
  pose proof (evaluate_spec l n o Ho) as (Hs & Hg & Hog & Hm & Hn & He).
  destruct (evaluate env l n o) as [l' err]. simpl in *.
  unfold isComponentNode, isServiceNode.
  destruct (kind o) as [reg|deps|k|] eqn:Hk; [| |destruct k|];
    simpl; unfold NodeID; rewrite ?Ho, ?app_nil_r; repeat split; try done; by eexists.
Qed.

Lemma evaluateNodes_spec ns :
  forall w,
    let w' := fold_left (evaluateNode env) ns w in
    sameIdentity (store (wLoader w)) (store (wLoader w')) /\
    graph (wLoader w') = graph (wLoader w) /\
    originalGraph (wLoader w') = originalGraph (wLoader w) /\
    moduleExportIndex (wLoader w') = moduleExportIndex (wLoader w) /\
    notified (wLoader w') = notified (wLoader w) /\
    evaluated (wLoader w')
      = evaluated (wLoader w) ++ (NodeID (store (wLoader w)) <$> present (store (wLoader w)) ns) /\
    components w'
      = components w ++ filter (fun n => hasKind isComponentNode (store (wLoader w)) n = true) ns /\
    wServices w'
      = wServices w ++ filter (fun n => hasKind isServiceNode (store (wLoader w)) n = true) ns /\
    exists ds, wDiags w' = wDiags w ++ ds.
Proof.
  induction ns as [|n ns IH]; intros w; simpl.
  { unfold present. rewrite !filter_nil. simpl. rewrite !app_nil_r.
    split; [apply sameIdentity_refl|]. repeat split; try done.
    exists []. by rewrite app_nil_r. }
  destruct (evaluateNode_spec w n)
    as (Hs & Hg & Hog & Hm & Hn & He & Hc & Hsv & ds & Hd).
  destruct (IH (evaluateNode env w n))
    as (Hs' & Hg' & Hog' & Hm' & Hn' & He' & Hc' & Hsv' & ds' & Hd').
  split; [by eapply sameIdentity_trans|].
  split; [congruence|]. split; [congruence|]. split; [congruence|].
  split; [congruence|].
  assert (forall m, hasKind isComponentNode (store (wLoader (evaluateNode env w n))) m
                    = hasKind isComponentNode (store (wLoader w)) m) as Hkc
      by (intros m; by apply sameIdentity_hasKind).
  assert (forall m, hasKind isServiceNode (store (wLoader (evaluateNode env w n))) m
                    = hasKind isServiceNode (store (wLoader w)) m) as Hks
      by (intros m; by apply sameIdentity_hasKind).
  split; [|split; [|split]].
  - rewrite He', He. unfold present in *. rewrite <- app_assoc. f_equal.
    rewrite (filter_cons _ n ns), (filter_cons _ n []), filter_nil.
    assert (filter (fun m => is_Some (objects (store (wLoader (evaluateNode env w n))) !! m)) ns
            = filter (fun m => is_Some (objects (store (wLoader w)) !! m)) ns) as ->.
    { apply list_filter_iff. intros m. by apply sameIdentity_hasKind. }
    assert (NodeID (store (wLoader (evaluateNode env w n)))
              <$> filter (fun m => is_Some (objects (store (wLoader w)) !! m)) ns
            = NodeID (store (wLoader w))
              <$> filter (fun m => is_Some (objects (store (wLoader w)) !! m)) ns) as ->.
    { apply list_fmap_ext. intros i m _. by apply sameIdentity_hasKind. }
    by case_decide.
  - rewrite Hc', Hc, <- app_assoc. f_equal. rewrite (filter_cons _ n ns).
    rewrite filter_cons, filter_nil.
    assert (filter (fun m => hasKind isComponentNode
                               (store (wLoader (evaluateNode env w n))) m = true) ns
            = filter (fun m => hasKind isComponentNode (store (wLoader w)) m = true) ns)
      as ->.
    { apply list_filter_iff. intros m. by rewrite Hkc. }
    by case_decide.
  - rewrite Hsv', Hsv, <- app_assoc. f_equal. rewrite (filter_cons _ n ns).
    rewrite filter_cons, filter_nil.
    assert (filter (fun m => hasKind isServiceNode
                               (store (wLoader (evaluateNode env w n))) m = true) ns
            = filter (fun m => hasKind isServiceNode (store (wLoader w)) m = true) ns)
      as ->.
    { apply list_filter_iff. intros m. by rewrite Hks. }
    by case_decide.
  - exists (ds ++ ds'). by rewrite Hd', Hd, <- app_assoc.
Qed.

Lemma validateAndReduce_valid l g diags :
  Validate (NodeID (store l)) g = [] ->
  validateAndReduce l g diags = (setOriginalGraph (Clone g) l, Reduce g, diags).
Proof. unfold validateAndReduce. by intros ->. Qed.

Lemma notifyParent_spec l :
  store (notifyParent env l) = store l /\
  graph (notifyParent env l) = graph l /\
  originalGraph (notifyParent env l) = originalGraph l /\
  componentNodes (notifyParent env l) = componentNodes l /\
  serviceNodes (notifyParent env l) = serviceNodes l /\
  blocks (notifyParent env l) = blocks l /\
  cache (notifyParent env l) = cache l /\
  evaluated (notifyParent env l) = evaluated l /\
  (notified (notifyParent env l) = notified l /\
   moduleExportIndex (notifyParent env l) = moduleExportIndex l /\
   (OnExportsChange env = true -> ExportChangeIndex (cache l) = moduleExportIndex l)
   \/
   OnExportsChange env = true /\
   ExportChangeIndex (cache l) ≠ moduleExportIndex l /\
   notified (notifyParent env l) = notified l ++ [CreateModuleExports (cache l)] /\
   moduleExportIndex (notifyParent env l) = ExportChangeIndex (cache l)).
Proof.
  unfold notifyParent. destruct (OnExportsChange env); simpl.
  - case_bool_decide as Hi; simpl; repeat split; try done; [left|right]; by repeat split.
  - repeat split; try done. left. by repeat split.
Qed.

(** [Apply] past the early return. *)
Lemma Apply_success l args cbs fbs dbs l1 g diags :
  wiredGraph env l args cbs fbs dbs = Some (l1, g, diags) ->
  HasErrors diags = false ->
  Validate (NodeID (store l1)) g = [] ->
  exists w l2,
    w = fold_left (evaluateNode env) (evaluationOrder (Reduce g))
          (MkWalking (setCache (ClearModuleExports (cache l1))
                               (setOriginalGraph (Clone g) l1))
                     diags [] [] [] [] [] []) /\
    l2 = setCache (SyncNamespaces (namespaces w)
                     (SyncDeclareExportIDs (exportIDs w)
                        (SyncDeclareIDs (declareIDs w)
                           (SyncIDs (componentIDs w) (cache (wLoader w))))))
                  (install (Reduce g) (components w) (wServices w) cbs (wLoader w)) /\
    Apply env l args cbs fbs dbs = Some (wDiags w, notifyParent env l2).
Proof.
  intros Hw Herr Hvalid. rewrite Apply_unfold, Hw.
  rewrite (validateAndReduce_valid _ _ _ Hvalid), Herr. by eexists _, _.
Qed.
End Walk.

Section Success.
Context `{MapRange}.
Variable env : Collaborators.

(** X4.  When the graph [Apply] has wired is free of cycles and no
    diagnostic so far is an error, [Apply] installs it: the graph of the
    Loader is the transitive reduction of the wired graph, the original
    graph is the copy made before the reduction, the blocks are the
    component blocks given, and the component and service node lists are
    the component and service nodes the topological walk visits, in the
    order of the walk.  The diagnostics returned start with those
    gathered before the walk. *)
Theorem Apply_installs_new_graph l args cbs fbs dbs :
  exists l1 g diags,
    wiredGraph env l args cbs fbs dbs = Some (l1, g, diags) /\
    (HasErrors diags = false ->
     Validate (NodeID (store l1)) g = [] ->
     exists diags' l',
       Apply env l args cbs fbs dbs = Some (diags', l') /\
       graph l' = Reduce g /\
       originalGraph l' = Clone g /\
       blocks l' = cbs /\
       componentNodes l'
         = filter (fun n => hasKind isComponentNode (store l1) n = true)
                  (evaluationOrder (Reduce g)) /\
       serviceNodes l'
         = filter (fun n => hasKind isServiceNode (store l1) n = true)
                  (evaluationOrder (Reduce g)) /\
       exists ds, diags' = diags ++ ds).
Proof.
  destruct (wiredGraph_total env l args cbs fbs dbs) as [[[l1 g] diags] Hw].
  exists l1, g, diags. split; [done|]. intros Herr Hvalid.
  destruct (Apply_success env l args cbs fbs dbs l1 g diags Hw Herr Hvalid)
    as (w & l2 & Hwalk & Hl2 & Happ).
  pose proof (evaluateNodes_spec env (evaluationOrder (Reduce g))
                (MkWalking (setCache (ClearModuleExports (cache l1))
                                     (setOriginalGraph (Clone g) l1))
                           diags [] [] [] [] [] [])) as Hspec.
  simpl in Hspec. rewrite <- Hwalk in Hspec.
  destruct Hspec as (_ & _ & Hog & _ & _ & _ & Hc & Hs & Hd).
  destruct (notifyParent_spec env l2) as (_ & Hg' & Hog' & Hc' & Hs' & Hb' & _).
  exists (wDiags w), (notifyParent env l2). split; [done|].
  rewrite Hg', Hog', Hc', Hs', Hb', Hl2. simpl. by rewrite Hog, Hc, Hs.
Qed.

(** X5.  In that case [Apply] evaluates the nodes the topological walk
    of the new graph visits, each once and in the order of the walk,
    whether or not an evaluation fails. *)
Theorem Apply_evaluates_in_order l args cbs fbs dbs :
  exists l1 g diags,
    wiredGraph env l args cbs fbs dbs = Some (l1, g, diags) /\
    NoDup (evaluationOrder (Reduce g)) /\
    (HasErrors diags = false ->
     Validate (NodeID (store l1)) g = [] ->
     exists diags' l',
       Apply env l args cbs fbs dbs = Some (diags', l') /\
       evaluated l'
         = evaluated l
             ++ (NodeID (store l1) <$> present (store l1) (evaluationOrder (Reduce g)))).
Proof.
  destruct (wiredGraph_total env l args cbs fbs dbs) as [[[l1 g] diags] Hw].
  exists l1, g, diags. split; [done|]. split; [apply WalkTopological_NoDup|].
  intros Herr Hvalid.
  destruct (Apply_success env l args cbs fbs dbs l1 g diags Hw Herr Hvalid)
    as (w & l2 & Hwalk & Hl2 & Happ).
  pose proof (evaluateNodes_spec env (evaluationOrder (Reduce g))
                (MkWalking (setCache (ClearModuleExports (cache l1))
                                     (setOriginalGraph (Clone g) l1))
                           diags [] [] [] [] [] [])) as Hspec.
  simpl in Hspec. rewrite <- Hwalk in Hspec.
  destruct Hspec as (_ & _ & _ & _ & _ & He & _).
  destruct (notifyParent_spec env l2) as (_ & _ & _ & _ & _ & _ & _ & He' & _).
  exists (wDiags w), (notifyParent env l2). split; [done|].
  rewrite He', Hl2. simpl. rewrite He.
  apply wiredGraph_builds in Hw as [(_ & _ & _ & _ & _ & _ & -> & _) _]. done.
Qed.

(** X6.  [Apply] calls the parent callback at most once, and only when
    the callback is set and the cache's export index differs from the
    one recorded: it then hands over the module exports of the cache and
    records the index.  When it returns early on an error it does not
    call it; when it has installed a graph and the callback is set, the
    index recorded afterwards is the cache's. *)
Theorem Apply_notifies_parent_once l args cbs fbs dbs :
  exists l1 g diags,
    wiredGraph env l args cbs fbs dbs = Some (l1, g, diags) /\
    exists diags' l',
      Apply env l args cbs fbs dbs = Some (diags', l') /\
      (notified l' = notified l /\ moduleExportIndex l' = moduleExportIndex l
       \/
       OnExportsChange env = true /\
       ExportChangeIndex (cache l') ≠ moduleExportIndex l /\
       notified l' = notified l ++ [CreateModuleExports (cache l')] /\
       moduleExportIndex l' = ExportChangeIndex (cache l')) /\
      (HasErrors (validateAndReduce l1 g diags).2 = true ->
       notified l' = notified l) /\
      (HasErrors (validateAndReduce l1 g diags).2 = false ->
       OnExportsChange env = true ->
       moduleExportIndex l' = ExportChangeIndex (cache l')).
Proof.
  destruct (wiredGraph_total env l args cbs fbs dbs) as [[[l1 g] diags] Hw].
  exists l1, g, diags. split; [done|].
  pose proof (wiredGraph_builds env _ _ _ _ _ _ _ _ Hw) as [Hsame _].
  destruct Hsame as (_ & _ & _ & _ & _ & Hm1 & _ & Hn1). simpl in Hm1, Hn1.
  destruct (HasErrors (validateAndReduce l1 g diags).2) eqn:Herr.
  - rewrite Apply_unfold, Hw.
    pose proof (validateAndReduce_frame l1 g diags) as [Hsame2 _].
    destruct (validateAndReduce l1 g diags) as [[l2 g2] d2]. simpl in *.
    rewrite Herr. destruct Hsame2 as (_ & _ & _ & _ & _ & Hm2 & _ & Hn2).
    exists d2, l2. split; [done|].
    split; [left; split; congruence|]. split; [intros _; congruence|done].
  - assert (Validate (NodeID (store l1)) g = []) as Hvalid.
    { destruct (Validate (NodeID (store l1)) g) as [|e err] eqn:Hv; [done|].
      unfold validateAndReduce in Herr. rewrite Hv in Herr. simpl in Herr.
      rewrite HasErrors_app in Herr. simpl in Herr.
      by rewrite orb_true_r in Herr. }
    rewrite (validateAndReduce_valid _ _ _ Hvalid) in Herr. simpl in Herr.
    destruct (Apply_success env l args cbs fbs dbs l1 g diags Hw Herr Hvalid)
      as (w & l2 & Hwalk & Hl2 & Happ).
    pose proof (evaluateNodes_spec env (evaluationOrder (Reduce g))
                  (MkWalking (setCache (ClearModuleExports (cache l1))
                                       (setOriginalGraph (Clone g) l1))
                             diags [] [] [] [] [] [])) as Hspec.
    simpl in Hspec. rewrite <- Hwalk in Hspec.
    destruct Hspec as (_ & _ & _ & Hm & Hn & _).
    assert (notified l2 = notified l) as Hn2 by (rewrite Hl2; simpl; congruence).
    assert (moduleExportIndex l2 = moduleExportIndex l) as Hm2
        by (rewrite Hl2; simpl; congruence).
    destruct (notifyParent_spec env l2)
      as (_ & _ & _ & _ & _ & _ & Hc & _ & [(Hn' & Hm' & Hsync)|(Hon & Hne & Hn' & Hm')]).
    + exists (wDiags w), (notifyParent env l2). split; [done|].
      split; [left; split; congruence|]. split; [done|].
      intros _ Hon. rewrite Hm', Hc. symmetry. by apply Hsync.
    + exists (wDiags w), (notifyParent env l2). split; [done|].
      split; [|split; [done|by rewrite Hc]].
      right. rewrite Hc. split; [done|]. split; [congruence|].
      split; [congruence|done].
Qed.

(** X7.  When the wired graph is free of cycles but an earlier diagnostic
    is an error, [Apply] returns early and the installed graph stays, yet
    the original graph of the Loader is already the copy of the rejected
    graph: [loadNewGraph] has stored it before [Apply] looks at the
    diagnostics. *)
Theorem Apply_rejected_graph_is_original l args cbs fbs dbs :
  exists l1 g diags,
    wiredGraph env l args cbs fbs dbs = Some (l1, g, diags) /\
    (HasErrors diags = true ->
     Validate (NodeID (store l1)) g = [] ->
     exists l',
       Apply env l args cbs fbs dbs = Some (diags, l') /\
       graph l' = graph l /\
       originalGraph l' = Clone g /\
       OriginalGraph l' = Clone g).
Proof.
  destruct (wiredGraph_total env l args cbs fbs dbs) as [[[l1 g] diags] Hw].
  exists l1, g, diags. split; [done|]. intros Herr Hvalid.
  rewrite Apply_unfold, Hw, (validateAndReduce_valid _ _ _ Hvalid), Herr.
  eexists. split; [done|]. simpl.
  apply wiredGraph_builds in Hw as [(-> & _) _]. done.
Qed.
End Success.

Lemma Apply_installs_new_graph_witness :
  exists diags' l',
    Apply sampleEnv NewLoader ∅ [blockA; blockB; blockC] [] [] = Some (diags', l') /\
    blocks l' = [blockA; blockB; blockC] /\
    componentNodes l' = [nodeA; nodeB; nodeC] /\
    serviceNodes l' = [].
Proof.
  destruct (Apply_installs_new_graph sampleEnv NewLoader ∅ [blockA; blockB; blockC] [] [])
    as (l1 & g & diags & Hw & Hrest).
  vm_compute in Hw. injection Hw as <- <- <-.
  destruct Hrest as (diags' & l' & Happ & _ & _ & Hb & Hc & Hs & _);
    [reflexivity|reflexivity|].
  exists diags', l'. split; [exact Happ|]. split; [exact Hb|].
  split; [rewrite Hc|rewrite Hs]; reflexivity.
Defined.

Lemma Apply_evaluates_in_order_witness :
  exists diags' l',
    Apply sampleEnv NewLoader ∅ [blockC; blockB; blockA] [] [] = Some (diags', l') /\
    evaluated l'
    = ["logging"; "tracing"; "testcomponents.passthrough.a";
       "testcomponents.passthrough.b"; "testcomponents.passthrough.c"].
Proof.
  destruct (Apply_evaluates_in_order sampleEnv NewLoader ∅ [blockC; blockB; blockA] [] [])
    as (l1 & g & diags & Hw & _ & Hrest).
  vm_compute in Hw. injection Hw as <- <- <-.
  destruct Hrest as (diags' & l' & Happ & He); [reflexivity|reflexivity|].
  exists diags', l'. split; [exact Happ|]. rewrite He. reflexivity.
Defined.

Lemma Apply_notifies_parent_once_witness :
  exists diags' l',
    Apply moduleEnv NewLoader ∅ [] [blockExport] [] = Some (diags', l') /\
    notified l' = [{["out" := 7%Z]}] /\ moduleExportIndex l' = 1%Z.
Proof.
  destruct (Apply_notifies_parent_once moduleEnv NewLoader ∅ [] [blockExport] [])
    as (l1 & g & diags & Hw & diags' & l' & Happ & _ & _ & Hsync).
  exists diags', l'. split; [exact Happ|].
  vm_compute in Happ. injection Happ as <- <-. split; reflexivity.
Defined.

Lemma Apply_rejected_graph_is_original_witness :
  exists diags l',
    Apply sampleEnv previous ∅ [blockUnknown; blockA] [] [] = Some (diags, l') /\
    graph l' = graph previous /\
    nodes (originalGraph previous) = [0; 1; nodeA; nodeB; nodeC] /\
    nodes (originalGraph l') = [5; 6; nodeA].
Proof.
  destruct (Apply_rejected_graph_is_original sampleEnv previous ∅
              [blockUnknown; blockA] [] [])
    as (l1 & g & diags & Hw & Hrest).
  vm_compute in Hw. injection Hw as <- <- <-.
  destruct Hrest as (l' & Happ & Hg & Hog & _); [reflexivity|reflexivity|].
  eexists _, l'. split; [exact Happ|]. split; [exact Hg|].
  split; [reflexivity|]. rewrite Hog. reflexivity.
Defined.
End apply_success_facts.

(** ** Evaluations that fail during [Apply] *)
Module apply_failure_facts.
Import loader_spec declare declare_spec apply_facts more_examples apply_success_facts.

Section Failure.
Context `{MapRange}.
Variable env : Collaborators.
Variable id msg : string.
Hypothesis fails :
  forall o c, nodeID o = id -> evalError (Evaluate env o c) = Some (OtherError msg).

Lemma evaluateNode_failure w n o reg :
  objects (store (wLoader w)) !! n = Some o ->
  kind o = ComponentNode reg ->
  nodeID o = id ->
  failedToBuild o msg ∈ wDiags (evaluateNode env w n).
Proof.
  destruct w as [l diags cs ids ss dids eids nss]. simpl.
  intros Ho Hk Hid. unfold evaluateNode. rewrite Ho. unfold evaluate.
  rewrite (fails o (cache l) Hid). unfold postEvaluate. simpl. rewrite !Hk. simpl.
  apply elem_of_app. right. by left.
Qed.

Lemma evaluateNodes_diags ns :
  forall w d, d ∈ wDiags w -> d ∈ wDiags (fold_left (evaluateNode env) ns w).
Proof.
  intros w d Hd.
  destruct (evaluateNodes_spec env ns w) as (_ & _ & _ & _ & _ & _ & _ & _ & ds & ->).
  apply elem_of_app. by left.
Qed.

Lemma evaluateNodes_failure ns :
  forall w n o reg,
    n ∈ ns ->
    objects (store (wLoader w)) !! n = Some o ->
    kind o = ComponentNode reg ->
    nodeID o = id ->
    failedToBuild o msg ∈ wDiags (fold_left (evaluateNode env) ns w).
Proof.
  induction ns as [|m ns IH]; intros w n o reg Hn Ho Hk Hid.
  { by apply elem_of_nil in Hn. }
  simpl. apply elem_of_cons in Hn as [->|Hn].
  - apply evaluateNodes_diags. by eapply evaluateNode_failure.
  - destruct (evaluateNode_spec env w m) as (Hs & _). specialize (Hs n).
    rewrite Ho in Hs.
    destruct (objects (store (wLoader (evaluateNode env w m))) !! n) as [o'|] eqn:Ho';
      [|done].
    destruct Hs as (Hk' & Hid' & _ & Hb' & _).
    assert (failedToBuild o msg = failedToBuild o' msg) as ->
        by (unfold failedToBuild; by rewrite Hb').
    eapply IH; [done|done|by rewrite Hk'|by rewrite Hid'].
Qed.

(** X8.  A component whose evaluation fails with an error that is not a
    collection of diagnostics does not stop [Apply]: the diagnostics
    returned hold an error saying that the component failed to build, at
    the position of its block, and the new graph is installed all the
    same, the component among its component nodes. *)
Theorem Apply_reports_failed_component l args cbs fbs dbs :
  exists l1 g diags,
    wiredGraph env l args cbs fbs dbs = Some (l1, g, diags) /\
    (HasErrors diags = false ->
     Validate (NodeID (store l1)) g = [] ->
     forall n o reg,
       n ∈ evaluationOrder (Reduce g) ->
       objects (store l1) !! n = Some o ->
       kind o = ComponentNode reg ->
       nodeID o = id ->
       exists diags' l',
         Apply env l args cbs fbs dbs = Some (diags', l') /\
         failedToBuild o msg ∈ diags' /\
         HasErrors diags' = true /\
         graph l' = Reduce g /\
         n ∈ componentNodes l').
Proof.
  destruct (wiredGraph_total env l args cbs fbs dbs) as [[[l1 g] diags] Hw].
  exists l1, g, diags. split; [done|]. intros Herr Hvalid n o reg Hn Ho Hk Hid.
  destruct (Apply_success env l args cbs fbs dbs l1 g diags Hw Herr Hvalid)
    as (w & l2 & Hwalk & Hl2 & Happ).
  pose proof (evaluateNodes_spec env (evaluationOrder (Reduce g))
                (MkWalking (setCache (ClearModuleExports (cache l1))
                                     (setOriginalGraph (Clone g) l1))
                           diags [] [] [] [] [] [])) as Hspec.
  simpl in Hspec. rewrite <- Hwalk in Hspec.
  destruct Hspec as (_ & _ & _ & _ & _ & _ & Hc & _).
  destruct (notifyParent_spec env l2) as (_ & Hg' & _ & Hc' & _).
  assert (failedToBuild o msg ∈ wDiags w) as Hd.
  { rewrite Hwalk. by eapply evaluateNodes_failure. }
  exists (wDiags w), (notifyParent env l2). split; [done|]. split; [done|].
  split; [by eapply HasErrors_elem_of|].
  rewrite Hg', Hc', Hl2. simpl. split; [done|]. rewrite Hc.
  apply list_elem_of_filter. split; [|done].
  unfold hasKind, isComponentNode. by rewrite Ho, Hk.
Qed.
End Failure.

Lemma Apply_reports_failed_component_witness :
  (forall o c, nodeID o = "testcomponents.passthrough.b" ->
               evalError (Evaluate failingEnv o c) = Some (OtherError "boom")) /\
  exists diags' l',
    Apply failingEnv NewLoader ∅ [blockA; blockB; blockC] [] [] = Some (diags', l') /\
    MkDiagnostic SeverityLevelError "Failed to build component: boom" (Some 2) (Some 2)
      ∈ diags' /\
    HasErrors diags' = true /\
    nodes (graph l') = [0; 1; nodeA; nodeB; nodeC] /\
    nodeB ∈ componentNodes l'.
Proof.
  assert (forall o c, nodeID o = "testcomponents.passthrough.b" ->
                      evalError (Evaluate failingEnv o c) = Some (OtherError "boom"))
    as Hfails.
  { intros o c Hid. simpl. by rewrite decide_True. }
  split; [exact Hfails|].
  destruct (Apply_reports_failed_component failingEnv _ "boom" Hfails NewLoader ∅
              [blockA; blockB; blockC] [] [])
    as (l1 & g & diags & Hw & Hrest).
  vm_compute in Hw. injection Hw as <- <- <-.
  destruct (Hrest eq_refl eq_refl nodeB
              (NewComponentNode "testcomponents.passthrough" blockB)
              "testcomponents.passthrough")
    as (diags' & l' & Happ & Hd & Herr & Hg & Hc);
    [vm_compute; repeat constructor|reflexivity|reflexivity|reflexivity|].
  exists diags', l'. split; [exact Happ|]. split; [exact Hd|]. split; [exact Herr|].
  split; [rewrite Hg; reflexivity|exact Hc].
Defined.
End apply_failure_facts.

(** ** What [Apply] leaves in the cache *)
Module apply_cache_facts.
Import loader_spec declare declare_spec apply_facts more_examples apply_success_facts.

Section Synced.
Context `{MapRange}.
Variable env : Collaborators.

Lemma evaluateNode_componentIDs w n :
  componentIDs w = NodeID (store (wLoader w)) <$> components w ->
  componentIDs (evaluateNode env w n)
  = NodeID (store (wLoader (evaluateNode env w n))) <$> components (evaluateNode env w n).
Proof.
  intros Hids.
  destruct (evaluateNode_spec env w n) as (Hs & _ & _ & _ & _ & _ & Hc & _).
  assert (forall m, NodeID (store (wLoader (evaluateNode env w n))) m
                    = NodeID (store (wLoader w)) m) as Hid
      by (intros m; by apply sameIdentity_hasKind).
  rewrite Hc, fmap_app, (list_fmap_ext _ (NodeID (store (wLoader w))) (components w))
    by (intros; apply Hid).
  rewrite <- Hids. clear Hc.
  rewrite (list_fmap_ext _ (NodeID (store (wLoader w)))) by (intros; apply Hid).
  destruct w as [l diags cs ids ss dids eids nss]. unfold evaluateNode.
  rewrite filter_cons, filter_nil. unfold hasKind, NodeID, isComponentNode. simpl.
  destruct (objects (store l) !! n) as [o|] eqn:Ho; simpl.
  2:{ repeat case_decide; simpl; rewrite ?app_nil_r; done. }
  destruct (evaluate env l n o) as [l' err].
  destruct (kind o) as [reg|deps|k|] eqn:Hk; [| |destruct k|]; simpl;
    repeat case_decide; simpl; rewrite ?Ho, ?app_nil_r; done.
Qed.

Lemma evaluateNodes_componentIDs ns :
  forall w,
    componentIDs w = NodeID (store (wLoader w)) <$> components w ->
    componentIDs (fold_left (evaluateNode env) ns w)
    = NodeID (store (wLoader (fold_left (evaluateNode env) ns w)))
        <$> components (fold_left (evaluateNode env) ns w).
Proof.
  induction ns as [|n ns IH]; intros w Hw; [done|].
  simpl. by apply IH, evaluateNode_componentIDs.
Qed.

(** X21.  After [Apply] has installed a graph, the cache holds arguments
    and exports for components of that graph only: an entry under an ID
    that no installed component node has is dropped. *)
Theorem Apply_drops_stale_cache_entries l args cbs fbs dbs :
  exists l1 g diags,
    wiredGraph env l args cbs fbs dbs = Some (l1, g, diags) /\
    (HasErrors diags = false ->
     Validate (NodeID (store l1)) g = [] ->
     exists diags' l',
       Apply env l args cbs fbs dbs = Some (diags', l') /\
       forall id,
         is_Some (cachedArguments (cache l') !! id)
         \/ is_Some (cachedExports (cache l') !! id) ->
         id ∈ NodeID (store l') <$> componentNodes l').
Proof.
  destruct (wiredGraph_total env l args cbs fbs dbs) as [[[l1 g] diags] Hw].
  exists l1, g, diags. split; [done|]. intros Herr Hvalid.
  destruct (Apply_success env l args cbs fbs dbs l1 g diags Hw Herr Hvalid)
    as (w & l2 & Hwalk & Hl2 & Happ).
  pose proof (evaluateNodes_componentIDs (evaluationOrder (Reduce g))
                (MkWalking (setCache (ClearModuleExports (cache l1))
                                     (setOriginalGraph (Clone g) l1))
                           diags [] [] [] [] [] []) eq_refl) as Hids.
  rewrite <- Hwalk in Hids.
  destruct (notifyParent_spec env l2) as (Hs' & _ & _ & Hc' & _ & _ & Hcache & _).
  exists (wDiags w), (notifyParent env l2). split; [done|].
  rewrite Hs', Hc', Hcache, Hl2. simpl. rewrite <- Hids.
  intros id [[v Hv]|[v Hv]]; apply map_lookup_filter_Some in Hv as [_ Hv]; done.
Qed.
End Synced.

Lemma Apply_drops_stale_cache_entries_witness :
  exists diags' l',
    Apply sampleEnv previous ∅ [blockA] [] [] = Some (diags', l') /\
    is_Some (cachedExports (cache previous) !! "testcomponents.passthrough.b") /\
    cachedExports (cache l') !! "testcomponents.passthrough.b" = None /\
    is_Some (cachedExports (cache l') !! "testcomponents.passthrough.a").
Proof.
  destruct (Apply_drops_stale_cache_entries sampleEnv previous ∅ [blockA] [] [])
    as (l1 & g & diags & Hw & Hrest).
  vm_compute in Hw. injection Hw as <- <- <-.
  destruct Hrest as (diags' & l' & Happ & Hcache); [reflexivity|reflexivity|].
  exists diags', l'. split; [exact Happ|].
  vm_compute in Happ. injection Happ as <- <-.
  split; [vm_compute; by eexists|]. split; [reflexivity|]. vm_compute. by eexists.
Defined.
End apply_cache_facts.

(** ** More about [EvaluateDependencies] *)
Module dependants_more_facts.
Import loader_spec more_examples scheduling scheduling_spec.

Lemma Wait_keeps_accepted out p b : accepted (Wait out p b).1 = accepted p.
Proof.
  unfold Wait. destruct (NextDelay b _) as [sleepTime b']. unfold Ongoing.
  by destruct (_ && _).
Qed.

(** The loop for one dependant adds at most its task to the accepted
    ones. *)
Lemma retryLoop_adds out fuel s n parent :
  forall p b err p' b' err',
    retryLoop out fuel s p b n parent err = Some (p', b', err') ->
    accepted p' = accepted p \/ accepted p' = accepted p ++ [(NodeID s n, n, parent)].
Proof.
  induction fuel as [|fuel IH]; intros p b err p' b' err' Hloop; [done|].
  simpl in Hloop. destruct (_ && _) in Hloop.
  - destruct (queueFull out (submissions p)) eqn:Hfull.
    + pose proof (Wait_keeps_accepted out
                    (logRetry (MkRetry (NodeID s n) (NodeID s parent) (NumRetries b))
                       (MkProgress (S (consulted p)) (S (submissions p)) (drawn p)
                          (accepted p) (errorLog p) (slept p) (spans p))) b) as Hw.
      destruct (Wait out _ b) as [p1 b1]. simpl in Hw.
      apply IH in Hloop. by rewrite Hw in Hloop.
    + simplify_eq. by right.
  - simplify_eq. by left.
Qed.

Lemma submitDependants_adds out fuel s entries :
  forall p p',
    fold_left (submitDependant out fuel s) entries (Some p) = Some p' ->
    exists new,
      accepted p' = accepted p ++ new /\
      sublist new ((fun e : Node * Node => (NodeID s e.1, e.1, e.2)) <$> entries).
Proof.
  induction entries as [|[n parent] entries IH]; intros p p' Hfold.
  { simpl in Hfold. simplify_eq. exists []. by rewrite app_nil_r. }
  simpl in Hfold.
  destruct (retryLoop out fuel s p (New backoffConfig) n parent false)
    as [[[p1 b1] e1]|] eqn:Hloop.
  - apply retryLoop_adds in Hloop.
    apply IH in Hfold as (new & Hacc & Hsub). simpl in Hacc.
    destruct Hloop as [Heq|Heq]; rewrite Heq in Hacc.
    + exists new. split; [done|]. simpl. by apply sublist_cons.
    + exists ((NodeID s n, n, parent) :: new). rewrite <- app_assoc in Hacc.
      split; [done|]. simpl. by apply sublist_skip.
  - exfalso. clear -Hfold. induction entries as [|e entries IH']; [done|].
    by apply IH'.
Qed.

Lemma collectDependants_last parent ns :
  forall m n,
    fold_left (collectDependant parent) ns m !! n
    = if decide (n ∈ ns) then Some parent else m !! n.
Proof.
  induction ns as [|x ns IH]; intros m n; simpl; [done|].
  rewrite IH. unfold collectDependant.
  destruct (decide (n ∈ ns)) as [Hin|Hin].
  - rewrite decide_True; [done|]. by right.
  - destruct (decide (n = x)) as [->|Hne].
    + rewrite lookup_insert_eq, decide_True; [done|]. by left.
    + rewrite lookup_insert_ne by done. rewrite decide_False; [done|].
      intros [?|?]%elem_of_cons; done.
Qed.

Lemma originator_cons g parent updatedNodes n :
  originator g (parent :: updatedNodes) n
  = match originator g updatedNodes n with
    | Some q => Some q
    | None => if decide (n ∈ WalkIncomingNodes g parent) then Some parent else None
    end.
Proof.
  unfold originator. rewrite filter_cons. case_decide; [by rewrite last_cons|].
  by destruct (last _).
Qed.

Lemma dependenciesToParents_originator updatedNodes :
  forall l m,
    store (fold_left collect updatedNodes (l, m)).1 = store l /\
    graph (fold_left collect updatedNodes (l, m)).1 = graph l /\
    forall n,
      (fold_left collect updatedNodes (l, m)).2 !! n
      = match originator (graph l) updatedNodes n with
        | Some q => Some q
        | None => m !! n
        end.
Proof.
  induction updatedNodes as [|parent updatedNodes IH]; intros l m; [done|].
  change (fold_left collect (parent :: updatedNodes) (l, m))
    with (fold_left collect updatedNodes (collect (l, m) parent)).
  destruct (collect (l, m) parent) as [l2 m2] eqn:Hc.
  assert (store l2 = store l /\ graph l2 = graph l /\
          m2 = fold_left (collectDependant parent)
                         (WalkIncomingNodes (graph l) parent) m) as (Hs2 & Hg2 & ->)
      by (unfold collect in Hc; by simplify_eq).
  destruct (IH l2 (fold_left (collectDependant parent)
                             (WalkIncomingNodes (graph l) parent) m))
    as (Hs & Hg & Hm).
  split; [congruence|]. split; [congruence|].
  intros n. rewrite Hm, Hg2, originator_cons, collectDependants_last.
  destruct (originator (graph l) updatedNodes n); [done|]. by case_decide.
Qed.

Section Once.
Context `{MapRange}.

(** X9.  Within one call a node is handed to the pool at most once, even
    when it has edges to several of the updated nodes: the tasks the call
    adds to the accepted ones are for different nodes, each under the ID
    of its node and with the last updated node it has an edge to as
    originator. *)
Theorem EvaluateDependencies_submits_each_once out fuel l p updatedNodes l' p' :
  EvaluateDependencies out fuel l p updatedNodes = Some (l', p') ->
  exists new,
    accepted p' = accepted p ++ new /\
    NoDup ((fun t : string * Node * Node => t.1.2) <$> new) /\
    forall key n parent,
      (key, n, parent) ∈ new ->
      key = NodeID (store l) n /\
      originator (graph l) updatedNodes n = Some parent.
Proof.
  intros Heval. unfold EvaluateDependencies in Heval.
  destruct updatedNodes as [|u updatedNodes].
  { simplify_eq. exists []. rewrite app_nil_r. split; [done|].
    split; [constructor|]. by intros ? ? ? ?%elem_of_nil. }
  unfold dependenciesToParents in Heval.
  destruct (dependenciesToParents_originator (u :: updatedNodes) l ∅)
    as (Hs & _ & Hm).
  destruct (fold_left collect (u :: updatedNodes) (l, ∅)) as [l1 m].
  simpl in Hs, Hm.
  destruct (fold_left _ (range m) (Some p)) as [p1|] eqn:Hfold; [|done].
  simplify_eq. rewrite Hs in Hfold.
  apply submitDependants_adds in Hfold as (new & Hacc & Hsub).
  exists new. split; [done|]. split.
  - pose proof (fmap_sublist (fun t : string * Node * Node => t.1.2) _ _ Hsub) as Hsub'.
    eapply sublist_NoDup; [|exact Hsub'].
    rewrite <- list_fmap_compose.
    rewrite (range_Permutation m).
    apply (NoDup_fst_map_to_list m).
  - intros key n parent Hin.
    assert ((key, n, parent)
              ∈ (fun e : Node * Node => (NodeID (store l) e.1, e.1, e.2)) <$> range m)
      as Hin' by (by eapply elem_of_sublist).
    apply list_elem_of_fmap in Hin' as ([n' q] & Heq & Hin'). simpl in Heq.
    simplify_eq. split; [done|].
    rewrite (range_Permutation m) in Hin'. apply elem_of_map_to_list in Hin'.
    rewrite Hm, lookup_empty in Hin'.
    by destruct (originator _ _ _).
Qed.
End Once.

Lemma EvaluateDependencies_submits_each_once_witness :
  WalkIncomingNodes (graph fanIn) nodeA = [nodeD] /\
  WalkIncomingNodes (graph fanIn) nodeE = [nodeD] /\
  originator (graph fanIn) [nodeA; nodeE] nodeD = Some nodeE /\
  exists l' p',
    EvaluateDependencies eagerPool 1 fanIn noProgress [nodeA; nodeE] = Some (l', p') /\
    exists new,
      accepted p' = accepted noProgress ++ new /\
      NoDup ((fun t : string * Node * Node => t.1.2) <$> new) /\
      forall key n parent,
        (key, n, parent) ∈ new ->
        key = NodeID (store fanIn) n /\
        originator (graph fanIn) [nodeA; nodeE] n = Some parent.
Proof.
  split; [reflexivity|]. split; [reflexivity|]. split; [reflexivity|].
  destruct (EvaluateDependencies eagerPool 1 fanIn noProgress [nodeA; nodeE])
    as [[l' p']|] eqn:Heval; [|vm_compute in Heval; discriminate].
  exists l', p'. split; [reflexivity|].
  exact (EvaluateDependencies_submits_each_once
           eagerPool 1 fanIn noProgress [nodeA; nodeE] l' p' Heval).
Defined.
End dependants_more_facts.

Module dependants_cache_facts.
Import loader_spec more_examples scheduling scheduling_spec.

Lemma onlyExports_refl l : onlyExports l l.
Proof. unfold onlyExports. by destruct l as [? ? ? ? ? [] ? ? ? ?]. Qed.

Lemma onlyExports_store l l' : onlyExports l l' -> store l' = store l.
Proof. by intros ->. Qed.

Lemma collect_spec l0 l m parent :
  onlyExports l0 l ->
  onlyExports l0 (collect (l, m) parent).1 /\
  match objects (store l0) !! parent with
  | Some o =>
      cachedExports (cache (collect (l, m) parent).1)
      = <[nodeID o := exports o]> (cachedExports (cache l))
  | None => cachedExports (cache (collect (l, m) parent).1) = cachedExports (cache l)
  end.
Proof.
  intros Hl. pose proof (onlyExports_store _ _ Hl) as Hs.
  unfold collect. simpl. rewrite Hs.
  destruct (objects (store l0) !! parent) as [o|]; (split; [|done]);
    unfold onlyExports in *; rewrite Hl; reflexivity.
Qed.

Lemma dependenciesToParents_cache updatedNodes :
  forall l0 l m,
    onlyExports l0 l ->
    let l' := (fold_left collect updatedNodes (l, m)).1 in
    onlyExports l0 l' /\
    (forall id, id ∉ NodeID (store l0) <$> present (store l0) updatedNodes ->
                cachedExports (cache l') !! id = cachedExports (cache l) !! id) /\
    (forall id, id ∈ NodeID (store l0) <$> present (store l0) updatedNodes ->
                exists parent o,
                  parent ∈ updatedNodes /\ objects (store l0) !! parent = Some o /\
                  nodeID o = id /\
                  cachedExports (cache l') !! id = Some (exports o)).
Proof.
  induction updatedNodes as [|parent updatedNodes IH]; intros l0 l m Hl l'; subst l'.
  { simpl. split; [done|]. split; [done|]. by intros id ?%elem_of_nil. }
  change (fold_left collect (parent :: updatedNodes) (l, m))
    with (fold_left collect updatedNodes (collect (l, m) parent)).
  destruct (collect_spec l0 l m parent Hl) as [Hl2 Hc].
  destruct (collect (l, m) parent) as [l2 m2]. simpl in Hl2, Hc.
  destruct (IH l0 l2 m2 Hl2) as (Hl' & Hother & Hupdated).
  split; [done|]. unfold present in *. rewrite filter_cons.
  destruct (objects (store l0) !! parent) as [o|] eqn:Ho.
  - rewrite decide_True by (by eexists). rewrite fmap_cons.
    unfold NodeID at 1 3. rewrite Ho. split.
    + intros id Hid. apply not_elem_of_cons in Hid as [Hne Hid].
      rewrite (Hother id Hid), Hc. by rewrite lookup_insert_ne.
    + intros id Hid.
      destruct (decide (id ∈ NodeID (store l0)
                  <$> filter (fun n => is_Some (objects (store l0) !! n)) updatedNodes))
        as [Hin|Hnin].
      * destruct (Hupdated id Hin) as (q & o' & Hq & Ho' & Hid' & Hex).
        exists q, o'. split; [by right|done].
      * apply elem_of_cons in Hid as [->|Hid]; [|done].
        exists parent, o. split; [by left|]. split; [done|]. split; [done|].
        rewrite (Hother _ Hnin), Hc. by rewrite lookup_insert_eq.
  - rewrite decide_False by (by intros []). split.
    + intros id Hid. rewrite (Hother id Hid). by rewrite Hc.
    + intros id Hid. destruct (Hupdated id Hid) as (q & o' & Hq & Hrest).
      exists q, o'. split; [by right|done].
Qed.

Section Cache.
Context `{MapRange}.

(** X10.  [EvaluateDependencies] evaluates nothing itself and changes
    nothing of the Loader but the cached exports: the entry of every
    updated node is brought in line with the exports of a node of the
    batch with that ID, and the entries of other IDs stay. *)
Theorem EvaluateDependencies_caches_exports out fuel l p updatedNodes l' p' :
  EvaluateDependencies out fuel l p updatedNodes = Some (l', p') ->
  onlyExports l l' /\
  evaluated l' = evaluated l /\
  (forall id, id ∉ NodeID (store l) <$> present (store l) updatedNodes ->
              cachedExports (cache l') !! id = cachedExports (cache l) !! id) /\
  (forall id, id ∈ NodeID (store l) <$> present (store l) updatedNodes ->
              exists parent o,
                parent ∈ updatedNodes /\ objects (store l) !! parent = Some o /\
                nodeID o = id /\
                cachedExports (cache l') !! id = Some (exports o)).
Proof.
  intros Heval. unfold EvaluateDependencies in Heval.
  destruct updatedNodes as [|u updatedNodes].
  { simplify_eq. split; [apply onlyExports_refl|]. split; [done|].
    split; [done|]. by intros id ?%elem_of_nil. }
  unfold dependenciesToParents in Heval.
  destruct (dependenciesToParents_cache (u :: updatedNodes) l l ∅ (onlyExports_refl l))
    as (Hl & Hother & Hupdated).
  destruct (fold_left collect (u :: updatedNodes) (l, ∅)) as [l1 m].
  destruct (fold_left _ (range m) (Some p)) as [p1|]; [|done].
  simplify_eq. simpl in *. split; [done|]. split; [by rewrite Hl|done].
Qed.
End Cache.

Lemma EvaluateDependencies_caches_exports_witness :
  exists l' p',
    EvaluateDependencies eagerPool 1 fanIn noProgress [nodeA; nodeE] = Some (l', p') /\
    onlyExports fanIn l' /\ evaluated l' = evaluated fanIn /\
    exists parent o,
      parent ∈ [nodeA; nodeE] /\ objects (store fanIn) !! parent = Some o /\
      nodeID o = "testcomponents.passthrough.e" /\
      cachedExports (cache l') !! "testcomponents.passthrough.e" = Some (exports o).
Proof.
  destruct (EvaluateDependencies eagerPool 1 fanIn noProgress [nodeA; nodeE])
    as [[l' p']|] eqn:Heval; [|vm_compute in Heval; discriminate].
  exists l', p'. split; [reflexivity|].
  destruct (EvaluateDependencies_caches_exports
              eagerPool 1 fanIn noProgress [nodeA; nodeE] l' p' Heval)
    as (Hl & He & _ & Hupdated).
  split; [exact Hl|]. split; [exact He|].
  apply Hupdated. vm_compute. repeat constructor.
Defined.
End dependants_cache_facts.

(** ** More about the notifications of the parent *)
Module concurrent_more_facts.
Import concurrent_spec concurrent_facts.

Lemma stale_false_in_sync s :
  stale true s = false -> exportChangeIndex s = moduleExportIndex s.
Proof.
  unfold stale. simpl. intros Hs. apply negb_false_iff in Hs.
  by apply bool_decide_eq_true in Hs.
Qed.

Lemma submitted_settling st0 : submitted st0 -> settling st0 st0.
Proof.
  intros ((_ & _ & _ & _) & Hall & Hsync). split.
  - eapply Forall_impl; [exact Hall|]. by intros p ->.
  - done.
  - intros _. split; [done|]. unfold count. clear -Hall.
    induction Hall as [|p tasks -> _ IH]; [done|]. by rewrite filter_cons.
  - lia.
Qed.

Lemma taskStep_settling st0 s tasks i p s' p' :
  tasks !! i = Some p ->
  taskStep true s p s' p' ->
  settling st0 (s, tasks) -> settling st0 (s', <[i := p']> tasks).
Proof.
  intros Hi Hstep [Hev Hpend Hsilent Hgrows]; simpl in *.
  assert (ofEvaluation p = true) as Hp.
  { rewrite Forall_forall in Hev. apply Hev. by eapply list_elem_of_lookup_2. }
  pose proof (count_insert pendingCheck tasks i p p' Hi) as Cp.
  pose proof (count_insert notifying tasks i p p' Hi) as Cn.
  pose proof (count_holder pendingCheck tasks i p Hi) as Pp.
  pose proof (count_holder notifying tasks i p Hi) as Pn.
  destruct Hstep; try discriminate;
    repeat match goal with
           | H : stale true _ = false |- _ => apply stale_false_in_sync in H
           end;
    simpl in *;
    (split; simpl;
     [by apply Forall_insert
     |try (intros; lia); try done
     |intros Hlog;
      first [ by destruct (app_cons_not_nil _ _ _ (eq_sym Hlog))
            | destruct (Hsilent Hlog) as [? ?];
              first [ split; [done|lia] | exfalso; lia ] ]
     |try lia; try (destruct changed; lia)]).
Qed.

Lemma step_settling st0 st st' :
  step true st st' -> settling st0 st -> settling st0 st'.
Proof. destruct 1. by eapply taskStep_settling. Qed.

Lemma count_finished (f : Point -> bool) tasks :
  f Finished = false -> Forall (fun p => p = Finished) tasks -> count f tasks = 0.
Proof.
  intros Hf Hall. unfold count. induction Hall as [|p tasks -> _ IH]; [done|].
  rewrite filter_cons, decide_False; [done|]. by rewrite Hf.
Qed.

(** X11.  Evaluations that are submitted while the parent is up to date
    leave it up to date: once all of them have run to their end, the index
    recorded is the cache's, and when the cache's index has moved since
    they were submitted, the last version the callback was called for is
    the current one. *)
Theorem evaluations_leave_parent_up_to_date st0 st :
  submitted st0 ->
  rtc (step true) st0 st ->
  Forall (fun p => p = Finished) st.2 ->
  exportChangeIndex st.1 = moduleExportIndex st.1 /\
  (exportChangeIndex st.1 ≠ exportChangeIndex st0.1 ->
   last (notifiedVersions st.1) = Some (exportChangeIndex st.1)).
Proof.
  intros Hsub Hsteps Hdone.
  assert (settling st0 st /\ invariant st) as [Hset Hinv].
  { apply (rtc_ind_r (R := step true) (fun st => settling st0 st /\ invariant st) st0);
      [|intros st1 st2 _ Hstep [Hs Hi]|exact Hsteps].
    - split; [by apply submitted_settling|]. apply initial_invariant. by destruct Hsub.
    - split; [by eapply step_settling|by eapply step_invariant]. }
  destruct Hset as [_ Hpend Hsilent _]. destruct Hinv as [_ _ _ _ _ Hlast].
  pose proof (count_finished pendingCheck _ eq_refl Hdone) as Hp.
  pose proof (count_finished notifying _ eq_refl Hdone) as Hn.
  assert (exportChangeIndex st.1 = moduleExportIndex st.1) as Hsync.
  { destruct (decide (exportChangeIndex st.1 = moduleExportIndex st.1)) as [|Hne];
      [done|]. specialize (Hpend Hne). lia. }
  split; [done|]. intros Hmoved.
  destruct (last (notifiedVersions st.1)) as [v|] eqn:Hv.
  - rewrite (Hlast v eq_refl), decide_True by done. by rewrite Hsync.
  - apply last_None in Hv. destruct (Hsilent Hv) as [Hm _].
    destruct Hsub as (_ & _ & Hsync0). congruence.
Qed.

Lemma twoEvaluations_bothFinished : rtc (step true) twoEvaluations bothFinished.
Proof.
  unfold twoEvaluations, bothFinished.
  eapply rtc_l; [eapply (step_task true _ _ 0); [reflexivity|by apply RLock]|simpl].
  eapply rtc_l; [eapply (step_task true _ _ 1); [reflexivity|by apply RLock]|simpl].
  eapply rtc_l; [eapply (step_task true _ _ 1);
                 [reflexivity|apply (cacheExports true _ true)]|simpl].
  eapply rtc_l; [eapply (step_task true _ _ 0);
                 [reflexivity|apply (cacheExports true _ false)]|simpl].
  eapply rtc_l; [eapply (step_task true _ _ 0);
                 [reflexivity|by apply RUnlock_upgrade]|simpl].
  eapply rtc_l; [eapply (step_task true _ _ 1);
                 [reflexivity|by apply RUnlock_upgrade]|simpl].
  eapply rtc_l; [eapply (step_task true _ _ 1); [reflexivity|by apply Lock]|simpl].
  eapply rtc_l; [eapply (step_task true _ _ 1);
                 [reflexivity|by apply recheck_notify]|simpl].
  eapply rtc_l; [eapply (step_task true _ _ 1); [reflexivity|apply recordIndex]|simpl].
  eapply rtc_l; [eapply (step_task true _ _ 1); [reflexivity|apply Unlock]|simpl].
  eapply rtc_l; [eapply (step_task true _ _ 0); [reflexivity|by apply Lock]|simpl].
  eapply rtc_l; [eapply (step_task true _ _ 0);
                 [reflexivity|by apply recheck_skip]|simpl].
  eapply rtc_l; [eapply (step_task true _ _ 0); [reflexivity|apply Unlock]|simpl].
  apply rtc_refl.
Qed.

Lemma evaluations_leave_parent_up_to_date_witness :
  submitted twoEvaluations /\
  Forall (fun p => p = Finished) bothFinished.2 /\
  exportChangeIndex bothFinished.1 = moduleExportIndex bothFinished.1 /\
  (exportChangeIndex bothFinished.1 ≠ exportChangeIndex twoEvaluations.1 ->
   last (notifiedVersions bothFinished.1) = Some (exportChangeIndex bothFinished.1)).
Proof.
  assert (submitted twoEvaluations) as Hsub.
  { repeat split; simpl; repeat (apply Forall_cons; split; [auto|]); apply Forall_nil_2. }
  assert (Forall (fun p => p = Finished) bothFinished.2) as Hdone.
  { simpl. repeat (apply Forall_cons; split; [reflexivity|]). apply Forall_nil_2. }
  split; [exact Hsub|]. split; [exact Hdone|].
  exact (evaluations_leave_parent_up_to_date twoEvaluations bothFinished Hsub
           twoEvaluations_bothFinished Hdone).
Defined.

(** What holds of every state without a callback. *)
Lemma taskStep_silent s tasks i p s' p' :
  tasks !! i = Some p ->
  taskStep false s p s' p' ->
  notifiedVersions s = [] /\ Forall (fun p => upgraded p = false) tasks ->
  notifiedVersions s' = [] /\ Forall (fun p => upgraded p = false) (<[i := p']> tasks).
Proof.
  intros Hi Hstep [Hlog Hall].
  assert (upgraded p = false) as Hp.
  { rewrite Forall_forall in Hall. apply Hall. by eapply list_elem_of_lookup_2. }
  destruct Hstep; try discriminate; simpl in *; (split; [done|by apply Forall_insert]).
Qed.

(** X12.  Without a parent callback nothing is ever notified, and no run
    of [concurrentEvalFn] takes the branch that gives up the read lock for
    the write lock. *)
Theorem no_callback_no_upgrade st :
  reachable false st ->
  notifiedVersions st.1 = [] /\ Forall (fun p => upgraded p = false) st.2.
Proof.
  intros (st0 & (_ & _ & Hlog & Hall) & Hsteps).
  apply (rtc_ind_r (R := step false) (fun st => notifiedVersions st.1 = []
                              /\ Forall (fun p => upgraded p = false) st.2) st0);
    [|intros st1 st2 _ Hstep IH|exact Hsteps].
  - split; [done|]. eapply Forall_impl; [exact Hall|]. by intros p [-> | ->].
  - destruct Hstep as [s tasks i p s' p' Hi Hstep]. by eapply taskStep_silent.
Qed.

Lemma racing_unobserved : rtc (step false) racing unobserved.
Proof.
  unfold racing, unobserved.
  eapply rtc_l; [eapply (step_task false _ _ 0); [reflexivity|by apply RLock]|simpl].
  eapply rtc_l; [eapply (step_task false _ _ 1); [reflexivity|by apply RLock]|simpl].
  eapply rtc_l; [eapply (step_task false _ _ 0);
                 [reflexivity|apply (cacheExports false _ true)]|simpl].
  eapply rtc_l; [eapply (step_task false _ _ 1);
                 [reflexivity|apply (cacheExports false _ false)]|simpl].
  eapply rtc_l; [eapply (step_task false _ _ 0);
                 [reflexivity|by apply RUnlock_done]|simpl].
  eapply rtc_l; [eapply (step_task false _ _ 1);
                 [reflexivity|by apply RUnlock_done]|simpl].
  apply rtc_refl.
Qed.

Lemma no_callback_no_upgrade_witness :
  reachable false unobserved /\
  notifiedVersions unobserved.1 = [] /\
  Forall (fun p => upgraded p = false) unobserved.2.
Proof.
  assert (reachable false unobserved) as Hreach.
  { exists racing. split; [|exact racing_unobserved].
    repeat split. simpl. repeat (apply Forall_cons; split; [auto|]). apply Forall_nil_2. }
  split; [exact Hreach|]. exact (no_callback_no_upgrade unobserved Hreach).
Defined.
End concurrent_more_facts.

(** ** Module arguments and termination of [Apply] *)
Module apply_arguments_facts.
Import loader_spec declare declare_spec apply_facts more_examples.

Lemma cacheModuleArgument_fold entries :
  forall c k,
    moduleArguments
      (fold_left (fun c '(key, v) => CacheModuleArgument key v c) entries c) !! k
    = match last (filter (fun e : string * Value => e.1 = k) entries) with
      | Some e => Some e.2
      | None => moduleArguments c !! k
      end.
Proof.
  induction entries as [|[key v] entries IH]; intros c k; [done|].
  simpl. rewrite IH, filter_cons. simpl.
  destruct (decide (key = k)) as [->|Hne].
  - rewrite last_cons. destruct (last (filter _ entries)); [done|].
    simpl. by rewrite lookup_insert_eq.
  - destruct (last (filter _ entries)); [done|]. simpl. by rewrite lookup_insert_ne.
Qed.

Section Arguments.
Context `{MapRange}.
Variable env : Collaborators.

(** X13.  The first statements of [Apply] leave in the cache exactly the
    module arguments given: every argument given is cached with its
    value and every argument cached earlier that is not given now is
    dropped, in whatever order the map of arguments is ranged over. *)
Theorem Apply_caches_module_arguments l args :
  moduleArguments (cache (cacheModuleArguments l args)) = args.
Proof.
  apply map_eq. intros k. unfold cacheModuleArguments, SyncModuleArgs. simpl.
  rewrite map_lookup_filter.
  rewrite cacheModuleArgument_fold.
  destruct (args !! k) as [v|] eqn:Hk.
  - assert ((k, v) ∈ range args) as Hin.
    { rewrite (range_Permutation args). by apply elem_of_map_to_list. }
    assert (forall e, e ∈ filter (fun e : string * Value => e.1 = k) (range args) ->
                      e = (k, v)) as Hall.
    { intros [k' v'] [Hk' He]%list_elem_of_filter. simpl in Hk'. subst k'.
      rewrite (range_Permutation args) in He. apply elem_of_map_to_list in He.
      congruence. }
    destruct (last (filter _ (range args))) as [e|] eqn:Hlast.
    + rewrite (Hall e) by (by eapply last_Some_elem_of). simpl.
      rewrite option_guard_True; [done|]. simpl. by rewrite Hk.
    + apply last_None in Hlast.
      assert ((k, v) ∈ filter (fun e : string * Value => e.1 = k) (range args))
        as Hin' by (by apply list_elem_of_filter).
      rewrite Hlast in Hin'. by apply elem_of_nil in Hin'.
  - destruct (last _) as [e|]; simpl.
    + rewrite option_guard_False; [done|]. simpl. rewrite Hk. by intros [].
    + destruct (moduleArguments (cache l) !! k); simpl; [|done].
      rewrite option_guard_False; [done|]. simpl. rewrite Hk. by intros [].
Qed.

(** X14.  [Apply] returns for every Loader and every input: the
    recursion of [loadNewGraph] through the bodies of nested declare
    blocks ends, as does the queue loop of the sort of declare blocks. *)
Theorem Apply_terminates l args cbs fbs dbs :
  exists diags l', Apply env l args cbs fbs dbs = Some (diags, l').
Proof.
  rewrite Apply_unfold.
  destruct (wiredGraph_total env l args cbs fbs dbs) as [[[l1 g] diags] ->].
  destruct (validateAndReduce l1 g diags) as [[l2 g2] d2].
  destruct (HasErrors d2); by eexists _, _.
Qed.
End Arguments.
End apply_arguments_facts.

(** ** [postEvaluate] *)
Module postEvaluate_facts.
Import loader_spec more_examples.

Lemma lastPart_app s1 s2 acc :
  lastPart (s1 +:+ s2) acc = lastPart s2 (lastPart s1 acc).
Proof.
  revert acc. induction s1 as [|c s1 IH]; intros acc; [done|].
  simpl. by destruct (Ascii.eqb c ".").
Qed.

Lemma append_assoc (a b c : string) : (a +:+ b) +:+ c = a +:+ (b +:+ c).
Proof.
  induction a as [|x a IH]; [done|].
  change (String x ((a +:+ b) +:+ c) = String x (a +:+ (b +:+ c))). by rewrite IH.
Qed.

Lemma lastPart_dotFree s acc : dotFree s = true -> lastPart s acc = acc +:+ s.
Proof.
  revert acc. induction s as [|c s IH]; intros acc Hs; simpl.
  - clear. induction acc as [|x acc IH]; [done|].
    change (String x acc = String x (acc +:+ "")). by rewrite <- IH.
  - simpl in Hs. apply andb_true_iff in Hs as [Hc Hs].
    apply negb_true_iff in Hc. rewrite Hc, IH by done.
    by rewrite append_assoc.
Qed.

(** X15.  The label [postEvaluate] takes from the ID of an argument node,
    the part after the last dot, is the last component of the ID: for an
    ID that ends in a dot and a label without dots, it is that label. *)
Theorem lastPart_label prefix lbl :
  dotFree lbl = true -> lastPart (prefix +:+ "." +:+ lbl) "" = lbl.
Proof.
  intros Hl. rewrite !lastPart_app. simpl. by rewrite lastPart_dotFree.
Qed.

Lemma lastPart_label_witness :
  dotFree "size" = true /\ lastPart ("web.one.argument" +:+ "." +:+ "size") "" = "size".
Proof. split; [reflexivity|]. apply lastPart_label. reflexivity. Defined.

(** X16.  For an argument node [postEvaluate] never replaces a value that
    was given, neither among the arguments of the node's namespace nor
    among the module arguments; where none was given, the default is
    cached when the argument is optional, and nothing when it is required,
    without an error of its own: the error returned is the one of the
    evaluation. *)
Theorem postEvaluate_argument o err c :
  kind o = ConfigNode ArgumentConfig ->
  (postEvaluate o err c).2 = err /\
  moduleArguments (postEvaluate o err c).1
    = defaulted o (label o) (moduleArguments c) /\
  (forall namespaceArgs,
      declareValues c !! namespace o = Some namespaceArgs ->
      declareValues (postEvaluate o err c).1 !! namespace o
      = Some (defaulted o (lastPart (nodeID o) "") namespaceArgs)) /\
  (declareValues c !! namespace o = None ->
   declareValues (postEvaluate o err c).1 = declareValues c).
Proof.
  intros Hk. unfold postEvaluate, defaulted. rewrite Hk. simpl.
  destruct (declareValues c !! namespace o) as [namespaceArgs|] eqn:Hns; simpl.
  - destruct (namespaceArgs !! lastPart (nodeID o) "") eqn:Hl; simpl.
    + destruct (moduleArguments c !! label o) eqn:Hm; simpl;
        [|destruct (optional o); simpl];
        (split; [done|]; split; [done|]; split; [|done]);
        intros ? [= <-]; by rewrite Hl.
    + destruct (optional o); simpl;
        (destruct (moduleArguments c !! label o) eqn:Hm; simpl);
        (split; [done|]; split; [done|]; split; [|done]);
        intros ? [= <-]; rewrite Hl, ?lookup_insert_eq; done.
  - destruct (moduleArguments c !! label o) eqn:Hm; simpl;
      [|destruct (optional o); simpl];
      (split; [done|]; split; [done|]; split; [|done]); done.
Qed.

Lemma postEvaluate_argument_witness :
  kind argumentSize = ConfigNode ArgumentConfig /\
  moduleArguments (postEvaluate argumentSize None newValueCache).1 = {["size" := 5%Z]} /\
  moduleArguments
    (postEvaluate argumentSize None (CacheModuleArgument "size" 9%Z newValueCache)).1
  = {["size" := 9%Z]}.
Proof.
  split; [reflexivity|]. split.
  - rewrite (proj1 (proj2 (postEvaluate_argument argumentSize None newValueCache
                             eq_refl))).
    reflexivity.
  - rewrite (proj1 (proj2 (postEvaluate_argument argumentSize None
                             (CacheModuleArgument "size" 9%Z newValueCache) eq_refl))).
    reflexivity.
Defined.
End postEvaluate_facts.

(** ** [wireGraphEdges] *)
Module wiring_facts.
Import loader_spec more_examples.

Lemma addsEdges_refl from g : addsEdges from g g.
Proof. repeat split; auto. Qed.

Lemma addsEdges_trans from g1 g2 g3 :
  addsEdges from g1 g2 -> addsEdges from g2 g3 -> addsEdges from g1 g3.
Proof.
  intros (Hn & Hm & Hsub & Hnew) (Hn' & Hm' & Hsub' & Hnew').
  split; [congruence|]. split; [congruence|]. split; [auto|].
  intros e He. destruct (Hnew' e He) as [He'|?]; [|by right]. auto.
Qed.

Lemma addsEdges_AddEdge (from : Node -> Prop) e g :
  from e.1 -> addsEdges from g (AddEdge e g).
Proof.
  intros He. unfold AddEdge. split; [done|]. split; [done|]. simpl.
  case_decide; [by split; auto|]. split.
  - intros e' He'. apply elem_of_app. by left.
  - intros e' [He'|He']%elem_of_app; [by left|].
    apply list_elem_of_singleton in He'. subst e'. by right.
Qed.

Lemma addsEdges_references (from : Node -> Prop) n refs :
  from n ->
  forall g, addsEdges from g (fold_left (fun g target => AddEdge (n, target) g) refs g).
Proof.
  intros Hn. induction refs as [|r refs IH]; intros g; [apply addsEdges_refl|].
  simpl. apply (addsEdges_trans _ _ (AddEdge (n, r) g)); [|apply IH].
  apply addsEdges_AddEdge. exact Hn.
Qed.

Section Wiring.
Context `{MapRange}.
Variable env : Collaborators.
Variable s : Store.

Lemma wireService_spec (from : Node -> Prop) n depNames :
  from n ->
  forall g diags,
    addsEdges from g (fold_left (wireService s n) depNames (g, diags)).1 /\
    (forall d, d ∈ diags -> d ∈ (fold_left (wireService s n) depNames (g, diags)).2) /\
    (forall depName,
        depName ∈ depNames -> GetByID g depName = None ->
        invalidReference (NodeID s n) depName
          ∈ (fold_left (wireService s n) depNames (g, diags)).2).
Proof.
  intros Hn. induction depNames as [|dep depNames IH]; intros g diags.
  { simpl. split; [apply addsEdges_refl|]. split; [done|].
    by intros ? ?%elem_of_nil. }
  simpl. destruct (GetByID g dep) as [target|] eqn:Hdep.
  - destruct (IH (AddEdge (n, target) g) diags) as (Hadd & Hmono & Hinv).
    split; [apply (addsEdges_trans _ _ (AddEdge (n, target) g));
            [apply addsEdges_AddEdge; exact Hn|exact Hadd]|].
    split; [done|]. intros depName [->|Hin]%elem_of_cons Hnone; [congruence|].
    by apply Hinv.
  - destruct (IH g (diags ++ [invalidReference (NodeID s n) dep]))
      as (Hadd & Hmono & Hinv).
    split; [done|]. split.
    + intros d Hd. apply Hmono, elem_of_app. by left.
    + intros depName [->|Hin]%elem_of_cons Hnone; [|by apply Hinv].
      apply Hmono, elem_of_app. right. by left.
Qed.

Lemma wireNode_spec g diags n :
  addsEdges (fun m => m = n /\ Namespace s m = "") g (wireNode env s (g, diags) n).1 /\
  (forall d, d ∈ diags -> d ∈ (wireNode env s (g, diags) n).2) /\
  (forall o deps depName,
      objects s !! n = Some o -> namespace o = "" -> kind o = ServiceNode deps ->
      depName ∈ deps -> GetByID g depName = None ->
      invalidReference (NodeID s n) depName ∈ (wireNode env s (g, diags) n).2).
Proof.
  unfold wireNode. destruct (objects s !! n) as [o|] eqn:Ho.
  2:{ split; [apply addsEdges_refl|]. split; [done|]. by intros. }
  case_decide as Hns.
  2:{ split; [apply addsEdges_refl|]. split; [done|].
      intros ? ? ? [= <-] ?. done. }
  assert (n = n /\ Namespace s n = "") as Hfrom.
  { split; [done|]. unfold Namespace. by rewrite Ho. }
  destruct (kind o) as [reg|deps|k|] eqn:Hk.
  2:{ destruct (wireService_spec (fun m => m = n /\ Namespace s m = "") n deps Hfrom
                  g diags) as (Hadd & Hmono & Hinv).
      destruct (fold_left _ deps (g, diags)) as [g1 d1]. simpl in *.
      destruct (ComponentReferences env o (nodeByID g1)) as [refs nodeDiags]. simpl.
      split; [eapply addsEdges_trans; [done|by apply addsEdges_references]|].
      split.
      - intros d Hd. apply elem_of_app. left. by apply Hmono.
      - intros o' deps' depName [= <-] _ Hk' Hin Hnone. rewrite Hk in Hk'.
        injection Hk' as <-. apply elem_of_app. left. by apply Hinv. }
  all: destruct (ComponentReferences env o (nodeByID g)) as [refs nodeDiags]; simpl;
    (split; [by apply addsEdges_references|]);
    (split; [intros d Hd; apply elem_of_app; by left|]);
    intros o' deps' depName [= <-] _ Hk'; congruence.
Qed.

Lemma wireNodes_spec ns :
  forall g diags,
    addsEdges (fun m => m ∈ ns /\ Namespace s m = "") g
              (fold_left (wireNode env s) ns (g, diags)).1 /\
    (forall d, d ∈ diags -> d ∈ (fold_left (wireNode env s) ns (g, diags)).2) /\
    (forall n o deps depName,
        n ∈ ns ->
        objects s !! n = Some o -> namespace o = "" -> kind o = ServiceNode deps ->
        depName ∈ deps -> GetByID g depName = None ->
        invalidReference (NodeID s n) depName
          ∈ (fold_left (wireNode env s) ns (g, diags)).2).
Proof.
  induction ns as [|n ns IH]; intros g diags.
  { simpl. split; [apply addsEdges_refl|]. split; [done|].
    by intros ? ? ? ? ?%elem_of_nil. }
  change (fold_left (wireNode env s) (n :: ns) (g, diags))
    with (fold_left (wireNode env s) ns (wireNode env s (g, diags) n)).
  destruct (wireNode_spec g diags n) as (Hadd & Hmono & Hinv).
  destruct (wireNode env s (g, diags) n) as [g1 d1]. simpl in Hadd, Hmono, Hinv.
  destruct (IH g1 d1) as (Hadd' & Hmono' & Hinv').
  split; [|split].
  - destruct Hadd as (Hn & Hm & Hsub & Hnew), Hadd' as (Hn' & Hm' & Hsub' & Hnew').
    split; [congruence|]. split; [congruence|]. split; [auto|].
    intros e He. destruct (Hnew' e He) as [He'|[Hin Hns]].
    + destruct (Hnew e He') as [?|[-> Hns]]; [by left|].
      right. split; [by left|done].
    + right. split; [by right|done].
  - auto.
  - intros m o deps depName [->|Hin]%elem_of_cons Ho Hns Hk Hdep Hnone.
    + apply Hmono'. by eapply Hinv.
    + eapply Hinv'; try done. unfold GetByID in *.
      destruct Hadd as (_ & -> & _). done.
Qed.

End Wiring.

Section WiringAll.
Context `{MapRange}.
Variable env : Collaborators.

(** X17.  [wireGraphEdges] adds edges and nothing else: the nodes of the
    graph and their IDs stay, no edge goes, and every edge that comes
    starts at a node of the graph outside any namespace; the nodes of a
    namespace, wired when their template was loaded, get no edge. *)
Theorem wireGraphEdges_adds_edges l g :
  addsEdges (fun n => n ∈ Nodes g /\ Namespace (store l) n = "")
            g (wireGraphEdges env l g).1.
Proof. unfold wireGraphEdges. apply wireNodes_spec. Qed.

(** X18.  A service outside any namespace that depends on a service
    name without a node in the graph gets the diagnostic of an invalid
    reference from [wireGraphEdges], an error. *)
Theorem wireGraphEdges_invalid_reference l g n o deps depName :
  n ∈ Nodes g ->
  objects (store l) !! n = Some o ->
  namespace o = "" ->
  kind o = ServiceNode deps ->
  depName ∈ deps ->
  GetByID g depName = None ->
  invalidReference (nodeID o) depName ∈ (wireGraphEdges env l g).2 /\
  HasErrors (wireGraphEdges env l g).2 = true.
Proof.
  intros Hn Ho Hns Hk Hdep Hnone.
  assert (invalidReference (nodeID o) depName ∈ (wireGraphEdges env l g).2) as Hin.
  { unfold wireGraphEdges.
    destruct (wireNodes_spec env (store l) (Nodes g) g []) as (_ & _ & Hinv).
    specialize (Hinv n o deps depName Hn Ho Hns Hk Hdep Hnone).
    unfold NodeID in Hinv. by rewrite Ho in Hinv. }
  split; [done|]. by eapply apply_facts.HasErrors_elem_of.
Qed.
End WiringAll.

Lemma wireGraphEdges_invalid_reference_witness :
  invalidReference "http" "cluster" ∈ (wireGraphEdges serviceEnv serviceLoader serviceGraph).2 /\
  HasErrors (wireGraphEdges serviceEnv serviceLoader serviceGraph).2 = true.
Proof.
  apply (wireGraphEdges_invalid_reference serviceEnv serviceLoader serviceGraph 0
           (NewServiceNode (MkService "http" ["cluster"])) ["cluster"] "cluster").
  - vm_compute. repeat constructor.
  - reflexivity.
  - reflexivity.
  - reflexivity.
  - repeat constructor.
  - reflexivity.
Defined.
End wiring_facts.

(** ** Config blocks and service blocks *)
Module config_service_facts.
Import loader_spec more_examples apply_facts.

Section Config.
Context `{MapRange}.
Variable env : Collaborators.

Lemma populateConfigBlock_after_error st b :
  HasErrors st.1.2 = true ->
  (populateConfigBlock env st b).1.1.2 = st.1.1.2 /\
  HasErrors (populateConfigBlock env st b).1.2 = true.
Proof.
  destruct st as [[[l g] diags] nodeMap]. simpl. intros Herr.
  unfold populateConfigBlock.
  destruct (NewConfigNode env b) as [o newConfigNodeDiags].
  destruct (new o (store l)) as [node s].
  assert (HasErrors (diags ++ newConfigNodeDiags) = true) as Herr'
      by (rewrite HasErrors_app, Herr; done).
  destruct (GetByID g (nodeID o)); simpl.
  - split; [done|]. by rewrite HasErrors_app, Herr'.
  - by rewrite Herr'.
Qed.

Lemma populateConfigBlocks_after_error bs :
  forall st,
    HasErrors st.1.2 = true ->
    (fold_left (populateConfigBlock env) bs st).1.1.2 = st.1.1.2 /\
    HasErrors (fold_left (populateConfigBlock env) bs st).1.2 = true.
Proof.
  induction bs as [|b bs IH]; intros st Herr; [done|].
  simpl. destruct (populateConfigBlock_after_error st b Herr) as [Hg Herr'].
  destruct (IH _ Herr') as [Hg' Herr'']. split; [congruence|done].
Qed.

(** X19.  Once a diagnostic of the loop of [populateConfigBlockNodes] is
    an error, no later config block adds its node to the graph: the
    graph after the whole loop is the graph the loop had reached at the
    error, and within a module, where no default nodes follow, that is
    the graph [populateConfigBlockNodes] leaves. *)
Theorem populateConfigBlockNodes_stops_after_error l args g pre post :
  HasErrors (configLoop env l g pre).1.2 = true ->
  (configLoop env l g (pre ++ post)).1.1.2 = (configLoop env l g pre).1.1.2 /\
  (populateConfigBlockNodes env l args g (pre ++ post) true).1.2
    = (configLoop env l g pre).1.1.2 /\
  HasErrors (populateConfigBlockNodes env l args g (pre ++ post) true).2 = true.
Proof.
  intros Herr. unfold configLoop in *. rewrite fold_left_app.
  destruct (populateConfigBlocks_after_error post _ Herr) as [Hg Herr'].
  split; [done|]. unfold populateConfigBlockNodes. rewrite fold_left_app.
  destruct (fold_left (populateConfigBlock env) post _) as [[[l1 g1] d1] nodeMap].
  simpl in *. rewrite !andb_false_r. simpl. split; [done|].
  by rewrite HasErrors_app, Herr'.
Qed.
End Config.

Lemma consistent_blocksOnly s s' g :
  consistent s g -> blocksOnly s s' -> consistent s' g.
Proof.
  intros Hc [_ Hb] id node Hid. destruct (Hc id node Hid) as (o & Ho & Hn).
  destruct (Hb node o Ho) as [b Hb']. by exists (UpdateBlock b o).
Qed.

Lemma consistent_update s g n b :
  consistent s g -> consistent (update n (UpdateBlock b) s) g.
Proof.
  intros Hc id node Hid. destruct (Hc id node Hid) as (o & Ho & Hn).
  unfold update. simpl. destruct (decide (node = n)) as [->|Hne].
  - rewrite lookup_alter_eq, Ho. simpl. by eexists.
  - rewrite lookup_alter_ne by done. by eexists.
Qed.

Lemma consistent_addNode s g n o :
  consistent s g -> objects s !! n = Some o -> consistent s (addNode s n g).
Proof.
  intros Hc Ho id node. unfold addNode, Add, GetByID, NodeID. rewrite Ho. simpl.
  destruct (decide (nodeID o = id)) as [<-|Hne].
  - rewrite lookup_insert_eq. intros [= <-]. by exists o.
  - rewrite lookup_insert_ne by done. apply Hc.
Qed.

Section Services.
Variable l0 : Loader.
Hypothesis l0_wf : wfStore (store l0).
Hypothesis l0_consistent : consistent (store l0) (graph l0).

Lemma populateService_consistent st svc :
  builds l0 st.1.1 -> consistent (store st.1.1) st.1.2 ->
  consistent (store (populateService st svc).1.1) (populateService st svc).1.2 /\
  is_Some (GetByID (populateService st svc).1.2 (serviceName svc)) /\
  (forall id, is_Some (GetByID st.1.2 id) ->
              is_Some (GetByID (populateService st svc).1.2 id)).
Proof.
  destruct st as [[l g] diags]. simpl. intros [Hsame Hev] Hc.
  destruct (Hev l0_wf) as [Hwf Hblocks].
  unfold populateService.
  destruct (GetByID g (serviceName svc)) as [n|] eqn:Hg; simpl.
  { split; [done|]. split; [by rewrite Hg|done]. }
  assert (graph l = graph l0) as Hgraph by (by destruct Hsame).
  destruct (GetByID (graph l) (serviceName svc)) as [existing|] eqn:Hex; simpl.
  - rewrite Hgraph in Hex.
    destruct (consistent_blocksOnly _ _ _ l0_consistent Hblocks _ _ Hex)
      as (o & Ho & Hid).
    assert (objects (update existing (UpdateBlock None) (store l)) !! existing
            = Some (UpdateBlock None o)) as Ho'.
    { unfold update. simpl. by rewrite lookup_alter_eq, Ho. }
    split; [apply consistent_addNode with (UpdateBlock None o);
            [by apply consistent_update|done]|].
    unfold addNode, Add, GetByID, NodeID. rewrite Ho'. simpl. rewrite Hid. split.
    + rewrite lookup_insert_eq. by eexists.
    + intros id [m Hm]. rewrite lookup_insert. case_decide; by eexists.
  - assert (objects (store l) !! nextNode (store l) = None) as Hfresh.
    { destruct (objects (store l) !! nextNode (store l)) eqn:Hn; [|done].
      assert (nextNode (store l) < nextNode (store l)) by (apply Hwf; by eexists).
      lia. }
    set (s1 := MkStore (<[nextNode (store l) := NewServiceNode svc]> (objects (store l)))
                       (S (nextNode (store l)))).
    assert (consistent s1 g) as Hc1.
    { intros id node Hid. destruct (Hc id node Hid) as (o & Ho & Hn).
      exists o. split; [|done]. unfold s1. simpl.
      rewrite lookup_insert_ne; [done|]. intros <-. congruence. }
    assert (objects (update (nextNode (store l)) (UpdateBlock None) s1)
              !! nextNode (store l)
            = Some (UpdateBlock None (NewServiceNode svc))) as Ho'.
    { unfold update, s1. simpl. by rewrite lookup_alter_eq, lookup_insert_eq. }
    split; [apply consistent_addNode with (UpdateBlock None (NewServiceNode svc));
            [by apply consistent_update|done]|].
    unfold addNode, Add, GetByID, NodeID. rewrite Ho'. simpl. split.
    + rewrite lookup_insert_eq. by eexists.
    + intros id [m Hm]. rewrite lookup_insert. case_decide; by eexists.
Qed.

Lemma populateServices_consistent svcs :
  forall st,
    builds l0 st.1.1 -> consistent (store st.1.1) st.1.2 ->
    let st' := fold_left (populateService) svcs st in
    builds l0 st'.1.1 /\ consistent (store st'.1.1) st'.1.2 /\
    (forall id, is_Some (GetByID st.1.2 id) \/ id ∈ serviceName <$> svcs ->
                is_Some (GetByID st'.1.2 id)).
Proof.
  induction svcs as [|svc svcs IH]; intros st Hb Hc st'; subst st'.
  { simpl. split; [done|]. split; [done|].
    intros id [?|?%elem_of_nil]; done. }
  change (fold_left (populateService) (svc :: svcs) st)
    with (fold_left (populateService) svcs (populateService st svc)).
  destruct (populateService_consistent st svc Hb Hc) as (Hc' & Hsvc & Hkeep).
  destruct (IH (populateService st svc)
              (populateService_frame l0 st svc Hb) Hc') as (Hb'' & Hc'' & Hall).
  split; [done|]. split; [done|].
  intros id [Hid|[->|Hid]%elem_of_cons]; apply Hall; auto.
Qed.

End Services.

Section Assigned.
(** The second loop, for the node [node] of the service [id]. *)
Lemma assignServiceBlock_spec g id node st b :
  st.1.2 = g -> GetByID g id = Some node ->
  is_Some (objects (store st.1.1) !! node) ->
  (assignServiceBlock st b).1.2 = g /\
  is_Some (objects (store (assignServiceBlock st b).1.1) !! node) /\
  (forall d, d ∈ st.2 -> d ∈ (assignServiceBlock st b).2) /\
  (is_Some (Block (store st.1.1) node) ->
   is_Some (Block (store (assignServiceBlock st b).1.1) node)) /\
  (BlockComponentID b = id ->
   is_Some (Block (store (assignServiceBlock st b).1.1) node) /\
   (is_Some (Block (store st.1.1) node) ->
    duplicateDefinition b ∈ (assignServiceBlock st b).2)).
Proof.
  destruct st as [[l g'] diags]. simpl. intros -> Hid [o Ho].
  unfold assignServiceBlock.
  destruct (GetByID g (BlockComponentID b)) as [m|] eqn:Hm; simpl.
  2:{ split; [done|]. split; [by eexists|]. split; [done|]. split; [done|].
      intros Hb. congruence. }
  destruct (Block (store l) m) as [blk|] eqn:Hblk; simpl.
  - split; [done|]. split; [by eexists|].
    split; [intros d Hd; apply elem_of_app; by left|]. split; [done|].
    intros Hb. rewrite Hb, Hid in Hm. injection Hm as <-.
    split; [rewrite Hblk; by eexists|]. intros _.
    apply elem_of_app. right. by left.
  - assert (forall k, is_Some (Block (store l) k) ->
                      is_Some (Block (update m (UpdateBlock (Some b)) (store l)) k))
      as Hkeep.
    { intros k. unfold Block, update. simpl.
      destruct (decide (k = m)) as [->|Hne].
      - rewrite lookup_alter_eq. by destruct (objects (store l) !! m); simpl; eauto.
      - by rewrite lookup_alter_ne. }
    split; [done|]. split.
    { unfold update. simpl. destruct (decide (node = m)) as [->|Hne].
      - rewrite lookup_alter_eq, Ho. by eexists.
      - rewrite lookup_alter_ne by done. by eexists. }
    split; [done|]. split; [apply Hkeep|].
    intros Hb. rewrite Hb, Hid in Hm. injection Hm as <-.
    split; [|intros [? Hsome]; unfold Block in Hblk, Hsome; congruence].
    unfold Block, update. simpl. rewrite lookup_alter_eq, Ho. by eexists.
Qed.

Lemma assignServiceBlocks_spec g id node bs :
  forall st,
    st.1.2 = g -> GetByID g id = Some node ->
    is_Some (objects (store st.1.1) !! node) ->
    let st' := fold_left (assignServiceBlock) bs st in
    st'.1.2 = g /\
    is_Some (objects (store st'.1.1) !! node) /\
    (forall d, d ∈ st.2 -> d ∈ st'.2) /\
    (is_Some (Block (store st.1.1) node) -> is_Some (Block (store st'.1.1) node)).
Proof.
  induction bs as [|b bs IH]; intros st Hg Hid Ho st'; subst st'; [done|].
  change (fold_left (assignServiceBlock) (b :: bs) st)
    with (fold_left (assignServiceBlock) bs (assignServiceBlock st b)).
  destruct (assignServiceBlock_spec g id node st b Hg Hid Ho)
    as (Hg' & Ho' & Hmono & Hkeep & _).
  destruct (IH _ Hg' Hid Ho') as (Hg'' & Ho'' & Hmono' & Hkeep').
  split; [done|]. split; [done|]. split; auto.
Qed.
End Assigned.

Section ServiceBlocks.
Context `{MapRange}.
Variable env : Collaborators.

(** X20.  When two blocks configure the same service, the second gets
    the diagnostic of a duplicate definition, an error, whether the node
    of the service is new or the one of the installed graph. *)
Theorem populateServiceNodes_duplicate_definition l pre b1 mid b2 post :
  wfStore (store l) ->
  consistent (store l) (graph l) ->
  BlockComponentID b1 ∈ serviceName <$> services env ->
  BlockComponentID b2 = BlockComponentID b1 ->
  duplicateDefinition b2
    ∈ (populateServiceNodes env l emptyGraph (pre ++ b1 :: mid ++ b2 :: post)).2 /\
  HasErrors (populateServiceNodes env l emptyGraph (pre ++ b1 :: mid ++ b2 :: post)).2
    = true.
Proof.
  intros Hwf Hcons Hsvc Hid.
  assert (duplicateDefinition b2
            ∈ (populateServiceNodes env l emptyGraph
                 (pre ++ b1 :: mid ++ b2 :: post)).2) as Hin;
    [|split; [done|by eapply HasErrors_elem_of]].
  unfold populateServiceNodes.
  destruct (populateServices_consistent l Hwf Hcons (services env) (l, emptyGraph, [])
              (builds_refl l)) as (Hb & Hc & Hall).
  { intros id node Hn. unfold GetByID in Hn. simpl in Hn.
    by rewrite lookup_empty in Hn. }
  set (st1 := fold_left (populateService) (services env) (l, emptyGraph, [])) in *.
  destruct (Hall (BlockComponentID b1)) as [node Hnode]; [by right|].
  destruct (Hc _ _ Hnode) as (o & Ho & _).
  rewrite fold_left_app. simpl. rewrite fold_left_app. simpl.
  destruct (assignServiceBlocks_spec st1.1.2 (BlockComponentID b1) node pre st1
              eq_refl Hnode) as (Hg1 & Ho1 & _ & _); [by eexists|].
  set (st2 := fold_left (assignServiceBlock) pre st1) in *.
  destruct (assignServiceBlock_spec st1.1.2 (BlockComponentID b1) node st2 b1
              Hg1 Hnode Ho1) as (Hg2 & Ho2 & _ & _ & Hb1).
  destruct (Hb1 eq_refl) as [Hblk2 _].
  set (st3 := assignServiceBlock st2 b1) in *.
  destruct (assignServiceBlocks_spec st1.1.2 (BlockComponentID b1) node mid st3
              Hg2 Hnode Ho2) as (Hg3 & Ho3 & _ & Hkeep3).
  set (st4 := fold_left (assignServiceBlock) mid st3) in *.
  destruct (assignServiceBlock_spec st1.1.2 (BlockComponentID b1) node st4 b2
              Hg3 Hnode Ho3) as (Hg4 & Ho4 & _ & _ & Hb2).
  destruct (Hb2 Hid) as [_ Hdup].
  destruct (assignServiceBlocks_spec st1.1.2 (BlockComponentID b1) node post
              (assignServiceBlock st4 b2) Hg4 Hnode Ho4) as (_ & _ & Hmono & _).
  apply Hmono, Hdup, Hkeep3, Hblk2.
Qed.
End ServiceBlocks.

Lemma populateServiceNodes_duplicate_definition_witness :
  duplicateDefinition blockHttp'
    ∈ (populateServiceNodes httpEnv NewLoader emptyGraph
         ([] ++ blockHttp :: [] ++ blockHttp' :: [])).2 /\
  HasErrors (populateServiceNodes httpEnv NewLoader emptyGraph
               ([] ++ blockHttp :: [] ++ blockHttp' :: [])).2 = true.
Proof.
  apply (populateServiceNodes_duplicate_definition httpEnv NewLoader [] blockHttp []
           blockHttp' []).
  - apply wfStore_decide. vm_compute. reflexivity.
  - intros id node Hn. vm_compute in Hn. discriminate.
  - vm_compute. repeat constructor.
  - reflexivity.
Defined.

Lemma populateConfigBlockNodes_stops_after_error_witness :
  HasErrors (configLoop strictEnv NewLoader emptyGraph [blockBogus]).1.2 = true /\
  (populateConfigBlockNodes strictEnv NewLoader ∅ emptyGraph
     ([blockBogus] ++ [blockLogging]) true).1.2 = emptyGraph /\
  Nodes (populateConfigBlockNodes strictEnv NewLoader ∅ emptyGraph [blockLogging] true).1.2
  = [0].
Proof.
  split; [reflexivity|]. split; [|reflexivity].
  rewrite (proj1 (proj2 (populateConfigBlockNodes_stops_after_error strictEnv NewLoader ∅
                           emptyGraph [blockBogus] [blockLogging] eq_refl))).
  reflexivity.
Defined.
End config_service_facts.

(** * An [Apply] that fails on a cycle *)
Module cycle_facts.
Import cycle_spec declare declare_spec apply_facts.

(** *** What the construction of a graph assigns *)

Lemma storeOnly_refl l : storeOnly l l.
Proof. by destruct l. Qed.

Lemma storeOnly_setStore l0 l s : storeOnly l0 l -> storeOnly l0 (setStore s l).
Proof. unfold storeOnly. intros ->. done. Qed.

Lemma storeOnly_trans l1 l2 l3 : storeOnly l1 l2 -> storeOnly l2 l3 -> storeOnly l1 l3.
Proof. unfold storeOnly. intros H12 ->. simpl. by rewrite H12. Qed.

Lemma storeOnly_originalGraph l l' : storeOnly l l' -> originalGraph l' = originalGraph l.
Proof. by intros ->. Qed.

#[local] Hint Resolve storeOnly_refl storeOnly_setStore : core.

Ltac stores := repeat (case_match; simpl in *; simplify_eq); auto.

Section Construction.
Context `{MapRange}.
Variable env : Collaborators.

Lemma populateService_storeOnly l0 st svc :
  storeOnly l0 st.1.1 -> storeOnly l0 (populateService st svc).1.1.
Proof. destruct st as [[l g] d]. unfold populateService. simpl. intros. stores. Qed.

Lemma assignServiceBlock_storeOnly l0 st b :
  storeOnly l0 st.1.1 -> storeOnly l0 (assignServiceBlock st b).1.1.
Proof. destruct st as [[l g] d]. unfold assignServiceBlock. simpl. intros. stores. Qed.

Lemma populateServiceNodes_storeOnly l g bs :
  storeOnly l (populateServiceNodes env l g bs).1.1.
Proof.
  unfold populateServiceNodes.
  apply fold_left_preserves; [|intros; by apply assignServiceBlock_storeOnly].
  apply fold_left_preserves; [|intros; by apply populateService_storeOnly].
  simpl. auto.
Qed.

Lemma populateConfigBlock_storeOnly l0 st b :
  storeOnly l0 st.1.1.1 -> storeOnly l0 (populateConfigBlock env st b).1.1.1.
Proof.
  destruct st as [[[l g] d] m]. unfold populateConfigBlock. simpl. intros. stores.
Qed.

Lemma addDefault_storeOnly l0 o st :
  storeOnly l0 st.1 -> storeOnly l0 (addDefault o st).1.
Proof. destruct st as [l g]. unfold addDefault. simpl. intros. stores. Qed.

Lemma populateConfigBlockNodes_storeOnly l args g bs inModule :
  storeOnly l (populateConfigBlockNodes env l args g bs inModule).1.1.
Proof.
  unfold populateConfigBlockNodes.
  pose proof (fold_left_preserves (fun st => storeOnly l st.1.1.1)
                (populateConfigBlock env) bs (l, g, [], [])) as Hfold.
  destruct (fold_left _ bs _) as [[[l1 g1] d1] m1].
  assert (storeOnly l l1) as H1.
  { apply Hfold; [simpl; auto|]. intros. by apply populateConfigBlock_storeOnly. }
  clear Hfold.
  assert (forall (c : bool) o (st : Loader * Graph),
             storeOnly l st.1 ->
             storeOnly l (if c then addDefault o st else st).1) as Hdefault.
  { intros [] o st Hst; [by apply addDefault_storeOnly|done]. }
  pose proof (Hdefault (negb (hasConfig LoggingConfig m1) && negb inModule)
                NewDefaultLoggingConfigNode (l1, g1) H1) as H2.
  destruct (if negb (hasConfig LoggingConfig m1) && negb inModule then _ else _)
    as [l2 g2].
  pose proof (Hdefault (negb (hasConfig TracingConfig m1) && negb inModule)
                NewDefaulTracingConfigNode (l2, g2) H2) as H3.
  by destruct (if negb (hasConfig TracingConfig m1) && negb inModule then _ else _)
    as [l3 g3].
Qed.

Lemma mergeNode_storeOnly l0 st n :
  storeOnly l0 st.1 -> storeOnly l0 (mergeNode st n).1.
Proof. destruct st as [l g]. unfold mergeNode. simpl. intros. stores. Qed.

Lemma MergeSubgraph_storeOnly l0 l new sub :
  storeOnly l0 l -> storeOnly l0 (MergeSubgraph l new sub).1.
Proof.
  intros Hl. unfold MergeSubgraph.
  pose proof (fold_left_preserves (fun st => storeOnly l0 st.1)
                mergeNode (Nodes sub) (l, new)) as Hfold.
  destruct (fold_left _ _ _) as [l1 g1]. simpl in *.
  apply Hfold; [done|]. intros. by apply mergeNode_storeOnly.
Qed.

Lemma populateComponentNode_storeOnly l0 templates st b :
  storeOnly l0 (pLoader st) ->
  storeOnly l0 (pLoader (populateComponentNode env templates st b)).
Proof.
  destruct st as [l g m d]. unfold populateComponentNode. simpl. intros Hl.
  repeat (case_match; simpl in *; simplify_eq); auto.
  match goal with
  | Hm : MergeSubgraph ?l1 ?g1 ?sub = _ |- _ =>
      pose proof (MergeSubgraph_storeOnly l0 l1 g1 sub) as Hmerge;
      rewrite Hm in Hmerge
  end.
  simpl in *. auto.
Qed.

Lemma populateComponentNodes_storeOnly l g bs nt :
  storeOnly l (populateComponentNodes env l g bs nt).1.1.
Proof.
  unfold populateComponentNodes.
  destruct (RetrieveAvailableTemplates nt) as [templates err].
  destruct err; simpl;
    (apply (fold_left_preserves (fun st => storeOnly l (pLoader st)));
     [simpl; auto|intros; by apply populateComponentNode_storeOnly]).
Qed.

(** Without declare blocks the construction of a graph only constructs
    and updates node objects. *)
Lemma wireNewGraph_storeOnly rec l args cbs fbs inModule inDeclare parent l' g d :
  wireNewGraph env rec l args cbs fbs [] inModule inDeclare parent = Some (l', g, d) ->
  storeOnly l l'.
Proof.
  unfold wireNewGraph.
  destruct (splitComponentBlocks env cbs) as [cs ss].
  assert (storeOnly l
            (if inDeclare then (l, emptyGraph, @nil Diagnostic)
             else populateServiceNodes env l emptyGraph ss).1.1) as H1.
  { destruct inDeclare; [apply storeOnly_refl|apply populateServiceNodes_storeOnly]. }
  destruct (if inDeclare then _ else _) as [[l1 g1] d1]. simpl in H1.
  pose proof (populateConfigBlockNodes_storeOnly l1 args g1 fbs inModule) as H2.
  destruct (populateConfigBlockNodes env l1 args g1 fbs inModule) as [[l2 g2] d2].
  simpl in H2.
  destruct (SortDeclareBlocks []) as [[sorted sd]|] eqn:Hsort; [|done].
  assert (sorted = []) as ->.
  { destruct sorted as [|b sorted]; [done|].
    pose proof (SortDeclareBlocks_subset _ _ _ Hsort b (list_elem_of_here _ _)) as Hb.
    by apply elem_of_nil in Hb. }
  cbn [fold_left].
  pose proof (populateComponentNodes_storeOnly l2 g2 cs (NewNodeTemplates parent)) as H4.
  destruct (populateComponentNodes env l2 g2 cs (NewNodeTemplates parent))
    as [[l4 g4] d4]. simpl in H4.
  destruct (wireGraphEdges env l4 g4). intros ?. simplify_eq.
  eauto using storeOnly_trans.
Qed.

Lemma wiredGraph_storeOnly l args cbs fbs l1 g diags :
  wiredGraph env l args cbs fbs [] = Some (l1, g, diags) ->
  storeOnly (cacheModuleArguments l args) l1.
Proof. unfold wiredGraph. apply wireNewGraph_storeOnly. Qed.
End Construction.

(** *** Which node objects the construction of a graph touches *)

Create HintDb reuse.

Section Reused.
Variable s0 : Store.
Hypothesis s0_wf : wfStore s0.

Lemma reuses_start : reuses s0 s0 emptyGraph.
Proof.
  split; [done|]. split; [|by intros n o Hn _].
  intros id n Hid. unfold GetByID in Hid. simpl in Hid.
  by rewrite lookup_empty in Hid.
Qed.

Lemma reuses_new s g o n s' : reuses s0 s g -> new o s = (n, s') -> reuses s0 s' g.
Proof.
  intros (Hle & Hidx & Hkept) [= <- <-]. split; [simpl; lia|]. split; [done|].
  intros n o' Hn Hout. simpl. rewrite lookup_insert_ne; [by apply Hkept|].
  intros <-. assert (nextNode s < nextNode s0); [|lia].
  apply s0_wf. by eexists.
Qed.

Lemma reuses_Add s g id m : reuses s0 s g -> reuses s0 s (Add id m g).
Proof.
  intros (Hle & Hidx & Hkept). split; [done|]. split.
  - intros id' n Hn.
    assert (GetByID (Add id m g) id'
            = if decide (id = id') then Some m else GetByID g id') as Hadd
        by apply lookup_insert.
    rewrite Hadd in Hn. case_decide; [injection Hn as <-; apply Add_nodes_elem|].
    by apply Add_nodes_mono, (Hidx id').
  - intros n o Hn Hout. apply Hkept; [done|].
    intros Hin. by apply Hout, Add_nodes_mono.
Qed.

Lemma reuses_update s g m f : reuses s0 s g -> m ∈ nodes g -> reuses s0 (update m f s) g.
Proof.
  intros (Hle & Hidx & Hkept) Hm. split; [done|]. split; [done|].
  intros n o Hn Hout. simpl. rewrite lookup_alter_ne; [by apply Hkept|].
  by intros <-.
Qed.

Lemma reuses_update_Add s g id m f :
  reuses s0 s g -> reuses s0 (update m f s) (Add id m g).
Proof. intros Hs. apply reuses_update; [by apply reuses_Add|apply Add_nodes_elem]. Qed.

Lemma reuses_update_known s g id m f :
  reuses s0 s g -> GetByID g id = Some m -> reuses s0 (update m f s) g.
Proof.
  intros Hs Hid. apply reuses_update; [done|].
  destruct Hs as (_ & Hidx & _). by apply (Hidx id).
Qed.

Lemma reuses_edges s g g' :
  nodes g' = nodes g -> nodeByID g' = nodeByID g -> reuses s0 s g -> reuses s0 s g'.
Proof.
  intros Hn Hid (Hle & Hidx & Hkept). split; [done|].
  unfold indexed, GetByID. rewrite Hn, Hid. by split.
Qed.

#[local] Hint Resolve reuses_new reuses_Add reuses_update_Add reuses_update_known
  : reuse.
#[local] Hint Extern 2 (reuses _ _ (addNode _ _ _)) => unfold addNode : reuse.

Ltac reuse := repeat (case_match; simpl in *; simplify_eq); eauto 6 with reuse.

Context `{MapRange}.
Variable env : Collaborators.

Lemma populateService_reuses st svc :
  reuses s0 (store st.1.1) st.1.2 ->
  reuses s0 (store (populateService st svc).1.1) (populateService st svc).1.2.
Proof. destruct st as [[l g] d]. unfold populateService. simpl. intros. reuse. Qed.

Lemma assignServiceBlock_reuses st b :
  reuses s0 (store st.1.1) st.1.2 ->
  reuses s0 (store (assignServiceBlock st b).1.1) (assignServiceBlock st b).1.2.
Proof. destruct st as [[l g] d]. unfold assignServiceBlock. simpl. intros. reuse. Qed.

Lemma populateServiceNodes_reuses l g bs :
  reuses s0 (store l) g ->
  reuses s0 (store (populateServiceNodes env l g bs).1.1)
         (populateServiceNodes env l g bs).1.2.
Proof.
  intros Hl. unfold populateServiceNodes.
  apply (fold_left_preserves (fun st => reuses s0 (store st.1.1) st.1.2));
    [|intros; by apply assignServiceBlock_reuses].
  apply (fold_left_preserves (fun st => reuses s0 (store st.1.1) st.1.2));
    [done|intros; by apply populateService_reuses].
Qed.

Lemma populateConfigBlock_reuses st b :
  reuses s0 (store st.1.1.1) st.1.1.2 ->
  reuses s0 (store (populateConfigBlock env st b).1.1.1)
         (populateConfigBlock env st b).1.1.2.
Proof.
  destruct st as [[[l g] d] m]. unfold populateConfigBlock. simpl. intros. reuse.
Qed.

Lemma addDefault_reuses o st :
  reuses s0 (store st.1) st.2 ->
  reuses s0 (store (addDefault o st).1) (addDefault o st).2.
Proof. destruct st as [l g]. unfold addDefault. simpl. intros. reuse. Qed.

Lemma populateConfigBlockNodes_reuses l args g bs inModule :
  reuses s0 (store l) g ->
  reuses s0 (store (populateConfigBlockNodes env l args g bs inModule).1.1)
         (populateConfigBlockNodes env l args g bs inModule).1.2.
Proof.
  intros Hl. unfold populateConfigBlockNodes.
  pose proof (fold_left_preserves (fun st => reuses s0 (store st.1.1.1) st.1.1.2)
                (populateConfigBlock env) bs (l, g, [], [])) as Hfold.
  destruct (fold_left _ bs _) as [[[l1 g1] d1] m1].
  assert (reuses s0 (store l1) g1) as H1.
  { apply Hfold; [done|]. intros. by apply populateConfigBlock_reuses. }
  clear Hfold.
  assert (forall (c : bool) o (st : Loader * Graph),
             reuses s0 (store st.1) st.2 ->
             reuses s0 (store (if c then addDefault o st else st).1)
                    (if c then addDefault o st else st).2) as Hdefault.
  { intros [] o st Hst; [by apply addDefault_reuses|done]. }
  pose proof (Hdefault (negb (hasConfig LoggingConfig m1) && negb inModule)
                NewDefaultLoggingConfigNode (l1, g1) H1) as H2.
  destruct (if negb (hasConfig LoggingConfig m1) && negb inModule then _ else _)
    as [l2 g2].
  pose proof (Hdefault (negb (hasConfig TracingConfig m1) && negb inModule)
                NewDefaulTracingConfigNode (l2, g2) H2) as H3.
  by destruct (if negb (hasConfig TracingConfig m1) && negb inModule then _ else _)
    as [l3 g3].
Qed.

Lemma populateComponentNode_reuses templates st b :
  (forall name, templates !! name = None) ->
  reuses s0 (store (pLoader st)) (pGraph st) ->
  reuses s0 (store (pLoader (populateComponentNode env templates st b)))
         (pGraph (populateComponentNode env templates st b)).
Proof.
  destruct st as [l g m d]. unfold populateComponentNode, existingComponent. simpl.
  intros Hnone Hl. rewrite Hnone. reuse.
Qed.

Lemma populateComponentNodes_reuses l g bs :
  reuses s0 (store l) g ->
  reuses s0 (store (populateComponentNodes env l g bs (NewNodeTemplates None)).1.1)
         (populateComponentNodes env l g bs (NewNodeTemplates None)).1.2.
Proof.
  intros Hl. unfold populateComponentNodes. simpl.
  apply (fold_left_preserves
           (fun st => reuses s0 (store (pLoader st)) (pGraph st))); [done|].
  intros st b Hst. apply populateComponentNode_reuses; [|done].
  intros name. apply lookup_union_None_2; apply lookup_empty.
Qed.

Lemma wireGraphEdges_reuses l g :
  reuses s0 (store l) g -> reuses s0 (store l) (wireGraphEdges env l g).1.
Proof.
  unfold wireGraphEdges.
  destruct (wiring_facts.wireNodes_spec env (store l) (Nodes g) g [])
    as ((Hn & Hid & _) & _).
  by apply reuses_edges.
Qed.

(** Without declare blocks, a node object from before the construction
    that is not a node of the graph constructed was not touched. *)
Lemma wireNewGraph_reuses rec l args cbs fbs inModule l' g d :
  store l = s0 ->
  wireNewGraph env rec l args cbs fbs [] inModule false None = Some (l', g, d) ->
  keptOutside (nodes g) s0 (store l').
Proof.
  intros Hs0. pose proof reuses_start as H0. rewrite <- Hs0 in H0 at 2. clear Hs0.
  unfold wireNewGraph.
  destruct (splitComponentBlocks env cbs) as [cs ss].
  pose proof (populateServiceNodes_reuses l emptyGraph ss) as H1.
  destruct (populateServiceNodes env l emptyGraph ss) as [[l1 g1] d1]. simpl in H1.
  pose proof (populateConfigBlockNodes_reuses l1 args g1 fbs inModule) as H2.
  destruct (populateConfigBlockNodes env l1 args g1 fbs inModule) as [[l2 g2] d2].
  simpl in H2.
  destruct (SortDeclareBlocks []) as [[sorted sd]|] eqn:Hsort; [|done].
  assert (sorted = []) as ->.
  { destruct sorted as [|b sorted]; [done|].
    pose proof (SortDeclareBlocks_subset _ _ _ Hsort b (list_elem_of_here _ _)) as Hb.
    by apply elem_of_nil in Hb. }
  cbn [fold_left].
  pose proof (populateComponentNodes_reuses l2 g2 cs) as H4.
  destruct (populateComponentNodes env l2 g2 cs (NewNodeTemplates None))
    as [[l4 g4] d4]. simpl in H4.
  pose proof (wireGraphEdges_reuses l4 g4) as H5.
  destruct (wireGraphEdges env l4 g4) as [g5 d5]. simpl in H5.
  intros ?. simplify_eq. apply H5, H4, H2, H1, H0.
Qed.
End Reused.

Section Outcome.
Context `{MapRange}.
Variable env : Collaborators.

(** C3.  [Apply] always gets as far as validating the graph it has wired.
    If that validation fails, [Apply] returns the diagnostics gathered so
    far followed by those of the validation, an error among them.  No
    node was evaluated and the parent was not notified; the graph, the
    component and service node lists and the blocks of the Loader were
    not assigned, so [Graph], [Components] and [Services] answer as
    before.  The node objects are shared with the graph that was being
    built: they were at most constructed or given another block.  When
    there is no declare block, a node object that the rejected graph
    does not hold is as it was, and the non-reduced graph, with it the
    answer of [OriginalGraph], is the one from before as well. *)
Theorem Apply_cycle_keeps_installed l args cbs fbs dbs :
  exists l1 g diags,
    wiredGraph env l args cbs fbs dbs = Some (l1, g, diags) /\
    (Validate (NodeID (store l1)) g ≠ [] ->
     exists l',
       Apply env l args cbs fbs dbs =
         Some (diags ++ multierrToDiags (Validate (NodeID (store l1)) g), l') /\
       HasErrors (diags ++ multierrToDiags (Validate (NodeID (store l1)) g)) = true /\
       graph l' = graph l /\ componentNodes l' = componentNodes l /\
       serviceNodes l' = serviceNodes l /\ blocks l' = blocks l /\
       Graph_ l' = Graph_ l /\ Components l' = Components l /\
       Services l' = Services l /\
       evaluated l' = evaluated l /\ notified l' = notified l /\
       evolves (store l) (store l') /\
       (dbs = [] ->
        originalGraph l' = originalGraph l /\ OriginalGraph l' = OriginalGraph l /\
        (wfStore (store l) -> keptOutside (Nodes g) (store l) (store l')))).
Proof.
  destruct (wiredGraph_total env l args cbs fbs dbs) as [[[l1 g] diags] Hw].
  exists l1, g, diags. split; [done|]. intros Hv.
  assert (validateAndReduce l1 g diags
          = (l1, g, diags ++ multierrToDiags (Validate (NodeID (store l1)) g))) as Hd.
  { unfold validateAndReduce. by destruct (Validate _ g). }
  assert (HasErrors (diags ++ multierrToDiags (Validate (NodeID (store l1)) g)) = true)
    as Herr.
  { rewrite HasErrors_app, (HasErrors_multierrToDiags _ Hv). apply orb_true_r. }
  exists l1. rewrite Apply_unfold, Hw, Hd, Herr. split; [done|]. split; [done|].
  destruct (wiredGraph_builds env _ _ _ _ _ _ _ _ Hw) as [Hsame Hev].
  destruct Hsame as (Hg & Hc & Hs & Hb & _ & _ & He & Hn).
  unfold Graph_, Components, Services, OriginalGraph. rewrite Hg, Hc, Hs.
  repeat (split; [done|]).
  intros ->. pose proof (wiredGraph_storeOnly env _ _ _ _ _ _ _ Hw) as Honly.
  apply storeOnly_originalGraph in Honly. rewrite Honly.
  split; [done|]. split; [done|]. intros Hwf.
  by eapply (wireNewGraph_reuses (store l) Hwf env), Hw.
Qed.
End Outcome.

(** *** On the sample configuration *)

(** The Loader has [a], [b] and [c] installed.  An [Apply] of the edited
    [a] with [p] and [q], which read each other, and of an empty declare
    block fails on the cycle and leaves the installed graph and node list
    as they were.  Yet the node object of [a], which that graph holds, has
    the block of the rejected configuration, and the non-reduced graph is
    the empty graph of the declare body. *)
Lemma Apply_cycle_updates_installed_node :
  (exists l1 g diags,
      wiredGraph sampleEnv previous ∅ [blockA'; blockP; blockQ] [] [blockTemplate]
        = Some (l1, g, diags) /\
      Validate (NodeID (store l1)) g ≠ []) /\
  exists diags l',
    Apply sampleEnv previous ∅ [blockA'; blockP; blockQ] [] [blockTemplate]
      = Some (diags, l') /\
    HasErrors diags = true /\
    graph l' = graph previous /\ Components l' = Components previous /\
    nodeA ∈ Nodes (graph previous) /\ nodeA ∈ Components previous /\
    Block (store previous) nodeA = Some blockA /\
    Block (store l') nodeA = Some blockA' /\ blockA' ≠ blockA /\
    OriginalGraph l' = emptyGraph /\ OriginalGraph previous ≠ emptyGraph.
Proof.
  split.
  { eexists _, _, _. split; [vm_compute; reflexivity|]. vm_compute. discriminate. }
  eexists _, _. split; [vm_compute; reflexivity|].
  vm_compute. repeat split; try discriminate; repeat constructor.
Qed.

Lemma Apply_cycle_keeps_installed_witness :
  wfStore (store previous) /\
  exists diags l',
    Apply sampleEnv previous ∅ [blockP; blockQ] [] [] = Some (diags, l') /\
    HasErrors diags = true /\
    graph l' = graph previous /\ Components l' = Components previous /\
    Services l' = Services previous /\ blocks l' = blocks previous /\
    evaluated l' = evaluated previous /\ notified l' = notified previous /\
    blocksOnly (store previous) (store l') /\
    OriginalGraph l' = OriginalGraph previous /\
    objects (store l') !! nodeA = Some objectA.
Proof.
  assert (wfStore (store previous)) as Hwf.
  { apply wfStore_decide. vm_compute. reflexivity. }
  split; [exact Hwf|].
  destruct (Apply_cycle_keeps_installed sampleEnv previous ∅ [blockP; blockQ] [] [])
    as (l1 & g & diags & Hw & Hrest).
  assert (Validate (NodeID (store l1)) g ≠ [] /\ nodeA ∉ Nodes g) as [Hcycle Hout].
  { clear Hrest. vm_compute in Hw. injection Hw as <- <- <-.
    split; [vm_compute; discriminate|].
    apply (bool_decide_unpack _). vm_compute. exact I. }
  destruct (Hrest Hcycle)
    as (l' & Happ & Herr & Hg & _ & _ & Hb & _ & Hc & Hs & He & Hn & Hev & Ho).
  destruct (Hev Hwf) as [_ Hblocks]. destruct (Ho eq_refl) as (_ & Horig & Hkept).
  assert (objects (store l') !! nodeA = Some objectA) as Ha.
  { apply (Hkept Hwf); [vm_compute; reflexivity|exact Hout]. }
  exists (diags ++ multierrToDiags (Validate (NodeID (store l1)) g)), l'.
  auto 16.
Defined.
End cycle_facts.
